(** * Phishing-awareness simulator: reporting, CSV export, poller and safety gate

    A shallow embedding of [src/reporting.py] and of the CLI flow of
    [src/main.py], with the properties of the metrics engine, the per-recipient
    rows, the CSV exporter, the report poller and the live-send safety gate.
    The configuration loader of [src/config.py] and the name lookup and the
    request URL of [src/gophish_client.py] follow, with the properties of the
    loader, of the launch and of every run.

    Conventions of the embedding.
    - The loosely typed JSON payloads are records with optional fields: a key
      that is absent from a dict is [None], so that [d.get(k)] is the field and
      [d.get(k, default)] is [default_get default field].  The list-valued keys
      ["results"] and ["events"] are lists (an absent key is the empty list,
      which is the default the code passes to [get]).
    - Python's [int / int] raises [ZeroDivisionError] on a zero divisor.
      [compute_metrics] keeps the two rates as the exact rationals, of which
      Python returns the roundings; module [Binary64] has the function with
      the rates as Python computes them, in binary64 arithmetic.
    - Fallible code lives in the error monad [Result]. *)

From Stdlib Require Import QArith Ascii DecimalString.
From Stdlib Require DecimalNat DecimalFacts SpecFloat.
From stdpp Require Import base option list strings gmap sets numbers.

Open Scope string_scope.
Open Scope list_scope.

(** ** Exceptions and the error monad *)

Inductive exn : Type :=
  | ZeroDivisionError
  | ConfigError (msg : string)
  | GophishError (msg : string)
  | OSError (msg : string)
  | CsvError (msg : string)
  | OverflowError
  | ValueError (msg : string).

Inductive Result (A : Type) : Type :=
  | Ok (a : A)
  | Raise (e : exn).
Arguments Ok {A} a.
Arguments Raise {A} e.

#[global] Instance Result_ret : MRet Result := λ A a, Ok a.
#[global] Instance Result_bind : MBind Result := λ A B f r,
  match r with
  | Ok a => f a
  | Raise e => Raise e
  end.

(** ** Python primitives used by the code *)

(** Truth value of [d.get(k)] for a string-valued key: absent and empty are
    both false. *)
Definition truthy (v : option string) : bool :=
  match v with
  | Some s => negb (String.eqb s "")
  | None => false
  end.

(** [str(v)]. *)
Definition py_str (v : option string) : string :=
  match v with
  | Some s => s
  | None => "None"
  end.

(** [d.get(k, default)]. *)
Definition default_get (default : string) (v : option string) : string :=
  match v with
  | Some s => s
  | None => default
  end.

(** [sum(...)] over a generator of booleans. *)
Definition py_sum (bs : list bool) : nat :=
  foldl (λ acc (b : bool), if b then S acc else acc) 0%nat bs.

(** [a / b] on integers, as the exact quotient: Python returns the float
    nearest to it, which [Binary64.py_truediv] below computes. *)
Definition py_truediv (a b : Z) : Result Q :=
  if (b =? 0)%Z then Raise ZeroDivisionError
  else Ok (inject_Z a / inject_Z b)%Q.

(** ** Data model of the campaign payload *)

Record Event : Type := mkEvent {
  ev_type : option string;
  ev_email : option string;
  ev_time : option string;
}.

Record CampaignResult : Type := mkResult {
  res_email : option string;
  res_status : option string;
  res_events : list Event;
}.

Record Campaign : Type := mkCampaign {
  c_name : option string;
  c_status : option string;
  c_results : list CampaignResult;
}.

Record CampaignMetrics : Type := mkMetrics {
  total_recipients : nat;
  opened : nat;
  clicked : nat;
  open_rate : Q;
  click_rate : Q;
}.

(** ** Metrics engine ([reporting.py]) *)

(** [event.get("type") == event_type]. *)
Definition type_is (event_type : string) (event : Event) : bool :=
  bool_decide (ev_type event = Some event_type).

Definition _unique_ids (events : list Event) (event_type : string) : gset string :=
  list_to_set
    ((λ event, py_str (ev_email event)) <$>
     filter (λ event, type_is event_type event && truthy (ev_email event)) events).

(** The loop [for result in results: all_events.extend(result.get("events", []))]. *)
Definition collect_events (results : list CampaignResult) : list Event :=
  foldl (λ all_events result, all_events ++ res_events result) [] results.

(** [(count / total) * 100 if total else 0.0], in exact arithmetic. *)
Definition rate (count total : nat) : Result Q :=
  if bool_decide (total ≠ 0%nat)
  then q ← py_truediv (Z.of_nat count) (Z.of_nat total); Ok (q * 100)%Q
  else Ok 0%Q.

Definition compute_metrics (campaign : Campaign)
    (unique_opens_only unique_clicks_only : bool) : Result CampaignMetrics :=
  let results := c_results campaign in
  let total_recipients := length results in
  let all_events := collect_events results in
  let opened_count :=
    if unique_opens_only
    then size (_unique_ids all_events "Opened Email")
    else py_sum (type_is "Opened Email" <$> all_events) in
  let clicked_count :=
    if unique_clicks_only
    then size (_unique_ids all_events "Clicked Link")
    else py_sum (type_is "Clicked Link" <$> all_events) in
  open_rate ← rate opened_count total_recipients;
  click_rate ← rate clicked_count total_recipients;
  Ok (mkMetrics total_recipients opened_count clicked_count open_rate click_rate).

(** ** The rates as Python computes them ([reporting.py])

    [compute_metrics] above keeps the two rates as exact fractions.  Python
    computes them in IEEE 754 binary64: [/] on two integers gives the float
    nearest to their quotient, and [* 100] multiplies that float by the
    float 100.0 and rounds again.  The operations are those of the standard
    library's specification of binary64, with a mantissa of 53 bits.  Where
    the quotient of two integers is beyond the largest float Python raises
    [OverflowError] instead of returning an infinity; the quotient of a
    number of events by a number of results is far below that, lists being
    shorter than 2^63, and the case is left out. *)

Module Binary64.

Abbreviation float := SpecFloat.spec_float.

Definition prec : Z := 53.
Definition emax : Z := 1024.

(** An integer as an operand of [/]: it enters the quotient exactly. *)
Definition of_int (z : Z) : float :=
  match z with
  | Z0 => SpecFloat.S754_zero false
  | Zpos p => SpecFloat.S754_finite false p 0
  | Zneg p => SpecFloat.S754_finite true p 0
  end.

(** The floats [100.0] and [0.0]. *)
Definition hundred : float := SpecFloat.S754_finite false 7036874417766400 (-46).
Definition zero : float := SpecFloat.S754_zero false.

(** [a / b] on integers. *)
Definition py_truediv (a b : Z) : Result float :=
  if (b =? 0)%Z then Raise ZeroDivisionError
  else Ok (SpecFloat.SFdiv prec emax (of_int a) (of_int b)).

(** [x * 100] on a float. *)
Definition py_mul_100 (x : float) : float := SpecFloat.SFmul prec emax x hundred.

Record CampaignMetrics : Type := mkMetrics {
  total_recipients : nat;
  opened : nat;
  clicked : nat;
  open_rate : float;
  click_rate : float;
}.

(** [(count / total) * 100 if total else 0.0]. *)
Definition rate (count total : nat) : Result float :=
  if bool_decide (total ≠ 0%nat)
  then q ← py_truediv (Z.of_nat count) (Z.of_nat total); Ok (py_mul_100 q)
  else Ok zero.

Definition compute_metrics (campaign : Campaign)
    (unique_opens_only unique_clicks_only : bool) : Result CampaignMetrics :=
  let results := c_results campaign in
  let total_recipients := length results in
  let all_events := collect_events results in
  let opened_count :=
    if unique_opens_only
    then size (_unique_ids all_events "Opened Email")
    else py_sum (type_is "Opened Email" <$> all_events) in
  let clicked_count :=
    if unique_clicks_only
    then size (_unique_ids all_events "Clicked Link")
    else py_sum (type_is "Clicked Link" <$> all_events) in
  open_rate ← rate opened_count total_recipients;
  click_rate ← rate clicked_count total_recipients;
  Ok (mkMetrics total_recipients opened_count clicked_count open_rate click_rate).

End Binary64.

(** ** Per-recipient rows ([reporting.py]) *)

Record RecipientRow : Type := mkRow {
  campaign_name : string;
  campaign_status : string;
  recipient_email : string;
  recipient_status : string;
  open_count : nat;
  click_count : nat;
  first_open_time : string;
  first_click_time : string;
  last_event_type : string;
  last_event_time : string;
}.

Definition _extract_event_times (events : list Event) (event_type : string) : list string :=
  (λ event, py_str (ev_time event)) <$>
  filter (λ event, type_is event_type event && truthy (ev_time event)) events.

(** The empty dict [{}] that stands for the last event of a result without
    events. *)
Definition empty_event : Event := mkEvent None None None.

(** [xs[0] if xs else ""]. *)
Definition first_or_empty (xs : list string) : string :=
  match xs with
  | x :: _ => x
  | [] => ""
  end.

(** The body of the loop of [build_recipient_rows] for one result. *)
Definition build_row (campaign_name campaign_status : string)
    (result : CampaignResult) : RecipientRow :=
  let events := res_events result in
  let opened_times := _extract_event_times events "Opened Email" in
  let clicked_times := _extract_event_times events "Clicked Link" in
  let first_open := first_or_empty opened_times in
  let first_click := first_or_empty clicked_times in
  let last_event := List.last events empty_event in
  {| campaign_name := campaign_name;
     campaign_status := campaign_status;
     recipient_email := default_get "" (res_email result);
     recipient_status := default_get "" (res_status result);
     open_count := length opened_times;
     click_count := length clicked_times;
     first_open_time := first_open;
     first_click_time := first_click;
     last_event_type := default_get "" (ev_type last_event);
     last_event_time := default_get "" (ev_time last_event) |}.

Definition build_recipient_rows (campaign : Campaign) : list RecipientRow :=
  let campaign_name := default_get "<unknown>" (c_name campaign) in
  let campaign_status := default_get "<unknown>" (c_status campaign) in
  foldl (λ rows result, rows ++ [build_row campaign_name campaign_status result])
        [] (c_results campaign).

(** ** The [csv] module, dialect [excel]

    [export_csv] relies on [csv.DictWriter] with its defaults: delimiter [,],
    the double quote as quote character, doubled inside a field, line
    terminator CR LF, minimal quoting.  The writer below follows [join_append_data] and [writerow] of
    CPython's [_csv] module for that dialect; the reader follows
    [parse_process_char] and the reader's iteration over the lines of a file
    opened without newline translation, under the field size limit of the
    module. *)

Module Csv.

Definition delimiter : ascii := ","%char.
Definition quotechar : ascii := "034"%char.
Definition CR : ascii := "013"%char.
Definition LF : ascii := "010"%char.
Definition lineterminator : list ascii := [CR; LF].

Abbreviation text := (list ascii).

(** *** Writer *)

(** The characters that force a field to be quoted. *)
Definition special (c : ascii) : bool :=
  bool_decide (c = delimiter) || bool_decide (c = quotechar)
  || bool_decide (c ∈ lineterminator).

(** Copy of the field's characters, every quote character doubled. *)
Fixpoint copy_doubling (field : text) : text :=
  match field with
  | [] => []
  | c :: rest =>
      if bool_decide (c = quotechar) then quotechar :: quotechar :: copy_doubling rest
      else c :: copy_doubling rest
  end.

(** [join_append_data]: one field, quoted when it holds a special character
    or when [quoted] is requested. *)
Definition join_append (field : text) (quoted : bool) : text :=
  if quoted || existsb special field
  then quotechar :: copy_doubling field ++ [quotechar]
  else copy_doubling field.

(** The fields of a record, a delimiter before every field but the first. *)
Fixpoint join_fields (fields : list text) : text :=
  match fields with
  | [] => []
  | [field] => join_append field false
  | field :: rest => join_append field false ++ delimiter :: join_fields rest
  end.

(** [writer.writerow]: a record that would be empty although it has a field
    is written as a quoted empty field. *)
Definition writerow (fields : list string) : text :=
  let rec := join_fields (String.list_ascii_of_string <$> fields) in
  let rec :=
    if bool_decide (fields ≠ []) && bool_decide (rec = [])
    then join_append [] true else rec in
  rec ++ lineterminator.

(** *** Reader *)

Inductive ParserState : Type :=
  | START_RECORD
  | START_FIELD
  | IN_FIELD
  | IN_QUOTED_FIELD
  | QUOTE_IN_QUOTED_FIELD
  | EAT_CRNL
  | FAILED
  | TOO_LARGE.

(** Where the file iterator stands in the current line. *)
Inductive LineState : Type :=
  | LineStart
  | InLine
  | AfterCR.

Record Reader : Type := mkReader {
  state : ParserState;
  line : LineState;
  field : text;
  fields : list string;
  records : list (list string);
}.

Definition initial : Reader := mkReader START_RECORD LineStart [] [] [].

Definition set_state (st : ParserState) (r : Reader) : Reader :=
  mkReader st (line r) (field r) (fields r) (records r).

Definition set_line (ls : LineState) (r : Reader) : Reader :=
  mkReader (state r) ls (field r) (fields r) (records r).

Definition parse_save_field (r : Reader) : Reader :=
  mkReader (state r) (line r) [] (fields r ++ [String.string_of_list_ascii (field r)])
           (records r).

Definition is_newline (c : ascii) : bool :=
  bool_decide (c = LF) || bool_decide (c = CR).

(** The record is complete: the reader hands out its fields. *)
Definition emit_record (r : Reader) : Reader :=
  mkReader START_RECORD (line r) [] [] (records r ++ [fields r]).

(** [parse_process_char] on the end of a line, followed by the test that ends
    the reader's loop over lines. *)
Definition parse_process_eol (r : Reader) : Reader :=
  match state r with
  | START_RECORD => emit_record r
  | START_FIELD | IN_FIELD | QUOTE_IN_QUOTED_FIELD => emit_record (parse_save_field r)
  | IN_QUOTED_FIELD => r
  | EAT_CRNL => emit_record r
  | FAILED | TOO_LARGE => r
  end.

(** End of the file: the last line ends if it was begun, and a record that
    is still open is handed out with the field read so far.  A reader that
    has failed stays as it is. *)
Definition end_of_input (r : Reader) : Reader :=
  match state r with
  | FAILED | TOO_LARGE => r
  | _ =>
      let r := match line r with
               | LineStart => r
               | InLine | AfterCR => parse_process_eol (set_line LineStart r)
               end in
      if bool_decide (field r ≠ [])
         || match state r with IN_QUOTED_FIELD => true | _ => false end
      then emit_record (parse_save_field r)
      else r
  end.

(** The default of [csv.field_size_limit()]. *)
Definition default_field_size_limit : N := 131072.

Section Limit.

(** The limit in force, in characters of a field; [None] stands for a limit
    that no string reaches, as after [csv.field_size_limit(sys.maxsize)]. *)
Context (field_size_limit : option N).

(** A field of [n] characters is within the limit. *)
Definition room (n : nat) : bool :=
  match field_size_limit with
  | Some limit => (N.of_nat n <=? limit)%N
  | None => true
  end.

(** The field read so far has reached the limit. *)
Definition at_limit (r : Reader) : bool :=
  match field_size_limit with
  | Some limit => (limit <=? N.of_nat (length (field r)))%N
  | None => false
  end.

(** [parse_add_char], and the state [st] that the parser takes once the
    character is in the field; a field at the limit takes no character and
    the reader fails. *)
Definition parse_add_char (st : ParserState) (c : ascii) (r : Reader) : Reader :=
  if at_limit r then set_state TOO_LARGE r
  else mkReader st (line r) (field r ++ [c]) (fields r) (records r).

(** [parse_process_char] on a character of the line. *)
Definition parse_process_char (c : ascii) (r : Reader) : Reader :=
  match state r with
  | START_RECORD =>
      if is_newline c then set_state EAT_CRNL r
      else if bool_decide (c = quotechar) then set_state IN_QUOTED_FIELD r
      else if bool_decide (c = delimiter) then set_state START_FIELD (parse_save_field r)
      else parse_add_char IN_FIELD c r
  | START_FIELD =>
      if is_newline c then set_state EAT_CRNL (parse_save_field r)
      else if bool_decide (c = quotechar) then set_state IN_QUOTED_FIELD r
      else if bool_decide (c = delimiter) then parse_save_field r
      else parse_add_char IN_FIELD c r
  | IN_FIELD =>
      if is_newline c then set_state EAT_CRNL (parse_save_field r)
      else if bool_decide (c = delimiter) then set_state START_FIELD (parse_save_field r)
      else parse_add_char IN_FIELD c r
  | IN_QUOTED_FIELD =>
      if bool_decide (c = quotechar) then set_state QUOTE_IN_QUOTED_FIELD r
      else parse_add_char IN_QUOTED_FIELD c r
  | QUOTE_IN_QUOTED_FIELD =>
      if bool_decide (c = quotechar) then parse_add_char IN_QUOTED_FIELD c r
      else if bool_decide (c = delimiter) then set_state START_FIELD (parse_save_field r)
      else if is_newline c then set_state EAT_CRNL (parse_save_field r)
      else parse_add_char IN_FIELD c r
  | EAT_CRNL =>
      if is_newline c then r else set_state FAILED r
  | FAILED | TOO_LARGE => r
  end.

(** One character of the file: the file iterator ends a line after LF, after
    CR LF and after a CR that no LF follows, and the reader sees the end of
    the line once the characters of the line are consumed. *)
Definition read_char (r : Reader) (c : ascii) : Reader :=
  match line r with
  | AfterCR =>
      if bool_decide (c = LF)
      then parse_process_eol (parse_process_char c (set_line LineStart r))
      else
        let r := parse_process_eol r in
        parse_process_char c (set_line (if bool_decide (c = CR) then AfterCR else InLine) r)
  | LineStart | InLine =>
      if bool_decide (c = LF)
      then parse_process_eol (parse_process_char c (set_line LineStart r))
      else parse_process_char c (set_line (if bool_decide (c = CR) then AfterCR else InLine) r)
  end.

(** The message of the error that a field beyond the limit raises. *)
Definition field_limit_message : string :=
  match field_size_limit with
  | Some limit =>
      "field larger than field limit (" ++ NilZero.string_of_uint (N.to_uint limit) ++ ")"
  | None => "field larger than field limit"
  end.

(** [list(csv.reader(handle))]. *)
Definition reader (content : text) : Result (list (list string)) :=
  let r := end_of_input (foldl read_char initial content) in
  match state r with
  | FAILED => Raise (CsvError "new-line character seen in unquoted field")
  | TOO_LARGE => Raise (CsvError field_limit_message)
  | _ => Ok (records r)
  end.

End Limit.

(** *** States of the reader between the parts of a record *)

Abbreviation str := String.string_of_list_ascii.
Abbreviation txt := String.list_ascii_of_string.

(** The reader between two records. *)
Definition ready (recs : list (list string)) : Reader :=
  mkReader START_RECORD LineStart [] [] recs.

(** The reader at the start of a field: of the first one of a record, or
    after a delimiter. *)
Inductive fresh : ParserState → LineState → Prop :=
  | fresh_record : fresh START_RECORD LineStart
  | fresh_field : fresh START_FIELD InLine.

(** The states in which a field is complete but not yet saved. *)
Inductive field_read : ParserState → LineState → text → Prop :=
  | field_read_empty : field_read START_FIELD InLine []
  | field_read_plain l : field_read IN_FIELD InLine l
  | field_read_quoted l : field_read QUOTE_IN_QUOTED_FIELD InLine l.

(** The outcome of reading a text: the reader [r'] if [n] characters are
    within the limit, a failed reader if not. *)
Definition reads (limit : option N) (n : nat) (r r' : Reader) : Prop :=
  if room limit n then r = r' else state r = TOO_LARGE.

(** All the fields of a record are within the limit. *)
Definition record_room (limit : option N) (fields : list Csv.text) : bool :=
  forallb (λ f, room limit (length f)) fields.

(** Every value of a record is within the limit. *)
Definition values_room (limit : option N) (fields : list string) : bool :=
  forallb (λ s, room limit (String.length s)) fields.

End Csv.

(** ** Files *)

(** The files of the machine by path, and the paths that can be opened for
    writing. *)
Record FileSystem : Type := mkFileSystem {
  files : gmap string Csv.text;
  writable : string → bool;
}.

(** [open(path, "w", newline="")]: the file is created or truncated. *)
Definition open_w (path : string) (fs : FileSystem) : Result FileSystem :=
  if writable fs path
  then Ok (mkFileSystem (<[path := []]> (files fs)) (writable fs))
  else Raise (OSError path).

(** [handle.write(data)] on the file opened at [path]. *)
Definition write (path : string) (data : Csv.text) (fs : FileSystem) : FileSystem :=
  mkFileSystem (alter (λ old, old ++ data) path (files fs)) (writable fs).

(** ** CSV exporter ([reporting.py]) *)

Definition fieldnames : list string :=
  [ "campaign_name";
    "campaign_status";
    "recipient_email";
    "recipient_status";
    "open_count";
    "click_count";
    "first_open_time";
    "first_click_time";
    "last_event_type";
    "last_event_time" ].

(** [str(n)] for the two counters of a row. *)
Definition str_of_nat (n : nat) : string :=
  NilZero.string_of_uint (Nat.to_uint n).

(** [DictWriter._dict_to_list]: the values of the row in the order of
    [fieldnames], as the writer renders them. *)
Definition _dict_to_list (row : RecipientRow) : list string :=
  [ campaign_name row;
    campaign_status row;
    recipient_email row;
    recipient_status row;
    str_of_nat (open_count row);
    str_of_nat (click_count row);
    first_open_time row;
    first_click_time row;
    last_event_type row;
    last_event_time row ].

Definition writeheader (path : string) (fs : FileSystem) : FileSystem :=
  write path (Csv.writerow fieldnames) fs.

Definition writerows (path : string) (rows : list RecipientRow)
    (fs : FileSystem) : FileSystem :=
  foldl (λ fs row, write path (Csv.writerow (_dict_to_list row)) fs) fs rows.

Definition export_csv (rows : list RecipientRow) (output_path : string)
    (fs : FileSystem) : Result FileSystem :=
  fs ← open_w output_path fs;
  Ok (writerows output_path rows (writeheader output_path fs)).

(** What a later reader of the file gets under the field size limit
    [limit]. *)
Definition read_csv_within (limit : option N) (path : string) (fs : FileSystem)
    : Result (list (list string)) :=
  match files fs !! path with
  | Some content => Csv.reader limit content
  | None => Raise (OSError path)
  end.

(** What a later reader of the exported file gets that has put the limit
    out of reach. *)
Definition read_csv (path : string) (fs : FileSystem) : Result (list (list string)) :=
  read_csv_within None path fs.

(** ** Configuration and command line ([config.py], [main.py]) *)

Record CampaignConfig : Type := mkCampaignConfig {
  name : string;
  group_name : string;
  template_name : string;
  page_name : string;
  sending_profile_name : string;
  url : string;
  launch_date : option string;
}.

Record ReportingConfig : Type := mkReportingConfig {
  unique_clicks_only : bool;
  unique_opens_only : bool;
}.

Record AppConfig : Type := mkAppConfig {
  allow_live_send : bool;
  dry_run : bool;
  base_url : string;
  api_key : string;
  verify_tls : bool;
  campaign : CampaignConfig;
  reporting : ReportingConfig;
}.

(** The namespace that [argparse] returns. *)
Record Args : Type := mkArgs {
  args_config : string;
  args_dry_run : bool;
  args_report_only : bool;
  args_campaign_id : option Z;
  args_csv_out : option string;
  args_poll_interval : Z;
  args_poll_count : Z;
  args_confirm : string;
}.

Definition CONFIRM_PHRASE : string := "I-UNDERSTAND-THIS-IS-AWARENESS".

(** ** The Gophish client ([gophish_client.py]) *)

Record GophishResource : Type := mkResource {
  gr_id : Z;
  gr_name : string;
}.

(** The campaign creation request. *)
Record Payload : Type := mkPayload {
  p_name : string;
  p_template : GophishResource;
  p_page : GophishResource;
  p_url : string;
  p_smtp : GophishResource;
  p_groups : list GophishResource;
  p_template_id : Z;
  p_page_id : Z;
  p_smtp_id : Z;
  p_group_ids : list Z;
  p_launch_date : option string;
}.

(** What the process finds around it: the configuration file as
    [load_config] parses it, and the replies of the Gophish server.  The
    [n]-th request for a campaign is answered by [campaign_reply n]. *)
Record Environment : Type := mkEnvironment {
  load_config : string → Result AppConfig;
  groups_reply : Result (list GophishResource);
  templates_reply : Result (list GophishResource);
  pages_reply : Result (list GophishResource);
  sending_profiles_reply : Result (list GophishResource);
  create_reply : Payload → Result (option Z);
  campaign_reply : nat → Z → Result Campaign;
}.

(** What the process writes to its standard output. *)
Inductive Output : Type :=
  | Report (campaign : Campaign) (metrics : CampaignMetrics)
  | CsvExportUpdated (path : string)
  | DryRunPlan (payload : Payload)
  | CampaignCreated (campaign_id : option Z)
  | UseReportOnly.

(** The observable actions of a run, in order. *)
Inductive Action : Type :=
  | ListGroups
  | ListTemplates
  | ListPages
  | ListSendingProfiles
  | CreateCampaign (payload : Payload)
  | GetCampaign (campaign_id : Z) (include_results : bool) (reply : Result Campaign)
  | ExportCsv (path : string) (rows : list RecipientRow)
  | Sleep (seconds : Z)
  | Print (out : Output)
  | PrintErr (msg : string).

Record World : Type := mkWorld {
  trace : list Action;
  fs : FileSystem;
  fetches : nat;
}.

(** ** Processes: state, exceptions and [return]

    A step of the process either goes on with a value ([Next]), leaves [run]
    with an exit code ([Return]), raises an exception ([Raised]), or is
    still inside the polling loop when the observation ends ([Running]). *)

Inductive Control (A : Type) : Type :=
  | Next (a : A)
  | Return (code : Z)
  | Raised (e : exn)
  | Running.
Arguments Next {A} a.
Arguments Return {A} code.
Arguments Raised {A} e.
Arguments Running {A}.

Definition Proc (A : Type) : Type := World → Control A * World.

Definition pure {A} (a : A) : Proc A := λ w, (Next a, w).

Definition bind {A B} (p : Proc A) (k : A → Proc B) : Proc B := λ w,
  match p w with
  | (Next a, w') => k a w'
  | (Return code, w') => (Return code, w')
  | (Raised e, w') => (Raised e, w')
  | (Running, w') => (Running, w')
  end.

Declare Scope proc_scope.
Delimit Scope proc_scope with proc.
Bind Scope proc_scope with Proc.
Notation "x <~ p ;; k" := (bind p (λ x, k))
  (at level 100, p at next level, right associativity) : proc_scope.
Notation "p ;; k" := (bind p (λ _, k))
  (at level 100, right associativity) : proc_scope.

Definition return_ {A} (code : Z) : Proc A := λ w, (Return code, w).
Definition raise {A} (e : exn) : Proc A := λ w, (Raised e, w).

(** A value or exception of pure code, inside a process. *)
Definition lift {A} (r : Result A) : Proc A :=
  match r with
  | Ok a => pure a
  | Raise e => raise e
  end.

Definition log (a : Action) : Proc unit := λ w,
  (Next (), mkWorld (trace w ++ [a]) (fs w) (fetches w)).

(** [try: body except ConfigError as exc: handler]. *)
Definition try_except_ConfigError {A} (body : Proc A) (handler : string → Proc A) : Proc A := λ w,
  match body w with
  | (Raised (ConfigError exc), w') => handler exc w'
  | r => r
  end.

(** [try: body except GophishError as exc: handler]. *)
Definition try_except_GophishError {A} (body : Proc A) (handler : string → Proc A) : Proc A := λ w,
  match body w with
  | (Raised (GophishError exc), w') => handler exc w'
  | r => r
  end.

Definition print (out : Output) : Proc unit := log (Print out).
Definition print_err (msg : string) : Proc unit := log (PrintErr msg).

(** The largest number of seconds that [time.sleep] takes: it keeps the
    time in nanoseconds in a signed 64-bit integer. *)
Definition max_sleep : Z := 9223372036.

(** [time.sleep(seconds)] for an integer: a number of seconds whose
    nanoseconds do not fit raises [OverflowError], a negative one raises
    [ValueError], and otherwise the process sleeps.  The trace holds the
    sleeps that took place: a call that raises leaves none. *)
Definition sleep (seconds : Z) : Proc unit :=
  if (Z.abs seconds <=? max_sleep)%Z then
    if (seconds <? 0)%Z then raise (ValueError "sleep length must be non-negative")
    else log (Sleep seconds)
  else raise OverflowError.

Section Client.
Variable env : Environment.

Definition list_groups : Proc (list GophishResource) :=
  (log ListGroups;; lift (groups_reply env))%proc.
Definition list_templates : Proc (list GophishResource) :=
  (log ListTemplates;; lift (templates_reply env))%proc.
Definition list_pages : Proc (list GophishResource) :=
  (log ListPages;; lift (pages_reply env))%proc.
Definition list_sending_profiles : Proc (list GophishResource) :=
  (log ListSendingProfiles;; lift (sending_profiles_reply env))%proc.

Fixpoint find_by_name_loop (resources : list GophishResource) (name : string)
    : option GophishResource :=
  match resources with
  | [] => None
  | item :: rest =>
      if String.eqb (gr_name item) name then Some item
      else find_by_name_loop rest name
  end.

(** [", ".join(resource.name for resource in resources) or "<none>"]. *)
Definition available_names (resources : list GophishResource) : string :=
  let names := String.concat ", " (gr_name <$> resources) in
  if String.eqb names "" then "<none>" else names.

Definition find_by_name (resources : list GophishResource) (name : string)
    : Proc GophishResource :=
  match find_by_name_loop resources name with
  | Some item => pure item
  | None =>
      raise (GophishError
               ("Resource '" +:+ name +:+ "' not found. Available: "
                +:+ available_names resources))
  end.

Definition create_campaign (payload : Payload) : Proc (option Z) :=
  (log (CreateCampaign payload);; lift (create_reply env payload))%proc.

Definition get_campaign (campaign_id : Z) (include_results : bool) : Proc Campaign := λ w,
  let reply := campaign_reply env (fetches w) campaign_id in
  lift reply (mkWorld (trace w ++ [GetCampaign campaign_id include_results reply])
                      (fs w) (S (fetches w))).
End Client.

(** [export_csv] as a step of the process. *)
Definition export_csv_step (rows : list RecipientRow) (output_path : string) : Proc unit := λ w,
  let w := mkWorld (trace w ++ [ExportCsv output_path rows]) (fs w) (fetches w) in
  match export_csv rows output_path (fs w) with
  | Ok fs' => (Next (), mkWorld (trace w) fs' (fetches w))
  | Raise e => (Raised e, w)
  end.

(** ** The command line flow ([main.py]) *)

Section Main.
Variable env : Environment.

Definition _build_campaign_payload (config : AppConfig) : Proc Payload :=
  (resources <~ list_groups env;;
   group <~ find_by_name resources (group_name (campaign config));;
   resources <~ list_templates env;;
   template <~ find_by_name resources (template_name (campaign config));;
   resources <~ list_pages env;;
   page <~ find_by_name resources (page_name (campaign config));;
   resources <~ list_sending_profiles env;;
   sending_profile <~ find_by_name resources (sending_profile_name (campaign config));;
   pure {| p_name := name (campaign config);
           p_template := template;
           p_page := page;
           p_url := url (campaign config);
           p_smtp := sending_profile;
           p_groups := [group];
           p_template_id := gr_id template;
           p_page_id := gr_id page;
           p_smtp_id := gr_id sending_profile;
           p_group_ids := [gr_id group];
           p_launch_date :=
             if truthy (launch_date (campaign config))
             then launch_date (campaign config) else None |})%proc.

Definition _enforce_safety (config : AppConfig) (args : Args) : Result unit :=
  if args_report_only args then Ok ()
  else if args_dry_run args || dry_run config then Ok ()
  else if negb (allow_live_send config) then
    Raise (ConfigError "allow_live_send is false. Refusing to send awareness emails.")
  else if negb (String.eqb (args_confirm args) CONFIRM_PHRASE) then
    Raise (ConfigError
      "Missing --confirm phrase. Use --confirm I-UNDERSTAND-THIS-IS-AWARENESS to proceed.")
  else Ok ().

Definition _print_plan (payload : Payload) : Proc unit :=
  print (DryRunPlan payload).

(** One turn of the [while True] loop of the report-only mode; its value
    is [remaining_polls] for the next turn. *)
Definition poll_cycle (config : AppConfig) (args : Args) (campaign_id : Z)
    (poll_interval remaining_polls : Z) : Proc Z :=
  (campaign <~ try_except_GophishError (get_campaign env campaign_id true)
                 (λ exc, print_err ("Failed to fetch campaign: " +:+ exc);; return_ 1);;
   metrics <~ lift (compute_metrics campaign
                      (unique_opens_only (reporting config))
                      (unique_clicks_only (reporting config)));;
   print (Report campaign metrics);;
   (if truthy (args_csv_out args) then
      let rows := build_recipient_rows campaign in
      export_csv_step rows (py_str (args_csv_out args));;
      print (CsvExportUpdated (py_str (args_csv_out args)))
    else pure ());;
   (if (poll_interval =? 0)%Z then return_ 0 else pure ());;
   remaining_polls <~
     (if (remaining_polls =? 0)%Z then
        (if bool_decide (c_status campaign = Some "Completed")
         then return_ 0 else pure remaining_polls)
      else
        let remaining_polls := (remaining_polls - 1)%Z in
        if (remaining_polls <=? 0)%Z then return_ 0 else pure remaining_polls);;
   sleep poll_interval;;
   pure remaining_polls)%proc.

(** The loop itself, observed for at most [fuel] turns. *)
Fixpoint poll_loop (fuel : nat) (config : AppConfig) (args : Args) (campaign_id : Z)
    (poll_interval remaining_polls : Z) : Proc unit :=
  match fuel with
  | O => λ w, (Running, w)
  | S fuel =>
      bind (poll_cycle config args campaign_id poll_interval remaining_polls)
           (λ remaining_polls,
              poll_loop fuel config args campaign_id poll_interval remaining_polls)
  end.

Definition run (fuel : nat) (args : Args) : Proc unit :=
  (config <~ try_except_ConfigError (lift (load_config env (args_config args)))
               (λ exc, print_err ("Config error: " +:+ exc);; return_ 1);;
   try_except_ConfigError (lift (_enforce_safety config args))
     (λ exc, print_err ("Safety check failed: " +:+ exc);; return_ 1);;
   if args_report_only args then
     match args_campaign_id args with
     | None | Some 0%Z =>
         print_err "--campaign-id is required in report-only mode";; return_ 1
     | Some campaign_id =>
         let poll_interval := Z.max (args_poll_interval args) 0 in
         let remaining_polls :=
           if (poll_interval =? 0)%Z then 1%Z else args_poll_count args in
         poll_loop fuel config args campaign_id poll_interval remaining_polls
     end
   else
     payload <~ try_except_GophishError (_build_campaign_payload config)
                  (λ exc, print_err ("Failed to resolve campaign resources: " +:+ exc);;
                          return_ 1);;
     if args_dry_run args || dry_run config then
       _print_plan payload;; return_ 0
     else
       created <~ try_except_GophishError (create_campaign env payload)
                    (λ exc, print_err ("Failed to create campaign: " +:+ exc);; return_ 1);;
       print (CampaignCreated created);;
       print UseReportOnly;;
       return_ 0)%proc.
End Main.

(** The world in which a process starts. *)
Definition start (files : FileSystem) : World := mkWorld [] files 0.

(** ** Vocabulary of the specification *)

(** [event] is one of the events of the payload. *)
Definition event_of (c : Campaign) (event : Event) : Prop :=
  ∃ result, result ∈ c_results c ∧ event ∈ res_events result.

(** Exactly [n] distinct non-empty email addresses occur among the events of
    type [event_type]. *)
Definition distinct_emails (c : Campaign) (event_type : string) (n : nat) : Prop :=
  ∃ ids : list string,
    NoDup ids ∧ length ids = n ∧
    ∀ a, a ∈ ids ↔
         a ≠ "" ∧ ∃ event, event_of c event ∧ ev_type event = Some event_type
                            ∧ ev_email event = Some a.

(** The number of events of type [event_type], every occurrence counted. *)
Definition occurrences (c : Campaign) (event_type : string) : nat :=
  sum_list ((λ result,
               length (filter (λ event, ev_type event = Some event_type)
                              (res_events result)))
            <$> c_results c).

(** The payload with one result whose two events are the same opening. *)
Definition opened_twice : Campaign :=
  let event := mkEvent (Some "Opened Email") (Some "a@x") None in
  mkCampaign None None [mkResult None None [event; event]].

(** The percentage [count / total * 100]. *)
Definition percentage (count total : nat) : Q :=
  (inject_Z (Z.of_nat count) / inject_Z (Z.of_nat total) * 100)%Q.

(** [event] is of type [event_type] and has the time value [t]. *)
Definition timed (event_type : string) (event : Event) (t : string) : Prop :=
  ev_type event = Some event_type ∧ ev_time event = Some t ∧ t ≠ "".

(** [t] is the time of the first event of type [event_type] that has one,
    the empty string when no event of that type has a time. *)
Definition first_time (events : list Event) (event_type : string) (t : string) : Prop :=
  (∃ before event after,
      events = before ++ event :: after ∧ timed event_type event t
      ∧ ∀ e t', e ∈ before → ¬ timed event_type e t')
  ∨ (t = "" ∧ ∀ e t', e ∈ events → ¬ timed event_type e t').

(** [event] is of type [event_type] and has a time value. *)
Definition has_time (event_type : string) (event : Event) : bool :=
  match ev_type event, ev_time event with
  | Some ty, Some t => bool_decide (ty = event_type ∧ t ≠ "")
  | _, _ => false
  end.

(** The number of events of type [event_type] that have a time value. *)
Definition timed_count (events : list Event) (event_type : string) : nat :=
  length (filter (λ event, has_time event_type event) events).

(** A payload whose only result has no events. *)
Definition silent_recipient : Campaign :=
  mkCampaign (Some "Q3") (Some "In progress")
             [mkResult (Some "a@x") (Some "Email Sent") []].

(** *** The poller *)

Definition is_fetch (a : Action) : bool :=
  match a with GetCampaign _ _ _ => true | _ => false end.

Definition is_sleep (a : Action) : bool :=
  match a with Sleep _ => true | _ => false end.

Definition is_create (a : Action) : bool :=
  match a with CreateCampaign _ => true | _ => false end.

(** The number of fetches, resp. of sleeps, of a trace. *)
Definition fetch_count (t : list Action) : nat := length (filter (λ a, is_fetch a) t).
Definition sleep_count (t : list Action) : nat := length (filter (λ a, is_sleep a) t).

(** One fetch/report/export cycle on the payload [c]: the fetch, the report
    and, when a CSV path is configured, the export and its notice. *)
Definition cycle (config : AppConfig) (args : Args) (campaign_id : Z) (c : Campaign)
    : list Action :=
  match compute_metrics c (unique_opens_only (reporting config))
                          (unique_clicks_only (reporting config)) with
  | Ok m =>
      [GetCampaign campaign_id true (Ok c); Print (Report c m)]
      ++ (if truthy (args_csv_out args)
          then [ExportCsv (py_str (args_csv_out args)) (build_recipient_rows c);
                Print (CsvExportUpdated (py_str (args_csv_out args)))]
          else [])
  | Raise _ => [GetCampaign campaign_id true (Ok c)]
  end.


(** The cycles on the payloads [cs], each one followed by its sleep: the
    trace of a poller that goes on. *)
Definition slept_cycles (config : AppConfig) (args : Args) (campaign_id : Z) (seconds : Z)
    (cs : list Campaign) : list Action :=
  mjoin ((λ c, cycle config args campaign_id c ++ [Sleep seconds]) <$> cs).

(** The decision that ends a cycle: stop, or go on with that many polls. *)
Definition next_polls (poll_interval remaining_polls : Z) (c : Campaign) : option Z :=
  if (poll_interval =? 0)%Z then None
  else if (remaining_polls =? 0)%Z then
    if bool_decide (c_status c = Some "Completed") then None else Some 0%Z
  else if (remaining_polls - 1 <=? 0)%Z then None
  else Some (remaining_polls - 1)%Z.

(** The server answers the fetches number [first], [first + 1], ... with the
    payloads [cs]. *)
Definition answers (env : Environment) (campaign_id : Z) (first : nat)
    (cs : list Campaign) : Prop :=
  ∀ i c, cs !! i = Some c → campaign_reply env (first + i) campaign_id = Ok c.

(** The run is in report-only mode on campaign [campaign_id], its
    configuration loads, and the CSV path, if there is one, can be written. *)
Definition reporting_run (env : Environment) (args : Args) (files : FileSystem)
    (config : AppConfig) (campaign_id : Z) : Prop :=
  load_config env (args_config args) = Ok config
  ∧ args_report_only args = true
  ∧ args_campaign_id args = Some campaign_id ∧ campaign_id ≠ 0%Z
  ∧ (truthy (args_csv_out args) = true → writable files (py_str (args_csv_out args)) = true).

(** *** Traces *)

(** A fetch that the server answered with an error. *)
Definition failed_fetch (a : Action) : bool :=
  match a with GetCampaign _ _ (Raise _) => true | _ => false end.

(** How the poller ends on a fetch that raised [e], and what it still
    writes: [GophishError] is caught, reported on the standard error and
    turned into exit code 1; anything else leaves [run] as it is. *)
Definition abort_ctl {A} (e : exn) : Control A :=
  match e with GophishError _ => Return 1%Z | _ => Raised e end.

Definition abort_tail (e : exn) : list Action :=
  match e with
  | GophishError exc => [PrintErr ("Failed to fetch campaign: " +:+ exc)]
  | _ => []
  end.

(** [p] only adds to the trace, and only actions that satisfy [P]. *)
Definition emits {A} (P : Action → Prop) (p : Proc A) : Prop :=
  ∀ w, ∃ t, trace (p w).2 = trace w ++ t ∧ Forall P t.

(** [p] only adds to the trace; a failed fetch occurs at most once, and then
    [p] ends as [abort_ctl] and [abort_tail] say. *)
Definition fetch_safe {A} (p : Proc A) : Prop :=
  ∀ w,
    (∃ t, trace (p w).2 = trace w ++ t ∧ Forall (λ a, failed_fetch a = false) t)
    ∨ (∃ t campaign_id include_results e,
         trace (p w).2
         = trace w ++ t ++ GetCampaign campaign_id include_results (Raise e) :: abort_tail e
         ∧ Forall (λ a, failed_fetch a = false) t
         ∧ (p w).1 = abort_ctl e).

(** The actions that are not a failed fetch, resp. not the creation of a
    campaign. *)
Abbreviation no_failure := (λ a, failed_fetch a = false).
Abbreviation no_create := (λ a, is_create a = false).

(** *** A sample run

    A server whose campaign 7 is in progress at the first two fetches and
    completed from the third on, a configuration that loads, and the command
    line [--report-only --campaign-id 7 --csv-out out.csv --poll-interval 5]
    with a given [--poll-count]. *)

Definition sample_payload (status : string) : Campaign :=
  mkCampaign (Some "Q3 awareness") (Some status)
    [mkResult (Some "a@x") (Some "Clicked Link")
       [mkEvent (Some "Email Sent") (Some "a@x") (Some "t0");
        mkEvent (Some "Opened Email") (Some "a@x") (Some "t1");
        mkEvent (Some "Clicked Link") (Some "a@x") (Some "t2")]].

Definition sample_config : AppConfig :=
  mkAppConfig false true "https://gophish.example" "key" true
    (mkCampaignConfig "Q3 awareness" "staff" "invoice" "login" "smtp"
                      "https://landing.example" None)
    (mkReportingConfig true true).

Definition sample_env : Environment :=
  {| load_config := λ _, Ok sample_config;
     groups_reply := Ok [mkResource 1 "staff"];
     templates_reply := Ok [mkResource 2 "invoice"];
     pages_reply := Ok [mkResource 3 "login"];
     sending_profiles_reply := Ok [mkResource 4 "smtp"];
     create_reply := λ _, Ok (Some 7%Z);
     campaign_reply := λ n _,
       Ok (sample_payload (if (n <? 2)%nat then "In progress" else "Completed")) |}.

Definition sample_args (poll_interval poll_count : Z) : Args :=
  mkArgs "config.yaml" false true (Some 7%Z) (Some "out.csv") poll_interval poll_count "".

Definition sample_files : FileSystem := mkFileSystem ∅ (λ _, true).

(** The same server when its second answer is an error. *)
Definition failing_env : Environment :=
  {| load_config := load_config sample_env;
     groups_reply := groups_reply sample_env;
     templates_reply := templates_reply sample_env;
     pages_reply := pages_reply sample_env;
     sending_profiles_reply := sending_profiles_reply sample_env;
     create_reply := create_reply sample_env;
     campaign_reply := λ n campaign_id,
       if (n =? 1)%nat then Raise (GophishError "Gophish API error 500: ")
       else campaign_reply sample_env n campaign_id |}.

(** A configuration that allows sending, with the command line of a
    confirmed live run and of one that lacks the phrase. *)
Definition live_config : AppConfig :=
  mkAppConfig true false (base_url sample_config) (api_key sample_config) true
              (campaign sample_config) (reporting sample_config).

Definition live_env : Environment :=
  {| load_config := λ _, Ok live_config;
     groups_reply := groups_reply sample_env;
     templates_reply := templates_reply sample_env;
     pages_reply := pages_reply sample_env;
     sending_profiles_reply := sending_profiles_reply sample_env;
     create_reply := create_reply sample_env;
     campaign_reply := campaign_reply sample_env |}.

Definition live_args : Args :=
  mkArgs "config.yaml" false false None None 0 1 CONFIRM_PHRASE.

Definition unconfirmed_args : Args :=
  mkArgs "config.yaml" false false None None 0 1 "yes".

(** *** The exported file *)

(** The header of the file. *)
Definition header_line : string :=
  "campaign_name,campaign_status,recipient_email,recipient_status,open_count,click_count,first_open_time,first_click_time,last_event_type,last_event_time".

(** A row whose values hold a delimiter, quotes and line breaks. *)
Definition tricky_row : RecipientRow :=
  {| campaign_name := "Q3, " +:+ String Csv.quotechar ("awareness" +:+ String Csv.quotechar "");
     campaign_status := "In progress";
     recipient_email := "a@x";
     recipient_status := "";
     open_count := 12;
     click_count := 0;
     first_open_time := "line" +:+ String Csv.CR (String Csv.LF "break");
     first_click_time := "";
     last_event_type := String Csv.LF "";
     last_event_time := String Csv.CR "" |}.

(** ** The client's request URL ([gophish_client.py]) *)

(** [s.rstrip("/")]. *)
Fixpoint rstrip_slash (s : string) : string :=
  match s with
  | EmptyString => EmptyString
  | String c rest =>
      match rstrip_slash rest with
      | EmptyString => if Ascii.eqb c "/" then EmptyString else String c EmptyString
      | kept => String c kept
      end
  end.

(** The fields that [GophishClient.__init__] sets. *)
Record GophishClient : Type := mkClient {
  client_base_url : string;
  client_api_key : string;
  client_timeout : Z;
  client_verify_tls : bool;
}.

(** [GophishClient(base_url, api_key, timeout, verify_tls)]. *)
Definition new_client (base_url api_key : string) (timeout : Z) (verify_tls : bool)
    : GophishClient :=
  {| client_base_url := rstrip_slash base_url;
     client_api_key := api_key;
     client_timeout := timeout;
     client_verify_tls := verify_tls |}.

(** The [url] of [_request]. *)
Definition request_url (client : GophishClient) (path : string) : string :=
  client_base_url client +:+ "/api" +:+ path.

(** [s] ends with the character [c]. *)
Fixpoint ends_with (c : ascii) (s : string) : bool :=
  match s with
  | EmptyString => false
  | String c' EmptyString => Ascii.eqb c' c
  | String _ rest => ends_with c rest
  end.

(** [n] slashes. *)
Fixpoint slashes (n : nat) : string :=
  match n with
  | O => EmptyString
  | S n => String "/" (slashes n)
  end.

(** [item] is the first of [resources] that is called [name]. *)
Definition first_named (resources : list GophishResource) (name : string)
    (item : GophishResource) : Prop :=
  ∃ before after,
    resources = before ++ item :: after ∧ gr_name item = name
    ∧ Forall (λ resource, gr_name resource ≠ name) before.

(** ** The configuration loader ([config.py])

    The parsed YAML document is a record of optional entries, like the
    payloads: an absent key is [None].  A setting is a scalar; the two
    sections are mappings of scalars, or a scalar where the file has one in
    their place.  [launch_date], which the loader hands on as it is, is a
    string or absent. *)

Module Config.

Inductive Scalar : Type :=
  | SNone
  | SBool (b : bool)
  | SInt (z : Z)
  | SStr (s : string).

(** The value of a key that should hold a mapping. *)
Inductive Node (A : Type) : Type :=
  | Leaf (v : Scalar)
  | Mapping (d : A).
Arguments Leaf {A} v.
Arguments Mapping {A} d.

Record RawCampaign : Type := mkRawCampaign {
  rc_name : option Scalar;
  rc_group_name : option Scalar;
  rc_template_name : option Scalar;
  rc_page_name : option Scalar;
  rc_sending_profile_name : option Scalar;
  rc_url : option Scalar;
  rc_launch_date : option string;
}.

Record RawReporting : Type := mkRawReporting {
  rr_unique_clicks_only : option Scalar;
  rr_unique_opens_only : option Scalar;
}.

Record RawConfig : Type := mkRawConfig {
  raw_allow_live_send : option Scalar;
  raw_dry_run : option Scalar;
  raw_base_url : option Scalar;
  raw_api_key : option Scalar;
  raw_verify_tls : option Scalar;
  raw_campaign : option (Node RawCampaign);
  raw_reporting : option (Node RawReporting);
}.

(** The exceptions of the loader: those of [exn], and the ones that Python
    raises on a missing key or on a value that is no mapping. *)
Inductive load_exn : Type :=
  | LoadExn (e : exn)
  | KeyError (key : string)
  | TypeError
  | AttributeError.

Inductive Loading (A : Type) : Type :=
  | Loaded (a : A)
  | Fails (e : load_exn).
Arguments Loaded {A} a.
Arguments Fails {A} e.

#[global] Instance Loading_ret : MRet Loading := λ A a, Loaded a.
#[global] Instance Loading_bind : MBind Loading := λ A B f r,
  match r with
  | Loaded a => f a
  | Fails e => Fails e
  end.

Definition of_result {A} (r : Result A) : Loading A :=
  match r with
  | Ok a => Loaded a
  | Raise e => Fails (LoadExn e)
  end.

(** What [load_config] is for [run], which knows the exceptions of [exn]. *)
Definition as_result {A} (l : Loading A) : option (Result A) :=
  match l with
  | Loaded a => Some (Ok a)
  | Fails (LoadExn e) => Some (Raise e)
  | Fails _ => None
  end.

(** [str(v)]. *)
Definition str_scalar (v : Scalar) : string :=
  match v with
  | SNone => "None"
  | SBool true => "True"
  | SBool false => "False"
  | SInt z => NilZero.string_of_int (Z.to_int z)
  | SStr s => s
  end.

(** [bool(v)]. *)
Definition bool_scalar (v : Scalar) : bool :=
  match v with
  | SNone => false
  | SBool b => b
  | SInt z => negb (z =? 0)%Z
  | SStr s => negb (String.eqb s "")
  end.

(** [s.startswith(prefix)] and [s.endswith(suffix)]. *)
Definition startswith (prefix s : string) : bool := String.prefix prefix s.

Definition endswith (suffix s : string) : bool :=
  (String.length suffix <=? String.length s)%nat
  && String.eqb (String.substring (String.length s - String.length suffix)
                                  (String.length suffix) s)
                suffix.

(** [value[2:-1]]. *)
Definition slice_2_minus_1 (value : string) : string :=
  String.substring 2 (String.length value - 3) value.

Definition _resolve_env (environ : gmap string string) (value : Scalar) : Scalar :=
  match value with
  | SStr s =>
      if startswith "${" s && endswith "}" s
      then let env_key := slice_2_minus_1 s in
           SStr (default s (environ !! env_key))
      else value
  | _ => value
  end.

(** [_resolve_env] on the value of a section: a mapping is no string. *)
Definition _resolve_env_node {A} (environ : gmap string string) (value : Node A) : Node A :=
  match value with
  | Leaf v => Leaf (_resolve_env environ v)
  | Mapping _ => value
  end.

(** [_load_yaml], from the parsed document on: the placeholders of the
    top-level values are resolved, those inside the sections are not. *)
Definition _load_yaml (environ : gmap string string) (raw : RawConfig) : RawConfig :=
  {| raw_allow_live_send := _resolve_env environ <$> raw_allow_live_send raw;
     raw_dry_run := _resolve_env environ <$> raw_dry_run raw;
     raw_base_url := _resolve_env environ <$> raw_base_url raw;
     raw_api_key := _resolve_env environ <$> raw_api_key raw;
     raw_verify_tls := _resolve_env environ <$> raw_verify_tls raw;
     raw_campaign := _resolve_env_node environ <$> raw_campaign raw;
     raw_reporting := _resolve_env_node environ <$> raw_reporting raw |}.

(** [node[key]]. *)
Definition subscript {A} (node : Node A) (field : A → option Scalar) (key : string)
    : Loading Scalar :=
  match node with
  | Mapping d =>
      match field d with
      | Some v => Loaded v
      | None => Fails (KeyError key)
      end
  | Leaf _ => Fails TypeError
  end.

(** [node.get(key, default)]. *)
Definition get {A} (node : Node A) (field : A → option Scalar) (default : Scalar)
    : Loading Scalar :=
  match node with
  | Mapping d =>
      match field d with
      | Some v => Loaded v
      | None => Loaded default
      end
  | Leaf _ => Fails AttributeError
  end.

(** [campaign_raw.get("launch_date")]. *)
Definition get_launch_date (node : Node RawCampaign) : Loading (option string) :=
  match node with
  | Mapping d => Loaded (rc_launch_date d)
  | Leaf _ => Fails AttributeError
  end.

Definition _validate_config (config : AppConfig) : Result unit :=
  if String.eqb (base_url config) "" then Raise (ConfigError "base_url is required")
  else if String.eqb (api_key config) "" then Raise (ConfigError "api_key is required")
  else if String.eqb (name (campaign config)) "" then
    Raise (ConfigError "campaign.name is required")
  else if String.eqb (group_name (campaign config)) "" then
    Raise (ConfigError "campaign.group_name is required")
  else if String.eqb (template_name (campaign config)) "" then
    Raise (ConfigError "campaign.template_name is required")
  else if String.eqb (page_name (campaign config)) "" then
    Raise (ConfigError "campaign.page_name is required")
  else if String.eqb (sending_profile_name (campaign config)) "" then
    Raise (ConfigError "campaign.sending_profile_name is required")
  else if String.eqb (url (campaign config)) "" then
    Raise (ConfigError "campaign.url is required")
  else Ok ().

(** [load_config], from the parsed document and the environment on. *)
Definition load_config (environ : gmap string string) (document : RawConfig)
    : Loading AppConfig :=
  let raw := _load_yaml environ document in
  campaign_raw ←
    match raw_campaign raw with
    | Some v => Loaded v
    | None => Fails (LoadExn (ConfigError "Missing required config sections"))
    end;
  let reporting_raw :=
    default (Mapping (mkRawReporting None None)) (raw_reporting raw) in
  name ← subscript campaign_raw rc_name "name";
  group_name ← subscript campaign_raw rc_group_name "group_name";
  template_name ← subscript campaign_raw rc_template_name "template_name";
  page_name ← subscript campaign_raw rc_page_name "page_name";
  sending_profile_name ←
    subscript campaign_raw rc_sending_profile_name "sending_profile_name";
  url ← subscript campaign_raw rc_url "url";
  launch_date ← get_launch_date campaign_raw;
  let campaign :=
    mkCampaignConfig (str_scalar name) (str_scalar group_name) (str_scalar template_name)
                     (str_scalar page_name) (str_scalar sending_profile_name)
                     (str_scalar url) launch_date in
  unique_clicks_only ← get reporting_raw rr_unique_clicks_only (SBool true);
  unique_opens_only ← get reporting_raw rr_unique_opens_only (SBool true);
  let reporting :=
    mkReportingConfig (bool_scalar unique_clicks_only) (bool_scalar unique_opens_only) in
  let config :=
    mkAppConfig
      (bool_scalar (default (SBool false) (raw_allow_live_send raw)))
      (bool_scalar (default (SBool true) (raw_dry_run raw)))
      (str_scalar (default (SStr "") (raw_base_url raw)))
      (str_scalar (default (SStr "") (raw_api_key raw)))
      (bool_scalar (default (SBool true) (raw_verify_tls raw)))
      campaign reporting in
  _ ← of_result (_validate_config config);
  Loaded config.

(** The text of a placeholder for the variable [key]. *)
Definition placeholder (key : string) : string := "${" +:+ key +:+ "}".

(** The eight settings that [_validate_config] wants filled. *)
Definition required (config : AppConfig) : list string :=
  [ base_url config; api_key config; name (campaign config);
    group_name (campaign config); template_name (campaign config);
    page_name (campaign config); sending_profile_name (campaign config);
    url (campaign config) ].

(** The keys that [load_config] reads from the campaign section, in the
    order in which it reads them. *)
Definition campaign_keys : list ((RawCampaign → option Scalar) * string) :=
  [ (rc_name, "name"); (rc_group_name, "group_name");
    (rc_template_name, "template_name"); (rc_page_name, "page_name");
    (rc_sending_profile_name, "sending_profile_name"); (rc_url, "url") ].

(** A complete document, with an API key taken from the environment. *)
Definition sample_document : RawConfig :=
  {| raw_allow_live_send := None;
     raw_dry_run := None;
     raw_base_url := Some (SStr "https://gophish.example/");
     raw_api_key := Some (SStr (placeholder "GOPHISH_API_KEY"));
     raw_verify_tls := None;
     raw_campaign :=
       Some (Mapping (mkRawCampaign (Some (SStr "Q3 awareness")) (Some (SStr "staff"))
                        (Some (SStr "invoice")) (Some (SStr "login"))
                        (Some (SStr "${SMTP}")) (Some (SStr "https://landing.example"))
                        None));
     raw_reporting := None |}.

(** The same document with the switch [allow_live_send] written as the
    text false, resp. with a [reporting] key that holds nothing. *)
Definition text_switch_document : RawConfig :=
  {| raw_allow_live_send := Some (SStr "false");
     raw_dry_run := raw_dry_run sample_document;
     raw_base_url := raw_base_url sample_document;
     raw_api_key := raw_api_key sample_document;
     raw_verify_tls := raw_verify_tls sample_document;
     raw_campaign := raw_campaign sample_document;
     raw_reporting := raw_reporting sample_document |}.

Definition empty_reporting_document : RawConfig :=
  {| raw_allow_live_send := raw_allow_live_send sample_document;
     raw_dry_run := raw_dry_run sample_document;
     raw_base_url := raw_base_url sample_document;
     raw_api_key := raw_api_key sample_document;
     raw_verify_tls := raw_verify_tls sample_document;
     raw_campaign := raw_campaign sample_document;
     raw_reporting := Some (Leaf SNone) |}.

(** A document whose campaign section lacks the key [page_name], and one
    without campaign section. *)
Definition incomplete_document : RawConfig :=
  {| raw_allow_live_send := None;
     raw_dry_run := None;
     raw_base_url := raw_base_url sample_document;
     raw_api_key := raw_api_key sample_document;
     raw_verify_tls := None;
     raw_campaign :=
       Some (Mapping (mkRawCampaign (Some (SStr "Q3 awareness")) (Some (SStr "staff"))
                        (Some (SStr "invoice")) None None None None));
     raw_reporting := None |}.

Definition sectionless_document : RawConfig :=
  {| raw_allow_live_send := None;
     raw_dry_run := None;
     raw_base_url := raw_base_url sample_document;
     raw_api_key := raw_api_key sample_document;
     raw_verify_tls := None;
     raw_campaign := None;
     raw_reporting := None |}.

End Config.

(** *** Recipients and exports *)

(** Every event that carries an address carries the address of the result
    it is listed under. *)
Definition own_email (c : Campaign) : Prop :=
  ∀ result event,
    result ∈ c_results c → event ∈ res_events result →
    truthy (ev_email event) = true → ev_email event = res_email result.

(** The events of type [event_type] of the payload all have a time value. *)
Definition all_timed (c : Campaign) (event_type : string) : Prop :=
  ∀ event, event_of c event → ev_type event = Some event_type →
           truthy (ev_time event) = true.

(** The content of an exported file: the header line, then one line per
    row. *)
Definition csv_text (rows : list RecipientRow) : Csv.text :=
  Csv.writerow fieldnames
  ++ mjoin ((λ row, Csv.writerow (_dict_to_list row)) <$> rows).

(** A payload whose recipient opened twice and clicked once, every event
    under the recipient's own address. *)
Definition repeated_opening : Campaign :=
  mkCampaign (Some "Q3") (Some "In progress")
    [mkResult (Some "a@x") (Some "Clicked Link")
       [mkEvent (Some "Opened Email") (Some "a@x") (Some "t1");
        mkEvent (Some "Opened Email") (Some "a@x") (Some "t2");
        mkEvent (Some "Clicked Link") (Some "a@x") (Some "t3")];
     mkResult (Some "b@x") (Some "Email Sent") []].

(** *** Traces of a run *)

Definition is_listing (a : Action) : bool :=
  match a with
  | ListGroups | ListTemplates | ListPages | ListSendingProfiles => true
  | _ => false
  end.

Definition is_export (a : Action) : bool :=
  match a with ExportCsv _ _ => true | _ => false end.

Definition is_print_err (a : Action) : bool :=
  match a with PrintErr _ => true | _ => false end.

(** The rows of the last export to [path] in a trace. *)
Fixpoint last_export (path : string) (t : list Action) : option (list RecipientRow) :=
  match t with
  | [] => None
  | a :: t =>
      match last_export path t with
      | Some rows => Some rows
      | None =>
          match a with
          | ExportCsv p rows => if String.eqb p path then Some rows else None
          | _ => None
          end
      end
  end.

(** The four listing requests of a launch, in the order of
    [_build_campaign_payload]. *)
Definition listings : list Action :=
  [ListGroups; ListTemplates; ListPages; ListSendingProfiles].

(** The creation request for the resources found. *)
Definition launch_payload (config : AppConfig)
    (group template page sending_profile : GophishResource) : Payload :=
  {| p_name := name (campaign config);
     p_template := template;
     p_page := page;
     p_url := url (campaign config);
     p_smtp := sending_profile;
     p_groups := [group];
     p_template_id := gr_id template;
     p_page_id := gr_id page;
     p_smtp_id := gr_id sending_profile;
     p_group_ids := [gr_id group];
     p_launch_date :=
       match launch_date (campaign config) with
       | Some "" | None => None
       | Some date => Some date
       end |}.

(** The server lists resources among which the four configured names are
    found: [group], [template], [page] and [sending_profile] are the first
    of that name in their listing. *)
Definition resolved (env : Environment) (config : AppConfig)
    (group template page sending_profile : GophishResource) : Prop :=
  ∃ groups templates pages sending_profiles,
    groups_reply env = Ok groups
    ∧ templates_reply env = Ok templates
    ∧ pages_reply env = Ok pages
    ∧ sending_profiles_reply env = Ok sending_profiles
    ∧ first_named groups (group_name (campaign config)) group
    ∧ first_named templates (template_name (campaign config)) template
    ∧ first_named pages (page_name (campaign config)) page
    ∧ first_named sending_profiles (sending_profile_name (campaign config))
                  sending_profile.

(** What goes wrong, if anything, when [name] is looked up in the listing
    that the server answered with [reply]. *)
Definition lookup_error (reply : Result (list GophishResource)) (name : string)
    : option exn :=
  match reply with
  | Raise e => Some e
  | Ok resources =>
      if existsb (λ resource, String.eqb (gr_name resource) name) resources
      then None
      else Some (GophishError ("Resource '" +:+ name +:+ "' not found. Available: "
                               +:+ available_names resources))
  end.

(** The four lookups of a launch, each with its listing request. *)
Definition lookups (env : Environment) (config : AppConfig)
    : list (Action * option exn) :=
  [ (ListGroups, lookup_error (groups_reply env) (group_name (campaign config)));
    (ListTemplates, lookup_error (templates_reply env) (template_name (campaign config)));
    (ListPages, lookup_error (pages_reply env) (page_name (campaign config)));
    (ListSendingProfiles,
     lookup_error (sending_profiles_reply env) (sending_profile_name (campaign config))) ].

(** A server that has no landing page of the configured name. *)
Definition pageless_env : Environment :=
  {| load_config := load_config sample_env;
     groups_reply := groups_reply sample_env;
     templates_reply := templates_reply sample_env;
     pages_reply := Ok [mkResource 3 "other"];
     sending_profiles_reply := sending_profiles_reply sample_env;
     create_reply := create_reply sample_env;
     campaign_reply := campaign_reply sample_env |}.

(** The command line of a launch, which the sample configuration turns into
    a dry run. *)
Definition launch_args : Args :=
  mkArgs "config.yaml" false false None None 0 1 "".

(** Files none of which can be written. *)
Definition read_only_files : FileSystem := mkFileSystem ∅ (λ _, false).

(** The files after the exports of a trace, made in order on [fs]; an export
    that raises leaves the files as they are. *)
Definition replay (t : list Action) (fs : FileSystem) : FileSystem :=
  foldl (λ fs a,
           match a with
           | ExportCsv path rows =>
               match export_csv rows path fs with
               | Ok fs' => fs'
               | Raise _ => fs
               end
           | _ => fs
           end) fs t.

(** [p] only adds to the trace, and changes the files by the exports of
    its trace and in no other way. *)
Definition files_follow {A} (p : Proc A) : Prop :=
  ∀ w, ∃ t, trace (p w).2 = trace w ++ t ∧ fs (p w).2 = replay t (fs w).

(** The actions that are no line on the standard error. *)
Abbreviation no_print_err := (λ a, is_print_err a = false).

(** [p] only adds to the trace; it writes at most one line to the standard
    error, as the last thing it does, and it returns 1 exactly then; the
    only other exit code is 0. *)
Definition stderr_last {A} (p : Proc A) : Prop :=
  ∀ w,
    (∃ t, trace (p w).2 = trace w ++ t ∧ Forall no_print_err t
          ∧ ∀ code, (p w).1 = Return code → code = 0%Z)
    ∨ (∃ t msg, trace (p w).2 = trace w ++ t ++ [PrintErr msg]
                ∧ Forall no_print_err t ∧ (p w).1 = Return 1%Z).

(** [p] never ends by going on to what follows it: it returns, raises or is
    still running. *)
Definition leaves {A} (p : Proc A) : Prop := ∀ w a, (p w).1 ≠ Next a.

(** What a run may do in report-only mode, and what otherwise. *)
Definition report_action (args : Args) (a : Action) : Prop :=
  match a with
  | GetCampaign campaign_id include_results _ =>
      args_campaign_id args = Some campaign_id ∧ campaign_id ≠ 0%Z
      ∧ include_results = true
  | ExportCsv path _ => args_csv_out args = Some path ∧ path ≠ ""
  | Sleep seconds => seconds = args_poll_interval args ∧ (0 < seconds)%Z
  | Print (Report _ _) | PrintErr _ => True
  | Print (CsvExportUpdated path) => args_csv_out args = Some path
  | _ => False
  end.

Definition launch_action (a : Action) : Prop :=
  match a with
  | ListGroups | ListTemplates | ListPages | ListSendingProfiles
  | CreateCampaign _ | PrintErr _
  | Print (DryRunPlan _) | Print (CampaignCreated _) | Print UseReportOnly => True
  | _ => False
  end.

Definition run_action (args : Args) (a : Action) : Prop :=
  if args_report_only args then report_action args a else launch_action a.

(** *** How the poller ends

    The poller is still polling when the observation stops, or it ends
    after a last complete cycle, on a fetch that failed, on an export that
    could not write its file, or on a sleep that is too long for
    [time.sleep]. *)
Inductive PollerEnd : Type :=
  | StillPolling
  | Finished (c : Campaign)
  | FetchFailed (e : exn)
  | ExportFailed (c : Campaign) (path : string)
  | SleepFailed (c : Campaign).

Definition end_control (ending : PollerEnd) : Control unit :=
  match ending with
  | StillPolling => Running
  | Finished _ => Return 0%Z
  | FetchFailed e => abort_ctl e
  | ExportFailed _ path => Raised (OSError path)
  | SleepFailed _ => Raised OverflowError
  end.

(** The actions of the last, possibly cut, cycle: an export that fails cuts
    the cycle after the export, before its notice; a sleep that fails comes
    after a complete cycle. *)
Definition end_trace (config : AppConfig) (args : Args) (campaign_id : Z)
    (ending : PollerEnd) : list Action :=
  match ending with
  | StillPolling => []
  | Finished c => cycle config args campaign_id c
  | FetchFailed e => GetCampaign campaign_id true (Raise e) :: abort_tail e
  | ExportFailed c _ => take 3 (cycle config args campaign_id c)
  | SleepFailed c => cycle config args campaign_id c
  end.

(** The number of fetches of the last cycle. *)
Definition end_fetches (ending : PollerEnd) : nat :=
  match ending with
  | StillPolling => 0
  | _ => 1
  end.

(** What the server answered to the fetch of the last cycle, and why the
    cycle was the last. *)
Definition end_reason (env : Environment) (args : Args) (disk : FileSystem)
    (campaign_id : Z) (fuel n : nat) (ending : PollerEnd) : Prop :=
  match ending with
  | StillPolling => n = fuel
  | Finished c => campaign_reply env n campaign_id = Ok c
  | FetchFailed e => campaign_reply env n campaign_id = Raise e
  | ExportFailed c path =>
      campaign_reply env n campaign_id = Ok c
      ∧ args_csv_out args = Some path ∧ path ≠ ""
      ∧ writable disk path = false
  | SleepFailed c =>
      campaign_reply env n campaign_id = Ok c
      ∧ (max_sleep < args_poll_interval args)%Z
  end.

(** The payloads that the server answered to the fetches of a trace, in
    order. *)
Definition fetched (t : list Action) : list Campaign :=
  omap (λ a, match a with
             | GetCampaign _ _ (Ok c) => Some c
             | _ => None
             end) t.

(** *** Rates in binary64 *)

(** A natural number as an exact operand. *)
Definition exact_operand (n : nat) : SpecFloat.spec_float :=
  match n with
  | O => SpecFloat.S754_zero false
  | S _ => SpecFloat.S754_finite false (Pos.of_nat n) 0
  end.

(** The binary64 number [m * 2^e]. *)
Definition binary64 (m : positive) (e : Z) : SpecFloat.spec_float :=
  SpecFloat.S754_finite false m e.

(** [count / total * 100] in binary64 arithmetic: the quotient rounded to
    the nearest float, times the float 100 = 7036874417766400 * 2^-46,
    rounded again. *)
Definition percentage64 (count total : nat) : SpecFloat.spec_float :=
  SpecFloat.SFmul 53 1024
    (SpecFloat.SFdiv 53 1024 (exact_operand count) (exact_operand total))
    (binary64 7036874417766400 (-46)).

(** *** A recipient with events of every kind *)

(** A result with six events: a sending, an opening without time, two
    openings and a click with their times, and a last event that has a type
    and no time; and the payload whose only result it is. *)
Definition busy_result : CampaignResult :=
  mkResult (Some "a@x") (Some "Submitted Data")
    [mkEvent (Some "Email Sent") (Some "a@x") (Some "t0");
     mkEvent (Some "Opened Email") (Some "a@x") None;
     mkEvent (Some "Opened Email") (Some "a@x") (Some "t1");
     mkEvent (Some "Opened Email") (Some "a@x") (Some "t2");
     mkEvent (Some "Clicked Link") (Some "a@x") (Some "t3");
     mkEvent (Some "Submitted Data") (Some "a@x") None].

Definition busy_recipient : Campaign :=
  mkCampaign (Some "Q3") (Some "In progress") [busy_result].

(** *** The cells of the exported file *)

(** The ten columns, in their order. *)
Definition columns : list string :=
  [ "campaign_name"; "campaign_status"; "recipient_email"; "recipient_status";
    "open_count"; "click_count"; "first_open_time"; "first_click_time";
    "last_event_type"; "last_event_time" ].

(** The value of a decimal digit. *)
Definition digit_value (c : ascii) : option nat :=
  let n := nat_of_ascii c in
  if (48 <=? n)%nat && (n <=? 57)%nat then Some (n - 48)%nat else None.

(** The number that a string of decimal digits denotes after the digits
    that gave [acc]. *)
Fixpoint digits_value (acc : nat) (s : string) : option nat :=
  match s with
  | EmptyString => Some acc
  | String c rest =>
      match digit_value c with
      | Some d => digits_value (10 * acc + d) rest
      | None => None
      end
  end.

(** [s] is the decimal numeral of [n]: digits only, at least one, and no
    leading zero but for the numeral of 0. *)
Definition decimal (n : nat) (s : string) : Prop :=
  s ≠ "" ∧ digits_value 0 s = Some n ∧ ∀ rest, s = String "0" rest → rest = "".

(** [cells] are the ten values of [row] in the order of the columns, the two
    counters as decimal numerals. *)
Definition cells_of (row : RecipientRow) (cells : list string) : Prop :=
  ∃ opens clicks,
    decimal (open_count row) opens ∧ decimal (click_count row) clicks
    ∧ cells = [ campaign_name row; campaign_status row; recipient_email row;
                recipient_status row; opens; clicks; first_open_time row;
                first_click_time row; last_event_type row; last_event_time row ].

(** Every value of every record has at most [limit] characters. *)
Definition within_limit (limit : N) (records : list (list string)) : Prop :=
  Forall (Forall (λ cell, (N.of_nat (String.length cell) ≤ limit)%N)) records.

#[global] Instance within_limit_dec limit records : Decision (within_limit limit records).
Proof. unfold within_limit. apply _. Defined.

(** *** Events without a time *)

(** [event] is of type [event_type] and has no time value: the key is
    absent or holds the empty string. *)
Definition lacks_time (event_type : string) (event : Event) : bool :=
  bool_decide (ev_type event = Some event_type)
  && bool_decide (ev_time event = None ∨ ev_time event = Some "").

(** The number of events of type [event_type] of the payload that have no
    time value. *)
Definition untimed (c : Campaign) (event_type : string) : nat :=
  sum_list ((λ result,
               length (filter (λ event, lacks_time event_type event = true)
                              (res_events result)))
            <$> c_results c).

(** * Properties *)

(** ** Metrics engine *)

Section Metrics.

Lemma collect_events_from (acc : list Event) (results : list CampaignResult) :
  foldl (λ all_events result, all_events ++ res_events result) acc results
  = acc ++ mjoin (res_events <$> results).
Proof.
  revert acc. induction results as [|r rs IH]; intros acc; simpl.
  - by rewrite app_nil_r.
  - by rewrite IH, app_assoc.
Qed.

Lemma collect_events_join results :
  collect_events results = mjoin (res_events <$> results).
Proof. apply (collect_events_from []). Qed.

Lemma py_sum_from (n : nat) (bs : list bool) :
  foldl (λ acc (b : bool), if b then S acc else acc) n bs
  = (n + length (filter Is_true bs))%nat.
Proof.
  revert n. induction bs as [|b bs IH]; intros n; [simpl; lia|].
  cbn [foldl]. rewrite IH. destruct b.
  - rewrite filter_cons_True by done. simpl. lia.
  - rewrite filter_cons_False by (by intros []). lia.
Qed.

Lemma py_sum_count {A} (f : A → bool) (l : list A) :
  py_sum (f <$> l) = length (filter (λ x, f x) l).
Proof.
  unfold py_sum. rewrite py_sum_from. rewrite Nat.add_0_l.
  induction l as [|x l IH]; [done|]. rewrite fmap_cons.
  destruct (f x) eqn:E.
  - rewrite !filter_cons_True by (by rewrite ?E). simpl. by rewrite IH.
  - rewrite !filter_cons_False by (by rewrite ?E; intros []). done.
Qed.

Lemma rate_ok count total :
  rate count total =
  Ok (if bool_decide (total ≠ 0%nat)
      then (inject_Z (Z.of_nat count) / inject_Z (Z.of_nat total) * 100)%Q else 0%Q).
Proof.
  unfold rate, py_truediv. case_bool_decide as H; [|done].
  destruct (Z.eqb_spec (Z.of_nat total) 0); [lia|]. done.
Qed.

Lemma size_list_to_set_le (l : list string) :
  (size (list_to_set l : gset string) ≤ length l)%nat.
Proof.
  induction l as [|x l IH]; [by rewrite list_to_set_nil, size_empty|].
  rewrite list_to_set_cons, size_union_alt, size_singleton. simpl.
  assert (size (list_to_set l ∖ {[x]} : gset string) ≤ size (list_to_set l : gset string))%nat
    as Hle by (apply subseteq_size, subseteq_difference_l; reflexivity).
  lia.
Qed.

Lemma event_of_join c event :
  event_of c event ↔ event ∈ mjoin (res_events <$> c_results c).
Proof.
  unfold event_of. rewrite list_elem_of_join. split.
  - intros (r & Hr & He). exists (res_events r). split; [done|].
    apply list_elem_of_fmap. eauto.
  - intros (l & He & Hl). apply list_elem_of_fmap in Hl as (r & -> & Hr). eauto.
Qed.

Lemma truthy_spec v : truthy v = true ↔ ∃ s, v = Some s ∧ s ≠ "".
Proof.
  destruct v as [s|]; simpl.
  - rewrite negb_true_iff. split.
    + intros H. exists s. split; [done|]. intros ->. by rewrite String.eqb_refl in H.
    + intros (s' & [= <-] & Hne). by apply String.eqb_neq.
  - split; [done|]. by intros (? & ? & ?).
Qed.

Lemma unique_ids_distinct c event_type :
  distinct_emails c event_type
    (size (_unique_ids (collect_events (c_results c)) event_type)).
Proof.
  exists (elements (_unique_ids (collect_events (c_results c)) event_type)).
  split; [apply NoDup_elements|]. split; [done|].
  intros a. rewrite elem_of_elements. unfold _unique_ids.
  rewrite elem_of_list_to_set, list_elem_of_fmap. setoid_rewrite list_elem_of_filter.
  rewrite collect_events_join. split.
  - intros (e & -> & Hp & He). apply andb_prop_elim in Hp as [Ht Hm].
    apply Is_true_true, truthy_spec in Hm as (s & Hs & Hne).
    unfold type_is in Ht. apply bool_decide_unpack in Ht.
    rewrite Hs. simpl. split; [done|]. exists e. by rewrite event_of_join.
  - intros (Hne & e & He & Ht & Hm). exists e. rewrite Hm. split; [done|]. split.
    + apply andb_prop_intro. split.
      * unfold type_is. by apply bool_decide_pack.
      * apply Is_true_true, truthy_spec. eauto.
    + by apply event_of_join.
Qed.

Lemma filter_join {A} (P : A → Prop) `{∀ x, Decision (P x)} (ls : list (list A)) :
  length (filter P (mjoin ls)) = sum_list ((λ l, length (filter P l)) <$> ls).
Proof.
  induction ls as [|l ls IH]; [done|]. simpl.
  by rewrite list.filter_app, length_app, IH.
Qed.

Lemma type_is_filter event_type (events : list Event) :
  filter (λ event, type_is event_type event) events
  = filter (λ event, ev_type event = Some event_type) events.
Proof.
  apply list_filter_iff. intros e. unfold type_is.
  split; [apply bool_decide_unpack | apply bool_decide_pack].
Qed.

Lemma raw_count_occurrences c event_type :
  py_sum (type_is event_type <$> collect_events (c_results c)) = occurrences c event_type.
Proof.
  rewrite py_sum_count, type_is_filter, collect_events_join, filter_join.
  unfold occurrences. by rewrite <- list_fmap_compose.
Qed.

Lemma unique_le_raw c event_type :
  (size (_unique_ids (collect_events (c_results c)) event_type)
   ≤ occurrences c event_type)%nat.
Proof.
  rewrite <- raw_count_occurrences, py_sum_count. unfold _unique_ids.
  etrans; [apply size_list_to_set_le|]. rewrite length_fmap.
  set (l := collect_events _). clear. induction l as [|e l IH]; [done|].
  destruct (type_is event_type e) eqn:Ht.
  - rewrite (filter_cons_True (λ x, type_is event_type x)) by (by rewrite Ht).
    destruct (truthy (ev_email e)) eqn:Hm.
    + rewrite filter_cons_True by (by rewrite Ht, Hm). simpl. lia.
    + rewrite filter_cons_False by (by rewrite Ht, Hm; intros []). simpl. lia.
  - rewrite !filter_cons_False by (by rewrite Ht; intros []). done.
Qed.

Lemma compute_metrics_fields c uo uc :
  ∃ m, compute_metrics c uo uc = Ok m
       ∧ total_recipients m = length (c_results c)
       ∧ opened m = (if uo then size (_unique_ids (collect_events (c_results c)) "Opened Email")
                     else occurrences c "Opened Email")
       ∧ clicked m = (if uc then size (_unique_ids (collect_events (c_results c)) "Clicked Link")
                      else occurrences c "Clicked Link")
       ∧ open_rate m = (if bool_decide (total_recipients m ≠ 0%nat)
                        then percentage (opened m) (total_recipients m) else 0%Q)
       ∧ click_rate m = (if bool_decide (total_recipients m ≠ 0%nat)
                         then percentage (clicked m) (total_recipients m) else 0%Q).
Proof.
  unfold compute_metrics. cbv zeta. rewrite !rate_ok. simpl.
  eexists. split; [reflexivity|]. simpl. rewrite !raw_count_occurrences. done.
Qed.

Lemma percentage_nonneg count total : (0 <= percentage count total)%Q.
Proof.
  unfold percentage. destruct total as [|n].
  - unfold Qle. simpl. lia.
  - unfold Qle, Qdiv, Qmult, Qinv, inject_Z. simpl. lia.
Qed.

Lemma percentage_le_100 count total :
  (0 < total)%nat → (percentage count total <= 100)%Q ↔ (count ≤ total)%nat.
Proof.
  intros Hpos. unfold percentage. destruct total as [|n]; [lia|].
  unfold Qle, Qdiv, Qmult, Qinv, inject_Z. simpl.
  rewrite Pos.mul_1_r. lia.
Qed.


(** C1: [compute_metrics] always returns; in unique mode [opened] is the
    number of distinct non-empty email addresses among the events of type
    "Opened Email" (an event without email, or with an empty one, adds
    nothing), in raw mode it is the number of occurrences of such events,
    duplicates included; [clicked] follows the same rule with "Clicked Link"
    and its own flag.  One result with the same opening twice counts 1 in
    unique mode and 2 in raw mode. *)
Theorem compute_metrics_counts :
  (∀ c uo uc, ∃ m, compute_metrics c uo uc = Ok m
      ∧ (if uo then distinct_emails c "Opened Email" (opened m)
         else opened m = occurrences c "Opened Email")
      ∧ (if uc then distinct_emails c "Clicked Link" (clicked m)
         else clicked m = occurrences c "Clicked Link"))
  ∧ (∀ uc, ∃ unique raw,
        compute_metrics opened_twice true uc = Ok unique ∧ opened unique = 1%nat
        ∧ compute_metrics opened_twice false uc = Ok raw ∧ opened raw = 2%nat).
Proof.
  split.
  - intros c uo uc.
    destruct (compute_metrics_fields c uo uc) as (m & Hm & _ & Ho & Hc & _).
    exists m. split; [done|]. rewrite Ho, Hc. split.
    + destruct uo; [apply unique_ids_distinct | done].
    + destruct uc; [apply unique_ids_distinct | done].
  - intros uc. destruct uc; do 2 eexists; (split; [vm_compute; reflexivity|]);
      (split; [reflexivity|]); (split; [vm_compute; reflexivity|]); reflexivity.
Qed.

Lemma of_int_exact (n : nat) : Binary64.of_int (Z.of_nat n) = exact_operand n.
Proof.
  destruct n as [|n]; [done|].
  change (SpecFloat.S754_finite false (Pos.of_succ_nat n) 0
          = SpecFloat.S754_finite false (Pos.of_nat (S n)) 0).
  by rewrite Pos.of_nat_succ.
Qed.

Lemma rate64_ok count total :
  Binary64.rate count total
  = Ok (if bool_decide (total ≠ 0%nat) then percentage64 count total else SpecFloat.S754_zero false).
Proof.
  unfold Binary64.rate, Binary64.py_truediv. case_bool_decide as H; [|done].
  destruct (Z.eqb_spec (Z.of_nat total) 0); [lia|]. cbn [mbind Result_bind].
  by rewrite !of_int_exact.
Qed.

(** C2: [compute_metrics] always returns, without dividing by zero;
    [total_recipients] is the number of result entries, whatever their
    events are; with at least one result [open_rate] is [opened /
    total_recipients * 100] and [click_rate] is [clicked / total_recipients *
    100] in the binary64 arithmetic of Python, and without results both are
    the float 0.0.  The counts are those of the exact model.  So 7 openings
    for 100 recipients give the float 7881299347898369 * 2^-50, which is
    7.000000000000001, and 1 for 4 gives 25. *)
Theorem compute_metrics_total_and_rates (c : Campaign) (uo uc : bool) :
  ∃ m exact,
    Binary64.compute_metrics c uo uc = Ok m
    ∧ compute_metrics c uo uc = Ok exact
    ∧ Binary64.total_recipients m = length (c_results c)
    ∧ Binary64.opened m = opened exact
    ∧ Binary64.clicked m = clicked exact
    ∧ (length (c_results c) ≠ 0%nat →
       Binary64.open_rate m = percentage64 (opened exact) (length (c_results c))
       ∧ Binary64.click_rate m = percentage64 (clicked exact) (length (c_results c)))
    ∧ (length (c_results c) = 0%nat →
       Binary64.open_rate m = SpecFloat.S754_zero false
       ∧ Binary64.click_rate m = SpecFloat.S754_zero false)
    ∧ percentage64 7 100 = binary64 7881299347898369 (-50)
    ∧ percentage64 1 4 = binary64 7036874417766400 (-48)
    ∧ percentage64 0 5 = SpecFloat.S754_zero false.
Proof.
  unfold Binary64.compute_metrics, compute_metrics. cbv zeta.
  rewrite !rate64_ok, !rate_ok. cbn [mbind Result_bind].
  eexists _, _. split; [reflexivity|]. split; [reflexivity|].
  cbn [Binary64.total_recipients Binary64.opened Binary64.clicked Binary64.open_rate
       Binary64.click_rate opened clicked].
  split; [done|]. split; [done|]. split; [done|]. split.
  { intros Hne. by rewrite !bool_decide_true. }
  split.
  { intros Hz. rewrite !bool_decide_false by (by rewrite Hz; intros []). done. }
  split; [by vm_compute|]. split; by vm_compute.
Qed.

(** C3, as the code has it: with at least one recipient both rates are
    non-negative, and a rate is at most 100 exactly when its count does not
    exceed [total_recipients]. *)
Theorem rates_bounded_iff_count_le_total (c : Campaign) (uo uc : bool) (m : CampaignMetrics) :
  compute_metrics c uo uc = Ok m →
  (0 < total_recipients m)%nat →
  (0 <= open_rate m)%Q ∧ (0 <= click_rate m)%Q
  ∧ ((open_rate m <= 100)%Q ↔ (opened m ≤ total_recipients m)%nat)
  ∧ ((click_rate m <= 100)%Q ↔ (clicked m ≤ total_recipients m)%nat).
Proof.
  intros Hm Hpos.
  destruct (compute_metrics_fields c uo uc) as (m' & Hm' & _ & _ & _ & Hor & Hcr).
  assert (m' = m) as -> by congruence.
  rewrite Hor, Hcr. rewrite bool_decide_true by lia.
  auto using percentage_nonneg, percentage_le_100.
Qed.

Lemma rates_bounded_iff_count_le_total_witness :
  ∃ m, compute_metrics opened_twice true true = Ok m
       ∧ (0 <= open_rate m)%Q ∧ (0 <= click_rate m)%Q
       ∧ ((open_rate m <= 100)%Q ↔ (opened m ≤ total_recipients m)%nat)
       ∧ ((click_rate m <= 100)%Q ↔ (clicked m ≤ total_recipients m)%nat).
Proof.
  eexists. split; [vm_compute; reflexivity|].
  apply (rates_bounded_iff_count_le_total opened_twice true true);
    [vm_compute; reflexivity | simpl; lia].
Defined.

(** C3 as stated fails: in raw mode one recipient who opened twice has an
    open rate of 200. *)
Lemma rates_exceed_100 :
  ∃ m, compute_metrics opened_twice false false = Ok m
       ∧ (0 < total_recipients m)%nat
       ∧ ¬ ((0 <= open_rate m)%Q ∧ (open_rate m <= 100)%Q).
Proof.
  eexists. split; [vm_compute; reflexivity|]. split; [simpl; lia|].
  intros [_ H]. vm_compute in H. by apply H.
Qed.

(** C4: for one payload the count of unique mode is at most the count of raw
    mode, for openings and for clicks, whatever the other flag; and in either
    mode a count is at most the number of events of its type. *)
Theorem unique_counts_le_raw_counts (c : Campaign) :
  (∀ uc uc', ∃ unique raw,
      compute_metrics c true uc = Ok unique ∧ compute_metrics c false uc' = Ok raw
      ∧ (opened unique ≤ opened raw)%nat)
  ∧ (∀ uo uo', ∃ unique raw,
      compute_metrics c uo true = Ok unique ∧ compute_metrics c uo' false = Ok raw
      ∧ (clicked unique ≤ clicked raw)%nat)
  ∧ (∀ uo uc, ∃ m,
      compute_metrics c uo uc = Ok m
      ∧ (opened m ≤ occurrences c "Opened Email")%nat
      ∧ (clicked m ≤ occurrences c "Clicked Link")%nat).
Proof.
  split; [|split].
  - intros uc uc'.
    destruct (compute_metrics_fields c true uc) as (mu & Hu & _ & Hou & _).
    destruct (compute_metrics_fields c false uc') as (mr & Hr & _ & Hor & _).
    exists mu, mr. rewrite Hou, Hor. auto using unique_le_raw.
  - intros uo uo'.
    destruct (compute_metrics_fields c uo true) as (mu & Hu & _ & _ & Hcu & _).
    destruct (compute_metrics_fields c uo' false) as (mr & Hr & _ & _ & Hcr & _).
    exists mu, mr. rewrite Hcu, Hcr. auto using unique_le_raw.
  - intros uo uc.
    destruct (compute_metrics_fields c uo uc) as (m & Hm & _ & Ho & Hc & _).
    exists m. rewrite Ho, Hc. split; [done|].
    destruct uo, uc; auto using unique_le_raw.
Qed.

End Metrics.

(** ** Per-recipient rows *)

Section Rows.

Lemma build_rows_from (cn cs : string) (acc : list RecipientRow) (results : list CampaignResult) :
  foldl (λ rows result, rows ++ [build_row cn cs result]) acc results
  = acc ++ (build_row cn cs <$> results).
Proof.
  revert acc. induction results as [|r rs IH]; intros acc; simpl.
  - by rewrite app_nil_r.
  - by rewrite IH, <- app_assoc.
Qed.

Lemma build_recipient_rows_fmap c :
  build_recipient_rows c
  = build_row (default_get "<unknown>" (c_name c)) (default_get "<unknown>" (c_status c))
    <$> c_results c.
Proof. unfold build_recipient_rows. cbv zeta. by rewrite build_rows_from. Qed.

Lemma timed_filter event_type event :
  type_is event_type event && truthy (ev_time event) = true
  ↔ ∃ t, timed event_type event t.
Proof.
  unfold timed, type_is. rewrite andb_true_iff, bool_decide_eq_true, truthy_spec.
  split.
  - intros (Hty & t & Htm & Hne). by exists t.
  - intros (t & Hty & Htm & Hne). split; [done|]. by exists t.
Qed.

Lemma extract_first_time events event_type :
  first_time events event_type (first_or_empty (_extract_event_times events event_type)).
Proof.
  unfold _extract_event_times. induction events as [|e events IH].
  - right. split; [done|]. intros e t' He. by apply elem_of_nil in He.
  - destruct (type_is event_type e && truthy (ev_time e)) eqn:E.
    + rewrite filter_cons_True by (by rewrite E). simpl.
      apply timed_filter in E as [t Ht]. left. exists [], e, events.
      destruct Ht as (Hty & Htm & Hne). rewrite Htm. simpl.
      split; [done|]. split; [done|]. intros e' t' He'. by apply elem_of_nil in He'.
    + rewrite filter_cons_False by (by rewrite E; intros []).
      assert (∀ t', ¬ timed event_type e t') as Hno.
      { intros t' Ht. assert (type_is event_type e && truthy (ev_time e) = true) as E'
          by (apply timed_filter; eauto). congruence. }
      destruct IH as [(before & ev & after & -> & Ht & Hb) | [Hempty Hnone]].
      * left. exists (e :: before), ev, after. split; [done|]. split; [done|].
        intros e' t' [->|He']%elem_of_cons; [apply Hno | by apply Hb].
      * right. split; [done|].
        intros e' t' [->|He']%elem_of_cons; [apply Hno | by apply Hnone].
Qed.

Lemma extract_length events event_type :
  length (_extract_event_times events event_type) = timed_count events event_type.
Proof.
  unfold _extract_event_times, timed_count. rewrite length_fmap. f_equal.
  apply list_filter_iff. intros e. rewrite !Is_true_true, timed_filter.
  unfold has_time, timed. destruct (ev_type e) as [ty|], (ev_time e) as [t|]; simpl.
  - rewrite bool_decide_eq_true. split.
    + intros (t' & [= ->] & [= <-] & Hne). done.
    + intros [-> Hne]. by exists t.
  - split; [|done]. by intros (t' & _ & [=] & _).
  - split; [|done]. by intros (t' & [=] & _).
  - split; [|done]. by intros (t' & [=] & _).
Qed.

(** C5: the rows follow the results one for one, and for every result entry
    [first_open_time] (resp. [first_click_time]) is the time of the first
    "Opened Email" (resp. "Clicked Link") event of that result that has a time
    value, the empty string if there is none; [last_event_type] and
    [last_event_time] are the type and the time of the last of all the events
    of the result, each the empty string if that event lacks it;
    [open_count] and [click_count] are the lengths of the two lists of times,
    that is the numbers of such events with a time value, and no flag enters
    them.  Without events the four strings are empty and the counts are 0. *)
Theorem build_recipient_rows_fields (c : Campaign) (i : nat) (result : CampaignResult) :
  c_results c !! i = Some result →
  length (build_recipient_rows c) = length (c_results c)
  ∧ ∃ row, build_recipient_rows c !! i = Some row
    ∧ first_time (res_events result) "Opened Email" (first_open_time row)
    ∧ first_time (res_events result) "Clicked Link" (first_click_time row)
    ∧ (∀ before event, res_events result = before ++ [event] →
         last_event_type row = match ev_type event with Some ty => ty | None => "" end
         ∧ last_event_time row = match ev_time event with Some t => t | None => "" end)
    ∧ open_count row = length (_extract_event_times (res_events result) "Opened Email")
    ∧ click_count row = length (_extract_event_times (res_events result) "Clicked Link")
    ∧ open_count row = timed_count (res_events result) "Opened Email"
    ∧ click_count row = timed_count (res_events result) "Clicked Link"
    ∧ (res_events result = [] →
         first_open_time row = "" ∧ first_click_time row = ""
         ∧ last_event_type row = "" ∧ last_event_time row = ""
         ∧ open_count row = 0%nat ∧ click_count row = 0%nat).
Proof.
  intros Hi. rewrite build_recipient_rows_fmap. split; [by rewrite length_fmap|].
  eexists. split; [by rewrite list_lookup_fmap, Hi|]. simpl.
  split; [apply extract_first_time|]. split; [apply extract_first_time|].
  split; [intros before event ->; by rewrite last_last|].
  do 2 (split; [done|]). do 2 (split; [apply extract_length|]).
  by intros ->.
Qed.

Lemma first_split {A} (P : A → Prop) (b a b' a' : list A) (e e' : A) :
  b ++ e :: a = b' ++ e' :: a' → P e → P e' →
  (∀ x, x ∈ b → ¬ P x) → (∀ x, x ∈ b' → ¬ P x) → e = e'.
Proof.
  revert b'. induction b as [|x b IH]; intros b' Heq He He' Hb Hb';
    destruct b' as [|x' b']; simplify_eq/=.
  - done.
  - exfalso. eapply Hb'; [apply list_elem_of_here | done].
  - exfalso. eapply Hb; [apply list_elem_of_here | done].
  - apply (IH b'); try done.
    + intros y Hy. apply Hb. by apply list_elem_of_further.
    + intros y Hy. apply Hb'. by apply list_elem_of_further.
Qed.

Lemma first_time_unique events event_type t t' :
  first_time events event_type t → first_time events event_type t' → t = t'.
Proof.
  intros [(b & e & a & Heq & Ht & Hb) | [-> Hnone]]
         [(b' & e' & a' & Heq' & Ht' & Hb') | [-> Hnone']].
  - rewrite Heq in Heq'.
    assert (e = e') as <-.
    { apply (first_split (λ x, ∃ s, timed event_type x s) b a b' a' e e' Heq'); eauto.
      - intros x Hx [s Hs]. by apply (Hb x s).
      - intros x Hx [s Hs]. by apply (Hb' x s). }
    destruct Ht as (_ & Htm & _), Ht' as (_ & Htm' & _). congruence.
  - destruct (Hnone' e t); [|done]. rewrite Heq. apply elem_of_app. right.
    apply list_elem_of_here.
  - destruct (Hnone e' t'); [|done]. rewrite Heq'. apply elem_of_app. right.
    apply list_elem_of_here.
  - done.
Qed.

Lemma build_recipient_rows_fields_witness :
  c_results busy_recipient !! 0%nat = Some busy_result
  ∧ c_results silent_recipient !! 0%nat = Some (mkResult (Some "a@x") (Some "Email Sent") [])
  ∧ (∃ row, build_recipient_rows silent_recipient !! 0%nat = Some row
       ∧ first_open_time row = "" ∧ first_click_time row = ""
       ∧ last_event_type row = "" ∧ last_event_time row = ""
       ∧ open_count row = 0%nat ∧ click_count row = 0%nat)
  ∧ ∃ row, build_recipient_rows busy_recipient !! 0%nat = Some row
    ∧ first_open_time row = "t1" ∧ first_click_time row = "t3"
    ∧ last_event_type row = "Submitted Data" ∧ last_event_time row = ""
    ∧ open_count row = 2%nat ∧ click_count row = 1%nat.
Proof.
  split; [reflexivity|]. split; [reflexivity|]. split.
  { destruct (build_recipient_rows_fields silent_recipient 0
                (mkResult (Some "a@x") (Some "Email Sent") []) eq_refl)
      as (_ & row & Hrow & _ & _ & _ & _ & _ & _ & _ & Hempty).
    exists row. split; [exact Hrow | exact (Hempty eq_refl)]. }
  destruct (build_recipient_rows_fields busy_recipient 0 busy_result eq_refl)
    as (_ & row & Hrow & Hopen & Hclick & Hlast & _ & _ & Hopens & Hclicks & _).
  exists row. split; [exact Hrow|].
  destruct (Hlast [mkEvent (Some "Email Sent") (Some "a@x") (Some "t0");
                   mkEvent (Some "Opened Email") (Some "a@x") None;
                   mkEvent (Some "Opened Email") (Some "a@x") (Some "t1");
                   mkEvent (Some "Opened Email") (Some "a@x") (Some "t2");
                   mkEvent (Some "Clicked Link") (Some "a@x") (Some "t3")]
                  (mkEvent (Some "Submitted Data") (Some "a@x") None) eq_refl)
    as [Hty Htm].
  split.
  { apply (first_time_unique _ _ _ _ Hopen). left.
    exists [mkEvent (Some "Email Sent") (Some "a@x") (Some "t0");
            mkEvent (Some "Opened Email") (Some "a@x") None],
           (mkEvent (Some "Opened Email") (Some "a@x") (Some "t1")),
           [mkEvent (Some "Opened Email") (Some "a@x") (Some "t2");
            mkEvent (Some "Clicked Link") (Some "a@x") (Some "t3");
            mkEvent (Some "Submitted Data") (Some "a@x") None].
    split; [reflexivity|]. split; [by repeat split|].
    intros e t He (Hty' & Htm' & _).
    repeat (apply elem_of_cons in He as [->|He]); simpl in *; try discriminate.
    by apply elem_of_nil in He. }
  split.
  { apply (first_time_unique _ _ _ _ Hclick). left.
    exists [mkEvent (Some "Email Sent") (Some "a@x") (Some "t0");
            mkEvent (Some "Opened Email") (Some "a@x") None;
            mkEvent (Some "Opened Email") (Some "a@x") (Some "t1");
            mkEvent (Some "Opened Email") (Some "a@x") (Some "t2")],
           (mkEvent (Some "Clicked Link") (Some "a@x") (Some "t3")),
           [mkEvent (Some "Submitted Data") (Some "a@x") None].
    split; [reflexivity|]. split; [by repeat split|].
    intros e t He (Hty' & Htm' & _).
    repeat (apply elem_of_cons in He as [->|He]); simpl in *; try discriminate.
    by apply elem_of_nil in He. }
  split; [exact Hty|]. split; [exact Htm|]. split; [exact Hopens | exact Hclicks].
Defined.

End Rows.

(** ** The report poller *)

Section Poller.

#[local] Arguments export_csv : simpl never.
#[local] Arguments compute_metrics : simpl never.
#[local] Arguments build_recipient_rows : simpl never.
#[local] Arguments truthy : simpl never.
#[local] Arguments py_str : simpl never.
#[local] Arguments cycle : simpl never.
#[local] Arguments sleep : simpl never.

Lemma writerows_writable path rows files :
  writable (writerows path rows files) = writable files.
Proof.
  unfold writerows. revert files. induction rows as [|row rows IH]; intros files; [done|].
  simpl. by rewrite IH.
Qed.

Lemma export_csv_writable rows path files :
  writable files path = true →
  ∃ files', export_csv rows path files = Ok files' ∧ writable files' = writable files.
Proof.
  intros Hw. unfold export_csv, open_w. rewrite Hw. simpl.
  eexists. split; [reflexivity|]. by rewrite writerows_writable.
Qed.

Lemma sleep_ok seconds w :
  (0 ≤ seconds ≤ max_sleep)%Z →
  sleep seconds w = (Next (), mkWorld (trace w ++ [Sleep seconds]) (fs w) (fetches w)).
Proof.
  intros [Hlo Hhi]. unfold sleep.
  destruct (Z.leb_spec (Z.abs seconds) max_sleep) as [_|]; [|lia].
  destruct (Z.ltb_spec seconds 0) as [|_]; [lia|]. done.
Qed.

Lemma sleep_overflow seconds w :
  (max_sleep < seconds)%Z → sleep seconds w = (Raised OverflowError, w).
Proof.
  intros Hhi. unfold sleep.
  destruct (Z.leb_spec (Z.abs seconds) max_sleep) as [|_]; [lia|]. done.
Qed.

(** A cycle whose fetch is answered and whose export, if any, can write. *)
Lemma poll_cycle_answered env config args id iv rem w c :
  campaign_reply env (fetches w) id = Ok c →
  (truthy (args_csv_out args) = true → writable (fs w) (py_str (args_csv_out args)) = true) →
  ∃ files',
    writable files' = writable (fs w) ∧
    poll_cycle env config args id iv rem w =
      let w1 := mkWorld (trace w ++ cycle config args id c) files' (S (fetches w)) in
      match next_polls iv rem c with
      | None => (Return 0%Z, w1)
      | Some r => bind (sleep iv) (λ _, pure r) w1
      end.
Proof.
  intros Hreply Hw.
  destruct (compute_metrics_fields c (unique_opens_only (reporting config))
              (unique_clicks_only (reporting config))) as (m & Hm & _).
  unfold poll_cycle, cycle, next_polls, bind, try_except_GophishError, get_campaign.
  rewrite Hreply, Hm. simpl. rewrite Hm. simpl.
  destruct (truthy (args_csv_out args)) eqn:Hcsv.
  - destruct (export_csv_writable (build_recipient_rows c) (py_str (args_csv_out args))
                (fs w) (Hw eq_refl)) as (files' & Hexp & Hwr).
    exists files'. split; [done|].
    unfold export_csv_step, print, log. simpl. rewrite Hexp. simpl.
    destruct (iv =? 0)%Z; simpl; [by rewrite <- !app_assoc|].
    destruct (Z.eqb_spec rem 0) as [->|]; simpl.
    + case_bool_decide; simpl; by rewrite <- !app_assoc.
    + destruct (rem - 1 <=? 0)%Z; simpl; by rewrite <- !app_assoc.
  - exists (fs w). split; [done|]. simpl.
    destruct (iv =? 0)%Z; simpl; [by rewrite <- !app_assoc|].
    destruct (Z.eqb_spec rem 0) as [->|]; simpl.
    + case_bool_decide; simpl; by rewrite <- !app_assoc.
    + destruct (rem - 1 <=? 0)%Z; simpl; by rewrite <- !app_assoc.
Qed.


Lemma run_reporting env args files config id fuel :
  reporting_run env args files config id →
  run env fuel args (start files)
  = poll_loop env fuel config args id (Z.max (args_poll_interval args) 0)
      (if (Z.max (args_poll_interval args) 0 =? 0)%Z then 1%Z else args_poll_count args)
      (start files).
Proof.
  intros (Hload & Hro & Hid & Hnz & _).
  unfold run, bind, try_except_ConfigError, _enforce_safety.
  rewrite Hload, Hro, Hid. simpl. by destruct id.
Qed.









Lemma cycle_counts config args id c :
  fetch_count (cycle config args id c) = 1%nat
  ∧ sleep_count (cycle config args id c) = 0%nat.
Proof.
  unfold cycle.
  destruct (compute_metrics_fields c (unique_opens_only (reporting config))
              (unique_clicks_only (reporting config))) as (m & -> & _).
  by destruct (truthy (args_csv_out args)).
Qed.

Lemma count_app (f : Action → bool) (t1 t2 : list Action) :
  length (filter (λ a, f a) (t1 ++ t2))
  = (length (filter (λ a, f a) t1) + length (filter (λ a, f a) t2))%nat.
Proof. by rewrite list.filter_app, length_app. Qed.

Lemma slept_cycles_counts config args id iv cs :
  fetch_count (slept_cycles config args id iv cs) = length cs
  ∧ sleep_count (slept_cycles config args id iv cs) = length cs.
Proof.
  unfold slept_cycles, fetch_count, sleep_count.
  induction cs as [|c cs [IHf IHs]]; [done|].
  rewrite fmap_cons. simpl. rewrite !count_app, IHf, IHs.
  destruct (cycle_counts config args id c) as [Hf Hs].
  unfold fetch_count, sleep_count in Hf, Hs. rewrite Hf, Hs. done.
Qed.







Lemma sample_reporting_run poll_interval poll_count :
  reporting_run sample_env (sample_args poll_interval poll_count) sample_files
                sample_config 7.
Proof. by repeat split. Defined.






End Poller.

(** ** Traces of a run *)

Section Emits.
Context {P : Action → Prop}.

Lemma emits_pure {A} (a : A) : emits P (pure a).
Proof. intros w. exists []. by rewrite app_nil_r. Qed.

Lemma emits_return {A} code : emits P (@return_ A code).
Proof. intros w. exists []. by rewrite app_nil_r. Qed.

Lemma emits_raise {A} e : emits P (@raise A e).
Proof. intros w. exists []. by rewrite app_nil_r. Qed.

Lemma emits_lift {A} (r : Result A) : emits P (lift r).
Proof. destruct r; [apply emits_pure | apply emits_raise]. Qed.

Lemma emits_log a : P a → emits P (log a).
Proof. intros Ha w. exists [a]. split; [done|]. by constructor. Qed.

Lemma emits_sleep seconds : P (Sleep seconds) → emits P (sleep seconds).
Proof.
  intros Ha. unfold sleep.
  destruct (Z.abs seconds <=? max_sleep)%Z; [|apply emits_raise].
  destruct (seconds <? 0)%Z; [apply emits_raise | by apply emits_log].
Qed.

Lemma emits_bind {A B} (p : Proc A) (k : A → Proc B) :
  emits P p → (∀ a, emits P (k a)) → emits P (bind p k).
Proof.
  intros Hp Hk w. unfold bind. destruct (Hp w) as (t & Ht & HP).
  destruct (p w) as [[a|code|e|] w']; simpl in *; try by exists t.
  destruct (Hk a w') as (t' & Ht' & HP'). exists (t ++ t').
  rewrite Ht', Ht, app_assoc. split; [done|]. by apply Forall_app.
Qed.

Lemma emits_try_ConfigError {A} (body : Proc A) handler :
  emits P body → (∀ exc, emits P (handler exc)) →
  emits P (try_except_ConfigError body handler).
Proof.
  intros Hp Hk w. unfold try_except_ConfigError. destruct (Hp w) as (t & Ht & HP).
  destruct (body w) as [[a|code|e|] w']; simpl in *; try by exists t.
  destruct e; try by exists t.
  destruct (Hk msg w') as (t' & Ht' & HP'). exists (t ++ t').
  rewrite Ht', Ht, app_assoc. split; [done|]. by apply Forall_app.
Qed.

Lemma emits_try_GophishError {A} (body : Proc A) handler :
  emits P body → (∀ exc, emits P (handler exc)) →
  emits P (try_except_GophishError body handler).
Proof.
  intros Hp Hk w. unfold try_except_GophishError. destruct (Hp w) as (t & Ht & HP).
  destruct (body w) as [[a|code|e|] w']; simpl in *; try by exists t.
  destruct e; try by exists t.
  destruct (Hk msg w') as (t' & Ht' & HP'). exists (t ++ t').
  rewrite Ht', Ht, app_assoc. split; [done|]. by apply Forall_app.
Qed.

Lemma emits_find_by_name resources name : emits P (find_by_name resources name).
Proof.
  unfold find_by_name. destruct (find_by_name_loop resources name);
    [apply emits_pure | apply emits_raise].
Qed.

Lemma emits_export rows path : P (ExportCsv path rows) → emits P (export_csv_step rows path).
Proof.
  intros Ha w. exists [ExportCsv path rows]. unfold export_csv_step. simpl.
  split; [by destruct (export_csv rows path (fs w))|]. by constructor.
Qed.

Lemma emits_get_campaign env id incl :
  (∀ n, P (GetCampaign id incl (campaign_reply env n id))) →
  emits P (get_campaign env id incl).
Proof.
  intros Ha w. exists [GetCampaign id incl (campaign_reply env (fetches w) id)].
  unfold get_campaign. split; [by destruct (campaign_reply env (fetches w) id)|].
  by constructor.
Qed.
End Emits.

Ltac emits_step :=
  first
    [ apply emits_pure | apply emits_return | apply emits_raise | apply emits_lift
    | apply emits_find_by_name
    | apply emits_log; done
    | apply emits_sleep; done
    | apply emits_export; done
    | apply emits_bind; [|intros ?]
    | apply emits_try_ConfigError; [|intros ?]
    | apply emits_try_GophishError; [|intros ?] ].

Ltac emits_steps := repeat emits_step.

Lemma emits_build_payload P env config :
  P ListGroups → P ListTemplates → P ListPages → P ListSendingProfiles →
  emits P (_build_campaign_payload env config).
Proof.
  intros. unfold _build_campaign_payload, list_groups, list_templates, list_pages,
    list_sending_profiles. emits_steps.
Qed.

Lemma fetch_safe_of_emits {A} (p : Proc A) : emits no_failure p → fetch_safe p.
Proof. intros Hp w. left. apply Hp. Qed.

Lemma fetch_safe_bind {A B} (p : Proc A) (k : A → Proc B) :
  fetch_safe p → (∀ a, fetch_safe (k a)) → fetch_safe (bind p k).
Proof.
  intros Hp Hk w. unfold bind.
  destruct (Hp w) as [(t & Ht & Hnf) | (t & id & incl & e & Ht & Hnf & Hctl)].
  - destruct (p w) as [[a|code|e|] w']; simpl in *; try (left; by exists t).
    destruct (Hk a w') as [(t' & Ht' & Hnf') | (t' & id & incl & e & Ht' & Hnf' & Hctl)].
    + left. exists (t ++ t'). rewrite Ht', Ht, app_assoc. split; [done|].
      by apply Forall_app.
    + right. exists (t ++ t'), id, incl, e. rewrite Ht', Ht, <- !app_assoc.
      split; [done|]. split; [by apply Forall_app | done].
  - right. exists t, id, incl, e.
    destruct (p w) as [[a|code|e'|] w']; simpl in *; destruct e; simplify_eq/=; done.
Qed.

Lemma fetch_safe_get_campaign {A} env id incl (k : Campaign → Proc A) :
  (∀ c, fetch_safe (k c)) →
  fetch_safe
    (bind (try_except_GophishError (get_campaign env id incl)
             (λ exc, bind (print_err ("Failed to fetch campaign: " +:+ exc))
                          (λ _, return_ 1%Z)))
          k).
Proof.
  intros Hk w.
  destruct (campaign_reply env (fetches w) id) as [c|e] eqn:Hreply.
  - set (w1 := mkWorld (trace w ++ [GetCampaign id incl (Ok c)]) (fs w) (S (fetches w))).
    set (p := bind _ k).
    assert (p w = k c w1) as ->
      by (unfold p, bind, try_except_GophishError, get_campaign; by rewrite Hreply).
    destruct (Hk c w1) as [(t & Ht & Hnf) | (t & id' & incl' & e & Ht & Hnf & Hctl)].
    + left. exists (GetCampaign id incl (Ok c) :: t).
      rewrite Ht. unfold w1. cbn [trace]. rewrite <- app_assoc. split; [done|].
      by constructor.
    + right. exists (GetCampaign id incl (Ok c) :: t), id', incl', e.
      rewrite Ht. unfold w1. cbn [trace]. rewrite <- app_assoc.
      split; [done|]. split; [by constructor | done].
  - right. exists [], id, incl, e.
    unfold bind, try_except_GophishError, get_campaign, print_err, log. rewrite Hreply.
    destruct e; simpl; rewrite <- ?app_assoc; done.
Qed.

Lemma fetch_safe_poll_cycle env config args id iv rem :
  fetch_safe (poll_cycle env config args id iv rem).
Proof.
  unfold poll_cycle. apply fetch_safe_get_campaign. intros c.
  apply fetch_safe_of_emits. unfold print. emits_steps.
  - destruct (truthy (args_csv_out args)); unfold print; emits_steps.
  - destruct (iv =? 0)%Z; emits_steps.
  - destruct (rem =? 0)%Z; [case_bool_decide|destruct (rem - 1 <=? 0)%Z]; emits_steps.
Qed.

Lemma fetch_safe_poll_loop env config args id iv fuel : ∀ rem,
  fetch_safe (poll_loop env fuel config args id iv rem).
Proof.
  induction fuel as [|fuel IH]; intros rem.
  - intros w. left. exists []. by rewrite app_nil_r.
  - cbn [poll_loop]. apply fetch_safe_bind; [apply fetch_safe_poll_cycle | done].
Qed.

Lemma fetch_safe_run env fuel args : fetch_safe (run env fuel args).
Proof.
  unfold run. apply fetch_safe_bind.
  { apply fetch_safe_of_emits. unfold print_err. emits_steps. }
  intros config. apply fetch_safe_bind.
  { apply fetch_safe_of_emits. unfold print_err. emits_steps. }
  intros _. destruct (args_report_only args).
  - destruct (args_campaign_id args) as [[| |]|];
      try apply fetch_safe_poll_loop;
      apply fetch_safe_of_emits; unfold print_err; emits_steps.
  - apply fetch_safe_of_emits. apply emits_bind.
    { apply emits_try_GophishError; [by apply emits_build_payload|].
      intros exc. unfold print_err. emits_steps. }
    intros payload.
    destruct (args_dry_run args || dry_run config);
      unfold _print_plan, print, print_err, create_campaign; emits_steps.
Qed.

Lemma failed_fetch_unique (t t' tail after : list Action) (x y : Action) :
  Forall no_failure t → Forall no_failure tail → failed_fetch y = true →
  t ++ x :: tail = t' ++ y :: after →
  t' = t ∧ y = x ∧ after = tail.
Proof.
  intros Ht Htail Hy. revert t'. induction Ht as [|a t Ha Ht IH]; intros t' Heq.
  - destruct t' as [|a' t']; simplify_eq/=; [done|].
    apply Forall_app in Htail as [_ Htail]. inversion Htail; congruence.
  - destruct t' as [|a' t']; simplify_eq/=; [congruence|].
    destruct (IH t') as (-> & -> & ->); done.
Qed.

(** C8: whenever a fetch fails during a run, observed for any number of
    turns, it is the only failed fetch and the last action but the error
    message: a [GophishError] is reported on the standard error and the run
    returns 1, any other exception leaves [run] at once; no fetch, report,
    export or sleep follows, and the fetch is not tried again. *)
Theorem failed_fetch_aborts env args files fuel before after campaign_id include_results e :
  trace (run env fuel args (start files)).2
  = before ++ GetCampaign campaign_id include_results (Raise e) :: after →
  after = abort_tail e
  ∧ (run env fuel args (start files)).1 = abort_ctl e
  ∧ Forall (λ a, failed_fetch a = false) before.
Proof.
  intros Htrace.
  destruct (fetch_safe_run env fuel args (start files))
    as [(t & Ht & Hnf) | (t & id & incl & e' & Ht & Hnf & Hctl)].
  - rewrite Ht in Htrace. simpl in Htrace. subst t.
    apply Forall_app in Hnf as [_ Hnf]. by inversion Hnf.
  - rewrite Ht in Htrace. simpl in Htrace.
    apply failed_fetch_unique in Htrace as (-> & [= -> -> ->] & ->); try done.
    destruct e'; simpl; repeat constructor.
Qed.

Lemma failed_fetch_aborts_witness :
  (run failing_env 10 (sample_args 5 0) (start sample_files)).1 = Return 1%Z
  ∧ fetch_count (trace (run failing_env 10 (sample_args 5 0) (start sample_files)).2) = 2%nat.
Proof.
  destruct (failed_fetch_aborts failing_env (sample_args 5 0) sample_files 10
              (slept_cycles sample_config (sample_args 5 0) 7 5 [sample_payload "In progress"])
              [PrintErr "Failed to fetch campaign: Gophish API error 500: "]
              7 true (GophishError "Gophish API error 500: "))
    as (_ & Hctl & _).
  - vm_compute. reflexivity.
  - split; [exact Hctl | vm_compute; reflexivity].
Defined.

(** ** The safety gate *)

Section Gate.

Lemma emits_bind_when {P A B} (Q : A → Prop) (p : Proc A) (k : A → Proc B) :
  (∀ w a, (p w).1 = Next a → Q a) →
  emits P p → (∀ a, Q a → emits P (k a)) → emits P (bind p k).
Proof.
  intros HQ Hp Hk w. unfold bind. destruct (Hp w) as (t & Ht & HP).
  specialize (HQ w).
  destruct (p w) as [[a|code|e|] w']; simpl in *; try by exists t.
  destruct (Hk a (HQ a eq_refl) w') as (t' & Ht' & HP'). exists (t ++ t').
  rewrite Ht', Ht, app_assoc. split; [done|]. by apply Forall_app.
Qed.

Lemma try_lift_value {A} (r : Result A) handler w a :
  (∀ exc w', (handler exc w').1 ≠ Next a) →
  (try_except_ConfigError (lift r) handler w).1 = Next a → r = Ok a.
Proof.
  intros Hh. unfold try_except_ConfigError, lift.
  destruct r as [a'|e]; simpl; [by intros [= ->]|].
  destruct e; simpl; try done. intros H. by apply Hh in H.
Qed.

Lemma emits_poll_loop env config args id iv fuel : ∀ rem,
  emits no_create (poll_loop env fuel config args id iv rem).
Proof.
  induction fuel as [|fuel IH]; intros rem.
  - intros w. exists []. by rewrite app_nil_r.
  - cbn [poll_loop]. apply emits_bind; [|done].
    unfold poll_cycle, print, print_err. emits_steps.
    + by apply emits_get_campaign.
    + destruct (truthy (args_csv_out args)); unfold print; emits_steps.
    + destruct (iv =? 0)%Z; emits_steps.
    + destruct (rem =? 0)%Z; [case_bool_decide|destruct (rem - 1 <=? 0)%Z]; emits_steps.
Qed.

Lemma enforce_safety_passes config args :
  _enforce_safety config args = Ok () →
  args_report_only args = true ∨ args_dry_run args || dry_run config = true
  ∨ (allow_live_send config = true ∧ args_confirm args = CONFIRM_PHRASE).
Proof.
  unfold _enforce_safety.
  destruct (args_report_only args); [by left|].
  destruct (args_dry_run args || dry_run config); [by (right; left)|].
  destruct (allow_live_send config); simpl; [|done].
  destruct (String.eqb_spec (args_confirm args) CONFIRM_PHRASE); simpl; [|done].
  intros _. right; right. done.
Qed.

(** Without a passed confirmation the run creates no campaign. *)
Lemma run_no_create env fuel args :
  (∀ config, load_config env (args_config args) = Ok config →
             _enforce_safety config args = Ok () →
             args_report_only args = true ∨ args_dry_run args || dry_run config = true) →
  emits no_create (run env fuel args).
Proof.
  intros Hgate. unfold run.
  apply (emits_bind_when (λ config, load_config env (args_config args) = Ok config)).
  { intros w config. apply try_lift_value. intros exc w'. done. }
  { unfold print_err. emits_steps. }
  intros config Hload.
  apply (emits_bind_when (λ _, _enforce_safety config args = Ok ())).
  { intros w []. apply try_lift_value. intros exc w'. done. }
  { unfold print_err. emits_steps. }
  intros _ Hsafe. specialize (Hgate config Hload Hsafe).
  destruct (args_report_only args).
  - destruct (args_campaign_id args) as [[| |]|];
      try apply emits_poll_loop; unfold print_err; emits_steps.
  - destruct Hgate as [|Hdry]; [done|]. rewrite Hdry.
    apply emits_bind.
    { apply emits_try_GophishError; [by apply emits_build_payload|].
      intros exc. unfold print_err. emits_steps. }
    intros payload. unfold _print_plan, print. emits_steps.
Qed.

Lemma emits_from_start {A} P (p : Proc A) files :
  emits P p → Forall P (trace (p (start files)).2).
Proof. intros Hp. destruct (Hp (start files)) as (t & -> & Ht). done. Qed.

(** C10: in every run, observed for any number of turns, a campaign is
    created only if the run is not report-only, neither [--dry-run] nor the
    configured [dry_run] is set, [allow_live_send] is true and [--confirm] is
    the exact phrase.  In report-only or dry-run mode the gate returns
    without raising and the run creates no campaign.  Otherwise, when
    [allow_live_send] is false or the phrase does not match, the gate raises
    and the run returns 1 having written only the error message: no request
    was sent to the server. *)
Theorem create_campaign_gated env args files fuel :
  ((∃ payload, CreateCampaign payload ∈ trace (run env fuel args (start files)).2) →
   args_report_only args = false ∧ args_dry_run args = false
   ∧ ∃ config, load_config env (args_config args) = Ok config
               ∧ dry_run config = false ∧ allow_live_send config = true
               ∧ args_confirm args = CONFIRM_PHRASE)
  ∧ (∀ config,
       load_config env (args_config args) = Ok config →
       args_report_only args = true ∨ args_dry_run args = true ∨ dry_run config = true →
       _enforce_safety config args = Ok ()
       ∧ Forall (λ a, is_create a = false) (trace (run env fuel args (start files)).2))
  ∧ (∀ config,
       load_config env (args_config args) = Ok config →
       args_report_only args = false → args_dry_run args = false → dry_run config = false →
       allow_live_send config = false ∨ args_confirm args ≠ CONFIRM_PHRASE →
       ∃ msg, _enforce_safety config args = Raise (ConfigError msg)
              ∧ run env fuel args (start files)
                = (Return 1%Z,
                   mkWorld [PrintErr ("Safety check failed: " +:+ msg)] files 0)).
Proof.
  split; [|split].
  - intros [payload Hin].
    assert (emits no_create (run env fuel args) → False) as Habsurd.
    { intros Hemits. apply (emits_from_start _ _ files) in Hemits.
      rewrite list.Forall_forall in Hemits. by apply Hemits in Hin. }
    destruct (load_config env (args_config args)) as [config|e] eqn:Hload;
      [|destruct Habsurd; apply run_no_create; intros config' Hload'; congruence].
    destruct (_enforce_safety config args) as [[]|e] eqn:Hsafe;
      [|destruct Habsurd; apply run_no_create; intros config' Hload' Hsafe'; congruence].
    destruct (args_report_only args) eqn:Hro;
      [destruct Habsurd; apply run_no_create; intros; by left|].
    destruct (args_dry_run args || dry_run config) eqn:Hdry;
      [destruct Habsurd; apply run_no_create; intros config' Hload' _; right; congruence|].
    destruct (enforce_safety_passes config args Hsafe) as [? | [? | [Hlive Hconfirm]]];
      [congruence..|].
    apply orb_false_elim in Hdry as [Hd1 Hd2].
    split; [done|]. split; [done|]. by exists config.
  - intros config Hload Hmode.
    assert (args_report_only args = true ∨ args_dry_run args || dry_run config = true)
      as Hmode'.
    { destruct Hmode as [|[->| ->]]; [by left | by right | right; apply orb_true_r]. }
    split.
    + unfold _enforce_safety. destruct Hmode' as [-> | Hdry]; [done|].
      rewrite Hdry. by destruct (args_report_only args).
    + apply emits_from_start, run_no_create. intros config' Hload' _. congruence.
  - intros config Hload Hro Hdry Hcdry Hblocked.
    unfold run, bind, try_except_ConfigError, _enforce_safety.
    rewrite Hload. simpl. rewrite Hro, Hdry, Hcdry. simpl.
    destruct (allow_live_send config); simpl; [|eexists; split; reflexivity].
    destruct Hblocked as [|Hne]; [done|].
    apply String.eqb_neq in Hne. rewrite Hne. simpl. eexists; split; reflexivity.
Qed.

Lemma create_campaign_gated_witness :
  (∃ payload, CreateCampaign payload
              ∈ trace (run live_env 1 live_args (start sample_files)).2)
  ∧ args_confirm live_args = CONFIRM_PHRASE
  ∧ Forall (λ a, is_create a = false)
           (trace (run sample_env 1 (sample_args 0 1) (start sample_files)).2)
  ∧ run live_env 1 unconfirmed_args (start sample_files)
    = (Return 1%Z,
       mkWorld [PrintErr ("Safety check failed: "
                          +:+ "Missing --confirm phrase. Use --confirm I-UNDERSTAND-THIS-IS-AWARENESS to proceed.")]
               sample_files 0).
Proof.
  destruct (create_campaign_gated live_env live_args sample_files 1) as (Hgate & _ & _).
  destruct (create_campaign_gated sample_env (sample_args 0 1) sample_files 1)
    as (_ & Hdry & _).
  destruct (create_campaign_gated live_env unconfirmed_args sample_files 1)
    as (_ & _ & Hblocked).
  assert (∃ payload, CreateCampaign payload
                     ∈ trace (run live_env 1 live_args (start sample_files)).2) as Hin.
  { eexists. apply list_elem_of_lookup. exists 4%nat. vm_compute. reflexivity. }
  split; [exact Hin|].
  destruct (Hgate Hin) as (_ & _ & config & _ & _ & _ & Hconfirm).
  split; [exact Hconfirm|].
  destruct (Hdry sample_config eq_refl (or_introl eq_refl)) as [_ Hnone].
  split; [exact Hnone|].
  assert (args_confirm unconfirmed_args ≠ CONFIRM_PHRASE) as Hne by (intros Heq; discriminate Heq).
  destruct (Hblocked live_config eq_refl eq_refl eq_refl eq_refl (or_intror Hne))
    as (msg & Hmsg & Hrun).
  rewrite Hrun. injection Hmsg as <-. reflexivity.
Defined.

End Gate.

(** ** The CSV exporter *)

Import Csv.

Lemma special_false c :
  special c = false → c ≠ delimiter ∧ c ≠ quotechar ∧ c ≠ CR ∧ c ≠ LF.
Proof.
  unfold special, lineterminator. rewrite !orb_false_iff, !bool_decide_eq_false.
  intros [[Hd Hq] Hl]. repeat split; try done.
  - intros ->. apply Hl. apply list_elem_of_here.
  - intros ->. apply Hl. apply list_elem_of_further, list_elem_of_here.
Qed.

#[local] Arguments at_limit : simpl never.
#[local] Arguments room : simpl never.

Ltac reader_steps :=
  unfold read_char, parse_process_char, parse_process_eol, is_newline, set_line, set_state,
    parse_add_char, parse_save_field, emit_record; cbn;
  rewrite ?bool_decide_false by done; cbn.

Lemma at_limit_room limit st ln acc fs recs :
  at_limit limit (mkReader st ln acc fs recs) = negb (room limit (S (length acc))).
Proof.
  unfold at_limit, room. destruct limit as [m|]; [|done]. cbn [field].
  destruct (N.leb_spec m (N.of_nat (length acc))),
           (N.leb_spec (N.of_nat (S (length acc))) m); simpl; lia.
Qed.

Lemma room_le limit n m : room limit n = true → (m ≤ n)%nat → room limit m = true.
Proof.
  unfold room. destruct limit as [k|]; [|done].
  rewrite !N.leb_le. lia.
Qed.

Lemma room_0 limit : room limit 0 = true.
Proof. unfold room. destruct limit as [k|]; [|done]. apply N.leb_le. lia. Qed.

(** A reader that has failed on a field stays so. *)
Lemma too_large_step limit r c :
  state r = TOO_LARGE → state (read_char limit r c) = TOO_LARGE.
Proof.
  destruct r as [st ln acc fs recs]. simpl. intros ->.
  unfold read_char. cbn [line]. destruct ln; case_bool_decide; reflexivity.
Qed.

Lemma too_large_absorbs limit l : ∀ r,
  state r = TOO_LARGE → state (foldl (read_char limit) r l) = TOO_LARGE.
Proof.
  induction l as [|c l IH]; intros r Hr; [done|].
  cbn [foldl]. apply IH. by apply too_large_step.
Qed.

Lemma read_plain_first limit st ln fs recs c :
  fresh st ln → special c = false →
  reads limit 1 (read_char limit (mkReader st ln [] fs recs) c)
        (mkReader IN_FIELD InLine [c] fs recs).
Proof.
  intros Hf (Hd & Hq & Hcr & Hlf)%special_false. unfold reads.
  destruct Hf; reader_steps; rewrite at_limit_room; cbn [length];
    by destruct (room limit 1).
Qed.

Lemma read_plain_next limit acc fs recs c :
  special c = false →
  reads limit (S (length acc)) (read_char limit (mkReader IN_FIELD InLine acc fs recs) c)
        (mkReader IN_FIELD InLine (acc ++ [c]) fs recs).
Proof.
  intros (Hd & Hq & Hcr & Hlf)%special_false. unfold reads.
  reader_steps. rewrite at_limit_room. by destruct (room limit (S (length acc))).
Qed.

Lemma read_plain_rest limit l : ∀ acc fs recs,
  existsb special l = false → room limit (length acc) = true →
  reads limit (length (acc ++ l))
        (foldl (read_char limit) (mkReader IN_FIELD InLine acc fs recs) l)
        (mkReader IN_FIELD InLine (acc ++ l) fs recs).
Proof.
  induction l as [|c l IH]; intros acc fs recs Hl Hacc.
  - rewrite app_nil_r. unfold reads. cbn [foldl]. by rewrite Hacc.
  - simpl in Hl. apply orb_false_iff in Hl as [Hc Hl]. cbn [foldl].
    pose proof (read_plain_next limit acc fs recs c Hc) as Hstep.
    pose proof (IH (acc ++ [c]) fs recs Hl) as Hrest.
    rewrite <- app_assoc, length_app in Hrest. cbn [app length] in Hrest.
    rewrite Nat.add_1_r in Hrest.
    unfold reads in *. destruct (room limit (S (length acc))) eqn:Hone.
    + rewrite Hstep. by apply Hrest.
    + replace (room limit (length (acc ++ c :: l))) with false.
      * by apply too_large_absorbs.
      * symmetry. apply not_true_is_false. intros Hroom.
        rewrite (room_le limit _ (S (length acc)) Hroom) in Hone
          by (rewrite length_app; simpl; lia).
        done.
Qed.

Lemma copy_doubling_plain l : existsb special l = false → copy_doubling l = l.
Proof.
  induction l as [|c l IH]; [done|]. simpl. intros [Hc Hl]%orb_false_iff.
  apply special_false in Hc as (_ & Hq & _). rewrite bool_decide_false by done.
  by rewrite IH.
Qed.

(** What is left of an unquoted field once its characters are read. *)
Lemma read_unquoted limit st ln fs recs l :
  fresh st ln → existsb special l = false →
  reads limit (length l)
        (foldl (read_char limit) (mkReader st ln [] fs recs) l)
        match l with
        | [] => mkReader st ln [] fs recs
        | _ => mkReader IN_FIELD InLine l fs recs
        end.
Proof.
  intros Hf Hl. destruct l as [|c l].
  { unfold reads. by rewrite room_0. }
  simpl in Hl. apply orb_false_iff in Hl as [Hc Hl]. cbn [foldl].
  pose proof (read_plain_first limit st ln fs recs c Hf Hc) as Hstep.
  pose proof (read_plain_rest limit l [c] fs recs Hl) as Hrest.
  cbn [app length] in Hrest. unfold reads in *.
  destruct (room limit 1) eqn:Hone.
  - rewrite Hstep. by apply Hrest.
  - replace (room limit (length (c :: l))) with false.
    + by apply too_large_absorbs.
    + symmetry. apply not_true_is_false. intros Hroom.
      rewrite (room_le limit _ 1 Hroom) in Hone by (simpl; lia). done.
Qed.

Lemma read_quote_open limit st ln fs recs :
  fresh st ln →
  read_char limit (mkReader st ln [] fs recs) quotechar
  = mkReader IN_QUOTED_FIELD InLine [] fs recs.
Proof. intros Hf. destruct Hf; reflexivity. Qed.

Lemma read_quote_close limit ln acc fs recs :
  read_char limit (mkReader IN_QUOTED_FIELD ln acc fs recs) quotechar
  = mkReader QUOTE_IN_QUOTED_FIELD InLine acc fs recs.
Proof. destruct ln; reflexivity. Qed.

Lemma read_quote_doubled limit acc fs recs :
  reads limit (S (length acc))
        (read_char limit (mkReader QUOTE_IN_QUOTED_FIELD InLine acc fs recs) quotechar)
        (mkReader IN_QUOTED_FIELD InLine (acc ++ [quotechar]) fs recs).
Proof.
  unfold reads. reader_steps. rewrite at_limit_room.
  by destruct (room limit (S (length acc))).
Qed.

Lemma read_quoted_char limit ln acc fs recs c :
  c ≠ quotechar →
  ∃ ln', reads limit (S (length acc))
               (read_char limit (mkReader IN_QUOTED_FIELD ln acc fs recs) c)
               (mkReader IN_QUOTED_FIELD ln' (acc ++ [c]) fs recs).
Proof.
  intros Hq. unfold read_char. cbn [line].
  destruct (decide (c = LF)) as [->|Hlf].
  - exists LineStart. unfold reads. destruct ln; reader_steps; rewrite at_limit_room;
      by destruct (room limit (S (length acc))).
  - exists (if bool_decide (c = CR) then AfterCR else InLine).
    unfold reads. destruct ln; reader_steps; rewrite at_limit_room;
      by destruct (room limit (S (length acc))).
Qed.

Lemma read_quoted_body limit l : ∀ ln acc fs recs,
  room limit (length acc) = true →
  ∃ ln', reads limit (length (acc ++ l))
               (foldl (read_char limit) (mkReader IN_QUOTED_FIELD ln acc fs recs)
                      (copy_doubling l))
               (mkReader IN_QUOTED_FIELD ln' (acc ++ l) fs recs).
Proof.
  induction l as [|c l IH]; intros ln acc fs recs Hacc.
  - exists ln. rewrite app_nil_r. unfold reads. cbn [copy_doubling foldl].
    by rewrite Hacc.
  - assert (∃ ln1, reads limit (S (length acc))
                     (foldl (read_char limit) (mkReader IN_QUOTED_FIELD ln acc fs recs)
                            (if bool_decide (c = quotechar) then [quotechar; quotechar]
                             else [c]))
                     (mkReader IN_QUOTED_FIELD ln1 (acc ++ [c]) fs recs)) as [ln1 Hstep].
    { case_bool_decide as Hc.
      - subst c. exists InLine. cbn [foldl]. rewrite read_quote_close.
        apply read_quote_doubled.
      - cbn [foldl]. by apply read_quoted_char. }
    assert (foldl (read_char limit) (mkReader IN_QUOTED_FIELD ln acc fs recs)
                  (copy_doubling (c :: l))
            = foldl (read_char limit)
                (foldl (read_char limit) (mkReader IN_QUOTED_FIELD ln acc fs recs)
                       (if bool_decide (c = quotechar) then [quotechar; quotechar]
                        else [c]))
                (copy_doubling l)) as ->.
    { cbn [copy_doubling]. by case_bool_decide. }
    unfold reads in *. destruct (room limit (S (length acc))) eqn:Hone.
    + rewrite Hstep.
      destruct (IH ln1 (acc ++ [c]) fs recs) as [ln' Hrest].
      { rewrite length_app. cbn [length]. by rewrite Nat.add_1_r. }
      rewrite <- app_assoc in Hrest. cbn [app] in Hrest. by exists ln'.
    + exists ln. replace (room limit (length (acc ++ c :: l))) with false.
      * by apply too_large_absorbs.
      * symmetry. apply not_true_is_false. intros Hroom.
        rewrite (room_le limit _ (S (length acc)) Hroom) in Hone
          by (rewrite length_app; simpl; lia).
        done.
Qed.

Lemma read_quoted limit st ln fs recs l :
  fresh st ln →
  reads limit (length l)
        (foldl (read_char limit) (mkReader st ln [] fs recs)
               (quotechar :: copy_doubling l ++ [quotechar]))
        (mkReader QUOTE_IN_QUOTED_FIELD InLine l fs recs).
Proof.
  intros Hf. cbn [foldl]. rewrite read_quote_open by done. rewrite foldl_app.
  destruct (read_quoted_body limit l InLine [] fs recs (room_0 limit)) as [ln' Hbody].
  cbn [app] in Hbody. unfold reads in *. destruct (room limit (length l)).
  - rewrite Hbody. cbn [foldl]. apply read_quote_close.
  - by apply too_large_absorbs.
Qed.

Lemma read_delimiter limit st ln l fs recs :
  field_read st ln l ∨ (fresh st ln ∧ l = []) →
  read_char limit (mkReader st ln l fs recs) delimiter
  = mkReader START_FIELD InLine [] (fs ++ [str l]) recs.
Proof. intros [Hf | [Hf ->]]; destruct Hf; reflexivity. Qed.

Lemma read_crlf limit st ln l fs recs :
  field_read st ln l →
  foldl (read_char limit) (mkReader st ln l fs recs) lineterminator
  = ready (recs ++ [fs ++ [str l]]).
Proof. intros Hf. destruct Hf; reflexivity. Qed.

(** After the text of a field the reader has it complete, unless the field
    was written as nothing at all at the start of a record; a field beyond
    the limit makes the reader fail. *)
Lemma read_join_append limit st ln fs recs l quoted :
  fresh st ln →
  let r := foldl (read_char limit) (mkReader st ln [] fs recs) (join_append l quoted) in
  if room limit (length l)
  then r = mkReader (state r) (line r) l fs recs
       ∧ (field_read (state r) (line r) l
          ∨ (join_append l quoted = [] ∧ l = [] ∧ state r = st ∧ line r = ln))
  else state r = TOO_LARGE.
Proof.
  intros Hf. unfold join_append.
  destruct (quoted || existsb special l) eqn:Hq.
  - cbv zeta. pose proof (read_quoted limit st ln fs recs l Hf) as Hread.
    unfold reads in Hread. destruct (room limit (length l)); [|done].
    rewrite Hread. cbn. split; [done|]. left. constructor.
  - apply orb_false_iff in Hq as [_ Hq]. rewrite copy_doubling_plain by done.
    cbv zeta. pose proof (read_unquoted limit st ln fs recs l Hf Hq) as Hread.
    unfold reads in Hread. destruct (room limit (length l)); [|done].
    rewrite Hread. destruct l as [|c l]; cbn.
    + split; [done|]. by right.
    + split; [done|]. left. constructor.
Qed.

Lemma copy_doubling_nil l : copy_doubling l = [] → l = [].
Proof. destruct l as [|c l]; [done|]. simpl. by case_bool_decide. Qed.

Lemma join_append_nil l : join_append l false = [] → l = [].
Proof.
  unfold join_append. destruct (false || existsb special l); [done|].
  apply copy_doubling_nil.
Qed.

Lemma join_fields_nil (fields : list Csv.text) :
  join_fields fields = [] → fields = [] ∨ fields = [[]].
Proof.
  destruct fields as [|f [|f' rest]]; [by left | |].
  - simpl. intros ->%join_append_nil. by right.
  - cbn [join_fields]. intros H. by apply app_eq_nil in H as [_ ?].
Qed.

Lemma read_fields limit (fields : list Csv.text) : ∀ st ln fs recs,
  fields ≠ [] → fresh st ln →
  st = START_FIELD ∨ join_fields fields ≠ [] →
  let r := foldl (read_char limit) (mkReader st ln [] fs recs)
                 (join_fields fields ++ lineterminator) in
  if record_room limit fields
  then r = ready (recs ++ [fs ++ (str <$> fields)])
  else state r = TOO_LARGE.
Proof.
  induction fields as [|f fields IH]; intros st ln fs recs Hne Hf Hstart; [done|].
  pose proof (read_join_append limit st ln fs recs f false Hf) as Hfirst.
  cbv zeta in Hfirst |- *.
  change (record_room limit (f :: fields))
    with (room limit (length f) && record_room limit fields).
  destruct (room limit (length f)) eqn:Hroom; cbn [andb].
  - destruct Hfirst as [Hr Hread]. destruct fields as [|f' rest].
    + change (join_fields [f]) with (join_append f false).
      change (record_room limit []) with true. cbv iota.
      rewrite foldl_app, Hr. apply read_crlf.
      destruct Hread as [Hread | (Hnil & -> & Hst & Hln)]; [done|].
      rewrite Hst, Hln. destruct Hstart as [-> | Hj]; [|done].
      inversion Hf. constructor.
    + change (join_fields (f :: f' :: rest))
        with (join_append f false ++ delimiter :: join_fields (f' :: rest)).
      rewrite <- app_assoc, foldl_app, Hr.
      rewrite <- app_comm_cons.
      change (foldl (read_char limit) ?r (delimiter :: ?l))
        with (foldl (read_char limit) (read_char limit r delimiter) l).
      rewrite read_delimiter.
      * pose proof (IH START_FIELD InLine (fs ++ [str f]) recs) as Hrest.
        cbv zeta in Hrest.
        destruct (record_room limit (f' :: rest)).
        -- rewrite Hrest; [|done|constructor|by left].
           by rewrite <- app_assoc.
        -- apply Hrest; [done|constructor|by left].
      * destruct Hread as [Hread | (Hnil & -> & Hst & Hln)]; [by left|].
        right. by rewrite Hst, Hln.
  - destruct fields as [|f' rest].
    + change (join_fields [f]) with (join_append f false).
      rewrite foldl_app. by apply too_large_absorbs.
    + change (join_fields (f :: f' :: rest))
        with (join_append f false ++ delimiter :: join_fields (f' :: rest)).
      rewrite <- app_assoc, foldl_app. by apply too_large_absorbs.
Qed.

Lemma txt_nil s : txt s = [] → s = "".
Proof. by destruct s. Qed.

Lemma str_txt (fields : list string) : str <$> (txt <$> fields) = fields.
Proof.
  induction fields as [|s fields IH]; [done|].
  rewrite !fmap_cons, IH. by rewrite String.string_of_list_ascii_of_string.
Qed.

Lemma length_txt s : length (txt s) = String.length s.
Proof. induction s as [|c s IH]; [done|]. simpl. by rewrite IH. Qed.

Lemma record_room_txt limit fields :
  record_room limit (txt <$> fields) = values_room limit fields.
Proof.
  unfold record_room, values_room. induction fields as [|s fields IH]; [done|].
  rewrite fmap_cons. cbn [forallb]. by rewrite length_txt, IH.
Qed.

(** Reading back one written record. *)
Lemma read_writerow limit (fields : list string) (recs : list (list string)) :
  fields ≠ [] →
  let r := foldl (read_char limit) (ready recs) (writerow fields) in
  if values_room limit fields then r = ready (recs ++ [fields])
  else state r = TOO_LARGE.
Proof.
  intros Hne. unfold writerow. cbv zeta.
  rewrite (bool_decide_true (fields ≠ [])) by done. cbn [andb].
  case_bool_decide as Hrec.
  - apply join_fields_nil in Hrec as [Hnil | Hone].
    + by apply fmap_nil_inv in Hnil.
    + destruct fields as [|s [|s' rest]]; [done | | discriminate Hone].
      injection Hone as Hs. apply txt_nil in Hs as ->.
      unfold values_room. cbn [forallb String.length]. rewrite room_0. reflexivity.
  - pose proof (read_fields limit (txt <$> fields) START_RECORD LineStart [] recs) as Hread.
    cbv zeta in Hread. rewrite record_room_txt, str_txt in Hread. unfold ready.
    apply Hread.
    + by intros ?%fmap_nil_inv.
    + constructor.
    + by right.
Qed.

Lemma read_records limit (records : list (list string)) : ∀ recs,
  Forall (λ fields, fields ≠ []) records →
  let r := foldl (read_char limit) (ready recs) (mjoin (writerow <$> records)) in
  if forallb (values_room limit) records then r = ready (recs ++ records)
  else state r = TOO_LARGE.
Proof.
  induction records as [|fields records IH]; intros recs Hne.
  { cbn. by rewrite app_nil_r. }
  inversion_clear Hne as [|? ? Hf Hrest].
  rewrite fmap_cons.
  change (mjoin (writerow fields :: (writerow <$> records)))
    with (writerow fields ++ mjoin (writerow <$> records)).
  change (forallb (values_room limit) (fields :: records))
    with (values_room limit fields && forallb (values_room limit) records).
  cbv zeta. rewrite foldl_app.
  pose proof (read_writerow limit fields recs Hf) as Hfirst. cbv zeta in Hfirst.
  destruct (values_room limit fields); cbn [andb].
  - rewrite Hfirst. pose proof (IH (recs ++ [fields]) Hrest) as Hnext.
    cbv zeta in Hnext. destruct (forallb (values_room limit) records).
    + rewrite Hnext. by rewrite <- app_assoc.
    + done.
  - by apply too_large_absorbs.
Qed.

(** The reader gives back the records that the writer wrote if all their
    values are within the limit, and fails if one is not. *)
Lemma reader_writer_within limit (records : list (list string)) :
  Forall (λ fields, fields ≠ []) records →
  reader limit (mjoin (writerow <$> records))
  = if forallb (values_room limit) records then Ok records
    else Raise (CsvError (field_limit_message limit)).
Proof.
  intros Hne. unfold reader. cbv zeta. change initial with (ready []).
  pose proof (read_records limit records [] Hne) as Hread. cbv zeta in Hread.
  destruct (forallb (values_room limit) records).
  - rewrite Hread. reflexivity.
  - destruct (foldl _ _ _) as [st ln acc fs recs]. simpl in Hread. subst st. reflexivity.
Qed.

Lemma values_room_None fields : values_room None fields = true.
Proof. unfold values_room. by induction fields. Qed.

(** Without a limit the reader gives back the records that the writer
    wrote. *)
Lemma reader_writer (records : list (list string)) :
  Forall (λ fields, fields ≠ []) records →
  reader None (mjoin (writerow <$> records)) = Ok records.
Proof.
  intros Hne. rewrite reader_writer_within by done.
  replace (forallb (values_room None) records) with true; [done|].
  symmetry. apply forallb_forall. intros fields _. apply values_room_None.
Qed.

Lemma writerows_content path rows : ∀ fs content,
  files fs !! path = Some content →
  files (writerows path rows fs) !! path
  = Some (content ++ mjoin ((λ row, writerow (_dict_to_list row)) <$> rows)).
Proof.
  unfold writerows.
  induction rows as [|row rows IH]; intros fs content Hc; [by rewrite app_nil_r|].
  cbn [foldl]. rewrite (IH _ (content ++ writerow (_dict_to_list row))).
  - rewrite fmap_cons. cbn [mjoin list_join]. by rewrite <- app_assoc.
  - unfold write. cbn [files]. rewrite lookup_alter_eq.
    by rewrite Hc.
Qed.

Lemma writerows_other path rows p : ∀ fs,
  p ≠ path → files (writerows path rows fs) !! p = files fs !! p.
Proof.
  unfold writerows. induction rows as [|row rows IH]; intros fs Hp; [done|].
  cbn [foldl]. rewrite IH by done. unfold write. cbn [files].
  by rewrite lookup_alter_ne.
Qed.

Lemma dict_to_list_nonempty (rows : list RecipientRow) :
  Forall (λ fields : list string, fields ≠ []) (fieldnames :: (_dict_to_list <$> rows)).
Proof.
  constructor; [done|]. apply Forall_fmap, Forall_true. intros row. done.
Qed.

Lemma digits_value_uint (d : Decimal.uint) : ∀ acc,
  digits_value acc (NilEmpty.string_of_uint d) = Some (Nat.of_uint_acc d acc).
Proof.
  induction d as [|d IH|d IH|d IH|d IH|d IH|d IH|d IH|d IH|d IH|d IH]; intros acc;
    [done|..];
    cbn [NilEmpty.string_of_uint digits_value Nat.of_uint_acc];
    change (digit_value _) with (Some 0%nat) || change (digit_value _) with (Some 1%nat)
    || change (digit_value _) with (Some 2%nat) || change (digit_value _) with (Some 3%nat)
    || change (digit_value _) with (Some 4%nat) || change (digit_value _) with (Some 5%nat)
    || change (digit_value _) with (Some 6%nat) || change (digit_value _) with (Some 7%nat)
    || change (digit_value _) with (Some 8%nat) || change (digit_value _) with (Some 9%nat);
    cbv beta iota; rewrite IH, Nat.tail_mul_spec; do 2 f_equal; lia.
Qed.

Lemma decimal_str_of_nat (n : nat) : decimal n (str_of_nat n).
Proof.
  unfold decimal, str_of_nat.
  pose proof (DecimalNat.Unsigned.of_to n) as Hof.
  pose proof (DecimalNat.Unsigned.to_of (Nat.to_uint n)) as Hnorm. rewrite Hof in Hnorm.
  assert (Nat.to_uint n ≠ Decimal.Nil) as Hnil
    by (rewrite Hnorm; apply DecimalFacts.unorm_nonnil).
  assert (NilZero.string_of_uint (Nat.to_uint n) = NilEmpty.string_of_uint (Nat.to_uint n))
    as -> by (by destruct (Nat.to_uint n)).
  split; [by destruct (Nat.to_uint n)|]. split.
  - rewrite digits_value_uint. unfold Nat.of_uint in Hof. by rewrite Hof.
  - intros rest Hrest. destruct (Nat.to_uint n) as [|d| | | | | | | | |]; try done.
    injection Hrest as <-. rewrite DecimalFacts.unorm_D0 in Hnorm.
    assert (d = Decimal.Nil ∨ d ≠ Decimal.Nil) as [->|Hd]
      by (destruct d; [by left | right; discriminate ..]); [done|].
    pose proof (DecimalFacts.nb_digits_unorm d Hd) as Hle.
    rewrite <- Hnorm in Hle. simpl in Hle. lia.
Qed.

Lemma cells_of_dict_to_list (row : RecipientRow) : cells_of row (_dict_to_list row).
Proof.
  exists (str_of_nat (open_count row)), (str_of_nat (click_count row)).
  split; [apply decimal_str_of_nat|]. split; [apply decimal_str_of_nat | done].
Qed.

Lemma room_within limit s :
  room (Some limit) (String.length s)
  = bool_decide (N.of_nat (String.length s) ≤ limit)%N.
Proof. unfold room. case_bool_decide; [by apply N.leb_le | by apply N.leb_nle]. Qed.

Lemma values_room_Forall limit (fields : list string) :
  values_room (Some limit) fields = true
  ↔ Forall (λ cell, (N.of_nat (String.length cell) ≤ limit)%N) fields.
Proof.
  unfold values_room. induction fields as [|s l IH]; [by split; [constructor|]|].
  cbn [forallb]. rewrite room_within. split.
  - intros [Hs Hl]%andb_prop. constructor; [by apply bool_decide_eq_true in Hs|].
    by apply IH.
  - intros Hall. inversion_clear Hall as [|? ? Hs Hl]. apply andb_true_intro. split.
    + by apply bool_decide_eq_true.
    + by apply IH.
Qed.

Lemma values_room_within limit (records : list (list string)) :
  forallb (values_room (Some limit)) records = bool_decide (within_limit limit records).
Proof.
  apply eq_true_iff_eq. etransitivity; [|symmetry; apply bool_decide_eq_true].
  unfold within_limit.
  induction records as [|fields records IH]; [by split; [constructor|]|].
  cbn [forallb]. split.
  - intros [Hf Hr]%andb_prop. constructor; [by apply values_room_Forall | by apply IH].
  - intros Hall. inversion_clear Hall as [|? ? Hf Hr]. apply andb_true_intro. split.
    + by apply values_room_Forall.
    + by apply IH.
Qed.

(** C9: on a path that can be written, [export_csv] replaces the file by the
    header line followed by one line per row, whatever the file held before
    and without touching other files; the header names the ten columns in
    their fixed order and is there for an empty list of rows too; and a
    reader of the file gets the ten column names and then, for each of the
    [N] rows in order, the ten values of the row in the order of the
    columns, the strings character for character and the two counters as
    their decimal numerals.  A reader that keeps a field size limit, 131072
    characters unless it is changed, gets the same as long as no value is
    longer than the limit, and fails on the file if one is. *)
Theorem export_csv_round_trip (rows : list RecipientRow) (path : string) (fs : FileSystem) :
  writable fs path = true →
  ∃ fs' records,
    export_csv rows path fs = Ok fs'
    ∧ files fs' !! path
      = Some (txt header_line ++ lineterminator
              ++ mjoin ((λ row, writerow (_dict_to_list row)) <$> rows))
    ∧ (∀ p, p ≠ path → files fs' !! p = files fs !! p)
    ∧ read_csv path fs' = Ok (columns :: records)
    ∧ Forall2 cells_of rows records
    ∧ length records = length rows
    ∧ (∀ limit : N,
         read_csv_within (Some limit) path fs'
         = if bool_decide (within_limit limit (columns :: records))
           then Ok (columns :: records)
           else Raise (CsvError (field_limit_message (Some limit))))
    ∧ field_limit_message (Some default_field_size_limit)
      = "field larger than field limit (131072)"
    ∧ (rows = [] →
       files fs' !! path = Some (txt header_line ++ lineterminator)
       ∧ read_csv path fs' = Ok [columns]).
Proof.
  intros Hw. unfold export_csv, open_w. rewrite Hw. cbn.
  eexists. exists (_dict_to_list <$> rows). split; [reflexivity|].
  assert (files (writerows path rows
                   (writeheader path (mkFileSystem (<[path:=[]]> (files fs)) (writable fs))))
          !! path
          = Some (writerow fieldnames
                  ++ mjoin ((λ row, writerow (_dict_to_list row)) <$> rows))) as Hcontent.
  { apply writerows_content. unfold writeheader, write. cbn [files].
    by rewrite lookup_alter_eq, lookup_insert_eq. }
  assert (writerow fieldnames ++ mjoin ((λ row, writerow (_dict_to_list row)) <$> rows)
          = mjoin (writerow <$> (fieldnames :: (_dict_to_list <$> rows)))) as Htext
    by (by rewrite fmap_cons, <- list_fmap_compose).
  assert (read_csv path
            (writerows path rows
               (writeheader path (mkFileSystem (<[path:=[]]> (files fs)) (writable fs))))
          = Ok (columns :: (_dict_to_list <$> rows))) as Hread.
  { unfold read_csv, read_csv_within. rewrite Hcontent, Htext.
    change columns with fieldnames.
    apply reader_writer, dict_to_list_nonempty. }
  split; [exact Hcontent|]. split.
  { intros p Hp. rewrite writerows_other by done. unfold writeheader, write. cbn [files].
    by rewrite lookup_alter_ne, lookup_insert_ne. }
  split; [exact Hread|]. split.
  { apply Forall2_fmap_r, Forall_Forall2_diag, Forall_true, cells_of_dict_to_list. }
  split; [by rewrite length_fmap|]. split.
  { intros limit. unfold read_csv_within. rewrite Hcontent, Htext.
    change columns with fieldnames.
    rewrite reader_writer_within by apply dict_to_list_nonempty.
    by rewrite values_room_within. }
  split; [reflexivity|].
  intros ->. split; [|exact Hread]. rewrite Hcontent. reflexivity.
Qed.

Lemma export_csv_round_trip_witness :
  ∃ fs' records,
    export_csv [tricky_row] "out.csv" sample_files = Ok fs'
    ∧ read_csv "out.csv" fs' = Ok (columns :: records)
    ∧ Forall2 cells_of [tricky_row] records
    ∧ records
      = [[campaign_name tricky_row; "In progress"; "a@x"; ""; "12"; "0";
          first_open_time tricky_row; ""; String LF ""; String CR ""]]
    ∧ read_csv_within (Some default_field_size_limit) "out.csv" fs'
      = Ok (columns :: records)
    ∧ read_csv_within (Some 3%N) "out.csv" fs'
      = Raise (CsvError "field larger than field limit (3)").
Proof.
  destruct (export_csv_round_trip [tricky_row] "out.csv" sample_files eq_refl)
    as (fs' & records & Hexp & _ & _ & Hread & Hcells & _ & Hlimit & _).
  exists fs', records. split; [exact Hexp|]. split; [exact Hread|]. split; [exact Hcells|].
  assert (records
          = [[campaign_name tricky_row; "In progress"; "a@x"; ""; "12"; "0";
              first_open_time tricky_row; ""; String LF ""; String CR ""]]) as Hrecords.
  { injection Hexp as <-. vm_compute in Hread. by injection Hread as <-. }
  split; [exact Hrecords|].
  rewrite !Hlimit, Hrecords. split; reflexivity.
Defined.

(** ** The configuration loader *)

Section Loader.

Lemma substring_all (s t : string) :
  String.substring 0 (String.length s) (s +:+ t) = s.
Proof. induction s as [|c s IH]; simpl; [by destruct t | by rewrite IH]. Qed.

Lemma length_append (s t : string) :
  String.length (s +:+ t) = (String.length s + String.length t)%nat.
Proof. induction s as [|c s IH]; simpl; [done | by rewrite IH]. Qed.

Lemma substring_skip (n m : nat) (s t : string) :
  String.length s = n → String.substring n m (s +:+ t) = String.substring 0 m t.
Proof.
  revert n. induction s as [|c s IH]; intros n Hn; simpl in *; subst; [done|].
  by apply IH.
Qed.

Lemma substring_0_0 (s : string) : String.substring 0 0 s = "".
Proof. by destruct s. Qed.

Lemma startswith_placeholder s :
  Config.startswith "${" s = true ↔ ∃ rest, s = "${" +:+ rest.
Proof.
  unfold Config.startswith. rewrite String.prefix_correct. split.
  - destruct s as [|c1 [|c2 rest]]; cbn; try done.
    intros [= -> -> _]. by exists rest.
  - intros [rest ->]. cbn. by destruct rest.
Qed.

Lemma string_snoc (s : string) :
  s ≠ "" → ∃ body c, s = body +:+ String c "".
Proof.
  induction s as [|c s IH]; intros Hs; [done|]. destruct s as [|c' s'].
  - by exists "", c.
  - destruct IH as (body & c0 & Hb); [done|]. exists (String c body), c0.
    simpl. by rewrite Hb.
Qed.

Lemma substring_last (body : string) (c : ascii) :
  String.substring (String.length (body +:+ String c "") - 1) 1 (body +:+ String c "")
  = String c "".
Proof.
  rewrite length_append. simpl.
  replace (String.length body + 1 - 1)%nat with (String.length body) by lia.
  by rewrite (substring_skip (String.length body) 1 body).
Qed.

Lemma endswith_brace s :
  Config.endswith "}" s = true ↔ ∃ body, s = body +:+ "}".
Proof.
  unfold Config.endswith. rewrite andb_true_iff, Nat.leb_le, String.eqb_eq.
  change (String.length "}") with 1%nat. split.
  - intros [Hlen Hsub].
    destruct (string_snoc s) as (body & c & ->); [by destruct s; simpl in Hlen; try lia|].
    rewrite substring_last in Hsub. injection Hsub as ->. by exists body.
  - intros [body ->]. split; [rewrite length_append; simpl; lia | apply substring_last].
Qed.

Lemma is_placeholder s :
  Config.startswith "${" s && Config.endswith "}" s = true ↔ ∃ key, s = Config.placeholder key.
Proof.
  rewrite andb_true_iff, startswith_placeholder, endswith_brace. unfold Config.placeholder. split.
  - intros [[rest ->] [body Hbody]].
    destruct body as [|c1 [|c2 key]]; cbn in Hbody.
    + discriminate Hbody.
    + injection Hbody as _ Hb. discriminate Hb.
    + injection Hbody as Hc1 Hc2 Hrest. change (rest = key +:+ "}") in Hrest.
      subst. by exists key.
  - intros [key ->]. split; [by exists (key +:+ "}") | by exists ("${" +:+ key)].
Qed.

Lemma slice_placeholder key : Config.slice_2_minus_1 (Config.placeholder key) = key.
Proof.
  unfold Config.slice_2_minus_1, Config.placeholder.
  change ("${" +:+ key +:+ "}") with (String "$" (String "{" (key +:+ "}"))).
  cbn [String.length String.substring]. rewrite length_append.
  replace (S (S (String.length key + String.length "}")) - 3)%nat
    with (String.length key) by (simpl; lia).
  apply substring_all.
Qed.

(** What a document that loads looks like, and what it loads to. *)
Lemma load_config_loaded environ document config :
  Config.load_config environ document = Config.Loaded config →
  ∃ d n g t p sp u,
    Config.raw_campaign document = Some (Config.Mapping d)
    ∧ Config.rc_name d = Some n ∧ Config.rc_group_name d = Some g
    ∧ Config.rc_template_name d = Some t ∧ Config.rc_page_name d = Some p
    ∧ Config.rc_sending_profile_name d = Some sp ∧ Config.rc_url d = Some u
    ∧ (∀ v, Config.raw_reporting document ≠ Some (Config.Leaf v))
    ∧ config
      = mkAppConfig
          (Config.bool_scalar
             (default (Config.SBool false)
                (Config._resolve_env environ <$> Config.raw_allow_live_send document)))
          (Config.bool_scalar
             (default (Config.SBool true)
                (Config._resolve_env environ <$> Config.raw_dry_run document)))
          (Config.str_scalar
             (default (Config.SStr "")
                (Config._resolve_env environ <$> Config.raw_base_url document)))
          (Config.str_scalar
             (default (Config.SStr "")
                (Config._resolve_env environ <$> Config.raw_api_key document)))
          (Config.bool_scalar
             (default (Config.SBool true)
                (Config._resolve_env environ <$> Config.raw_verify_tls document)))
          (mkCampaignConfig (Config.str_scalar n) (Config.str_scalar g)
             (Config.str_scalar t) (Config.str_scalar p) (Config.str_scalar sp)
             (Config.str_scalar u) (Config.rc_launch_date d))
          (let r := match Config.raw_reporting document with
                    | Some (Config.Mapping r) => r
                    | _ => Config.mkRawReporting None None
                    end in
           mkReportingConfig
             (Config.bool_scalar
                (default (Config.SBool true) (Config.rr_unique_clicks_only r)))
             (Config.bool_scalar
                (default (Config.SBool true) (Config.rr_unique_opens_only r))))
    ∧ Config._validate_config config = Ok ().
Proof.
  unfold Config.load_config. cbv zeta. unfold Config._load_yaml. cbn.
  destruct (Config.raw_campaign document) as [[v|d]|]; cbn; try done.
  destruct (Config.rc_name d) as [n|] eqn:Hn; cbn; [|done].
  destruct (Config.rc_group_name d) as [g|] eqn:Hg; cbn; [|done].
  destruct (Config.rc_template_name d) as [t|] eqn:Ht; cbn; [|done].
  destruct (Config.rc_page_name d) as [p|] eqn:Hp; cbn; [|done].
  destruct (Config.rc_sending_profile_name d) as [sp|] eqn:Hsp; cbn; [|done].
  destruct (Config.rc_url d) as [u|] eqn:Hu; cbn; [|done].
  destruct (Config.raw_reporting document) as [[v|r]|] eqn:Hr; cbn; try done.
  - destruct (Config.rr_unique_clicks_only r), (Config.rr_unique_opens_only r); cbn;
      (match goal with
       | |- context [Config._validate_config ?c] =>
           destruct (Config._validate_config c) as [[]|e] eqn:Hv; cbn; [|done]
       end);
      intros [= <-]; exists d, n, g, t, p, sp, u; repeat (split; [done|]); done.
  - match goal with
    | |- context [Config._validate_config ?c] =>
        destruct (Config._validate_config c) as [[]|e] eqn:Hv; cbn; [|done]
    end.
    intros [= <-]. exists d, n, g, t, p, sp, u. repeat (split; [done|]). done.
Qed.

Lemma resolve_text_truthy environ s :
  s ≠ "" →
  (∀ key, s = Config.placeholder key → environ !! key ≠ Some "") →
  Config.bool_scalar (Config._resolve_env environ (Config.SStr s)) = true.
Proof.
  intros Hs Henv. unfold Config._resolve_env.
  destruct (Config.startswith "${" s && Config.endswith "}" s) eqn:Hp; cbn.
  - apply is_placeholder in Hp as [key ->]. rewrite slice_placeholder.
    specialize (Henv key eq_refl).
    destruct (environ !! key) as [v|]; cbn; apply negb_true_iff, String.eqb_neq; congruence.
  - by apply negb_true_iff, String.eqb_neq.
Qed.

Lemma resolve_placeholder environ key :
  Config._resolve_env environ (Config.SStr (Config.placeholder key))
  = Config.SStr (default (Config.placeholder key) (environ !! key)).
Proof.
  unfold Config._resolve_env.
  rewrite (proj2 (is_placeholder (Config.placeholder key))) by eauto.
  cbv zeta. by rewrite slice_placeholder.
Qed.

Lemma validate_config_ok config :
  Config._validate_config config = Ok ()
  ↔ Forall (λ s, s ≠ "") (Config.required config).
Proof.
  unfold Config._validate_config, Config.required.
  rewrite !list.Forall_cons, list.Forall_nil.
  repeat (match goal with
          | |- context [String.eqb ?s ""] =>
              destruct (String.eqb_spec s ""); [split; [done | intros; tauto]|]
          end).
  split; [done|]. tauto.
Qed.

(** X1: [_resolve_env] touches strings of the form of a placeholder only: a
    placeholder becomes the value of its variable, or stays as it is when the
    variable is not set; every other string and every value that is no
    string is returned unchanged. *)
Theorem resolve_env_placeholder (environ : gmap string string) :
  (∀ key, Config._resolve_env environ (Config.SStr (Config.placeholder key))
          = Config.SStr (default (Config.placeholder key) (environ !! key)))
  ∧ (∀ s, (∀ key, s ≠ Config.placeholder key) →
          Config._resolve_env environ (Config.SStr s) = Config.SStr s)
  ∧ (∀ v, (∀ s, v ≠ Config.SStr s) → Config._resolve_env environ v = v).
Proof.
  split; [apply resolve_placeholder|]. split.
  - intros s Hs. unfold Config._resolve_env.
    destruct (Config.startswith "${" s && Config.endswith "}" s) eqn:Hp; [|done].
    apply is_placeholder in Hp as [key ->]. by destruct (Hs key).
  - intros v Hv. destruct v; try done. by destruct (Hv s).
Qed.

(** X2: [_validate_config] accepts a configuration exactly when its eight
    required settings are non-empty strings; it checks nothing else, and
    what it raises is always a [ConfigError]. *)
Theorem validate_config_checks_presence (config : AppConfig) :
  (Config._validate_config config = Ok ()
   ↔ Forall (λ s, s ≠ "") (Config.required config))
  ∧ (∀ e, Config._validate_config config = Raise e → ∃ msg, e = ConfigError msg).
Proof.
  split; [apply validate_config_ok|].
  unfold Config._validate_config. intros e.
  repeat (match goal with
          | |- context [String.eqb ?s ""] =>
              destruct (String.eqb s ""); [intros [= <-]; eauto|]
          end).
  done.
Qed.

(** X3: a configuration that loads has its eight required settings filled;
    without the key [allow_live_send] sending is off, without the key
    [dry_run] the dry run is on, without [verify_tls] certificates are
    checked, and without a [reporting] section both counts are unique.  With
    either of the first two keys missing no run on that configuration creates
    a campaign, whatever the command line. *)
Theorem loaded_config_defaults environ document config :
  Config.load_config environ document = Config.Loaded config →
  Forall (λ s, s ≠ "") (Config.required config)
  ∧ (Config.raw_allow_live_send document = None → allow_live_send config = false)
  ∧ (Config.raw_dry_run document = None → dry_run config = true)
  ∧ (Config.raw_verify_tls document = None → verify_tls config = true)
  ∧ (Config.raw_reporting document = None →
     unique_clicks_only (reporting config) = true
     ∧ unique_opens_only (reporting config) = true)
  ∧ (Config.raw_allow_live_send document = None ∨ Config.raw_dry_run document = None →
     ∀ env args files fuel,
       load_config env (args_config args) = Ok config →
       Forall (λ a, is_create a = false) (trace (run env fuel args (start files)).2)).
Proof.
  intros Hload.
  destruct (load_config_loaded _ _ _ Hload)
    as (d & n & g & t & p & sp & u & _ & _ & _ & _ & _ & _ & _ & _ & Hconfig & Hvalid).
  apply validate_config_ok in Hvalid. split; [done|].
  assert (Config.raw_allow_live_send document = None → allow_live_send config = false)
    as Hlive by (intros Hk; rewrite Hconfig, Hk; done).
  assert (Config.raw_dry_run document = None → dry_run config = true)
    as Hdry by (intros Hk; rewrite Hconfig, Hk; done).
  split; [done|]. split; [done|].
  split; [intros Hk; rewrite Hconfig, Hk; done|].
  split; [intros Hk; rewrite Hconfig, Hk; done|].
  intros Hmissing env args files fuel Henv.
  apply emits_from_start, run_no_create. intros config' Henv' Hsafe.
  assert (config' = config) as -> by congruence.
  destruct (enforce_safety_passes config args Hsafe) as [Hro | [Hd | [Hl _]]].
  - by left.
  - by right.
  - destruct Hmissing as [Hk | Hk].
    + rewrite (Hlive Hk) in Hl. done.
    + right. rewrite (Hdry Hk). apply orb_true_r.
Qed.

Lemma sample_document_loads :
  Config.load_config ∅ Config.sample_document
  = Config.Loaded
      (mkAppConfig false true "https://gophish.example/" "${GOPHISH_API_KEY}" true
         (mkCampaignConfig "Q3 awareness" "staff" "invoice" "login" "${SMTP}"
                           "https://landing.example" None)
         (mkReportingConfig true true)).
Proof. reflexivity. Defined.

Lemma loaded_config_defaults_witness :
  ∃ config, Config.load_config ∅ Config.sample_document = Config.Loaded config
            ∧ allow_live_send config = false ∧ dry_run config = true.
Proof.
  eexists. split; [exact sample_document_loads|].
  destruct (loaded_config_defaults ∅ Config.sample_document _ sample_document_loads)
    as (_ & Hlive & Hdry & _).
  split; [exact (Hlive eq_refl) | exact (Hdry eq_refl)].
Defined.

(** X4: a switch written as text is on: when [allow_live_send] or [dry_run]
    holds any non-empty string (also the word false, or a placeholder whose
    variable is unset or set to something non-empty) the loaded switch is
    true. *)
Theorem text_switch_is_on environ document config s :
  Config.load_config environ document = Config.Loaded config →
  s ≠ "" →
  (∀ key, s = Config.placeholder key → environ !! key ≠ Some "") →
  (Config.raw_allow_live_send document = Some (Config.SStr s) →
   allow_live_send config = true)
  ∧ (Config.raw_dry_run document = Some (Config.SStr s) → dry_run config = true).
Proof.
  intros Hload Hs Henv.
  destruct (load_config_loaded _ _ _ Hload)
    as (d & n & g & t & p & sp & u & _ & _ & _ & _ & _ & _ & _ & _ & Hconfig & _).
  split; intros Hk; rewrite Hconfig; cbn; rewrite Hk; cbn;
    by apply resolve_text_truthy.
Qed.

Lemma text_switch_document_loads :
  ∃ config, Config.load_config ∅ Config.text_switch_document = Config.Loaded config.
Proof. eexists. reflexivity. Defined.

Lemma text_switch_is_on_witness :
  ∃ config, Config.load_config ∅ Config.text_switch_document = Config.Loaded config
            ∧ allow_live_send config = true.
Proof.
  destruct text_switch_document_loads as [config Hload]. exists config.
  split; [exact Hload|].
  assert ("false" ≠ "") as Hs by (intros Heq; discriminate Heq).
  assert (∀ key, "false" = Config.placeholder key → (∅ : gmap string string) !! key ≠ Some "")
    as Henv by (intros key _; rewrite lookup_empty; intros Heq; discriminate Heq).
  destruct (text_switch_is_on ∅ Config.text_switch_document config "false" Hload Hs Henv)
    as [Hlive _].
  exact (Hlive eq_refl).
Defined.

(** X5: placeholders are resolved in the top-level settings only.  A loaded
    [api_key] or [base_url] written as a placeholder is the value of the
    variable, and the text of the placeholder itself when the variable is not
    set, which validation accepts; the strings of the campaign section are
    taken as they are, placeholder or not. *)
Theorem placeholders_top_level_only environ document config :
  Config.load_config environ document = Config.Loaded config →
  (∀ key, Config.raw_api_key document = Some (Config.SStr (Config.placeholder key)) →
          api_key config = default (Config.placeholder key) (environ !! key))
  ∧ (∀ key, Config.raw_base_url document = Some (Config.SStr (Config.placeholder key)) →
            base_url config = default (Config.placeholder key) (environ !! key))
  ∧ (∀ d, Config.raw_campaign document = Some (Config.Mapping d) →
          (∀ s, Config.rc_name d = Some (Config.SStr s) → name (campaign config) = s)
          ∧ (∀ s, Config.rc_group_name d = Some (Config.SStr s) →
                  group_name (campaign config) = s)
          ∧ (∀ s, Config.rc_template_name d = Some (Config.SStr s) →
                  template_name (campaign config) = s)
          ∧ (∀ s, Config.rc_page_name d = Some (Config.SStr s) →
                  page_name (campaign config) = s)
          ∧ (∀ s, Config.rc_sending_profile_name d = Some (Config.SStr s) →
                  sending_profile_name (campaign config) = s)
          ∧ (∀ s, Config.rc_url d = Some (Config.SStr s) → url (campaign config) = s)).
Proof.
  intros Hload.
  destruct (load_config_loaded _ _ _ Hload)
    as (d & n & g & t & p & sp & u & Hd & Hn & Hg & Ht & Hp & Hsp & Hu & _ & Hconfig & _).
  split; [|split].
  - intros key Hk. rewrite Hconfig. cbn [api_key]. rewrite Hk.
    cbn -[Config._resolve_env Config.placeholder]. by rewrite resolve_placeholder.
  - intros key Hk. rewrite Hconfig. cbn [base_url]. rewrite Hk.
    cbn -[Config._resolve_env Config.placeholder]. by rewrite resolve_placeholder.
  - intros d' Hd'. assert (d' = d) as -> by congruence. rewrite Hconfig. cbn.
    repeat split; intros s Hs;
      first [rewrite Hn in Hs | rewrite Hg in Hs | rewrite Ht in Hs | rewrite Hp in Hs
            | rewrite Hsp in Hs | rewrite Hu in Hs];
      injection Hs as ->; done.
Qed.

Lemma placeholders_top_level_only_witness :
  ∃ config, Config.load_config ∅ Config.sample_document = Config.Loaded config
            ∧ api_key config = "${GOPHISH_API_KEY}"
            ∧ sending_profile_name (campaign config) = "${SMTP}".
Proof.
  eexists. split; [exact sample_document_loads|].
  destruct (placeholders_top_level_only ∅ Config.sample_document _ sample_document_loads)
    as (Hkey & _ & Hcampaign).
  split; [exact (Hkey "GOPHISH_API_KEY" eq_refl)|].
  destruct (Hcampaign _ eq_refl) as (_ & _ & _ & _ & Hsp & _).
  exact (Hsp _ eq_refl).
Defined.

(** X6: a document without campaign section is a [ConfigError], whatever
    else it holds; [run] then writes the one line
    [Config error: Missing required config sections] and returns 1. *)
Theorem missing_campaign_section environ document :
  Config.raw_campaign document = None →
  Config.load_config environ document
  = Config.Fails (Config.LoadExn (ConfigError "Missing required config sections"))
  ∧ ∀ env args files fuel,
      Config.as_result (Config.load_config environ document)
      = Some (load_config env (args_config args)) →
      run env fuel args (start files)
      = (Return 1%Z,
         mkWorld [PrintErr "Config error: Missing required config sections"] files 0).
Proof.
  intros Hc.
  assert (Config.load_config environ document
          = Config.Fails (Config.LoadExn (ConfigError "Missing required config sections")))
    as Hload by (unfold Config.load_config, Config._load_yaml; cbn; by rewrite Hc).
  split; [done|]. intros env args files fuel Henv. rewrite Hload in Henv.
  injection Henv as Henv. unfold run, bind, try_except_ConfigError. by rewrite <- Henv.
Qed.

Lemma missing_campaign_section_witness :
  Config.load_config ∅ Config.sectionless_document
  = Config.Fails (Config.LoadExn (ConfigError "Missing required config sections")).
Proof. exact (proj1 (missing_campaign_section ∅ Config.sectionless_document eq_refl)). Defined.

(** X7: a campaign section that is no mapping is a [TypeError], and one that
    lacks a key is a [KeyError] for the first key that is missing in the
    order name, group_name, template_name, page_name, sending_profile_name,
    url; neither is a [ConfigError], so [run] does not handle it. *)
Theorem missing_campaign_key environ document :
  (∀ v, Config.raw_campaign document = Some (Config.Leaf v) →
        Config.load_config environ document = Config.Fails Config.TypeError)
  ∧ (∀ d before field key after,
       Config.raw_campaign document = Some (Config.Mapping d) →
       Config.campaign_keys = before ++ (field, key) :: after →
       Forall (λ fk, is_Some (fk.1 d)) before →
       field d = None →
       Config.load_config environ document = Config.Fails (Config.KeyError key)
       ∧ Config.as_result (Config.load_config environ document) = None).
Proof.
  split.
  - intros v Hc. unfold Config.load_config, Config._load_yaml. cbn. by rewrite Hc.
  - intros d before field key after Hc Hkeys Hbefore Hfield.
    assert (Config.load_config environ document = Config.Fails (Config.KeyError key))
      as Hload; [|by rewrite Hload].
    unfold Config.load_config, Config._load_yaml. cbn. rewrite Hc. cbn.
    unfold Config.campaign_keys in Hkeys.
    repeat (destruct before as [|[f k] before];
            [injection Hkeys as <- <- _; cbn in *; by rewrite Hfield
            |injection Hkeys as <- <- Hkeys;
             apply list.Forall_cons in Hbefore as [[? Hpresent] Hbefore];
             cbn in Hpresent; rewrite Hpresent; clear Hpresent; cbn]).
    destruct before; discriminate Hkeys.
Qed.

Lemma missing_campaign_key_witness :
  Config.load_config ∅ Config.incomplete_document
  = Config.Fails (Config.KeyError "page_name").
Proof.
  destruct (missing_campaign_key ∅ Config.incomplete_document) as [_ Hkey].
  refine (proj1 (Hkey _ [(Config.rc_name, "name"); (Config.rc_group_name, "group_name");
                         (Config.rc_template_name, "template_name")]
                   Config.rc_page_name "page_name" _ eq_refl eq_refl _ eq_refl)).
  repeat constructor; eexists; reflexivity.
Defined.

(** X8: a [reporting] key that holds no mapping (an empty section, or a
    scalar) makes the loader fail, with an [AttributeError] once the campaign
    section is complete; the document never loads. *)
Theorem reporting_must_be_mapping environ document v :
  Config.raw_reporting document = Some (Config.Leaf v) →
  (∀ config, Config.load_config environ document ≠ Config.Loaded config)
  ∧ (∀ d, Config.raw_campaign document = Some (Config.Mapping d) →
          Forall (λ fk, is_Some (fk.1 d)) Config.campaign_keys →
          Config.load_config environ document = Config.Fails Config.AttributeError).
Proof.
  intros Hr. split.
  - intros config Hload.
    destruct (load_config_loaded _ _ _ Hload)
      as (d & n & g & t & p & sp & u & _ & _ & _ & _ & _ & _ & _ & Hnot & _).
    by destruct (Hnot v).
  - intros d Hc Hkeys. unfold Config.campaign_keys in Hkeys.
    repeat (apply list.Forall_cons in Hkeys as [[? ?] Hkeys]). cbn in *.
    unfold Config.load_config, Config._load_yaml. cbn. rewrite Hc, Hr. cbn.
    repeat (match goal with H : _ d = Some _ |- _ => rewrite H; clear H end). done.
Qed.

Lemma reporting_must_be_mapping_witness :
  Config.load_config ∅ Config.empty_reporting_document = Config.Fails Config.AttributeError.
Proof.
  destruct (reporting_must_be_mapping ∅ Config.empty_reporting_document Config.SNone eq_refl)
    as [_ Hfail].
  refine (Hfail _ eq_refl _). repeat constructor; eexists; reflexivity.
Defined.

End Loader.

(** ** The client *)

Section ClientFacts.

Lemma find_by_name_loop_first resources name item :
  find_by_name_loop resources name = Some item ↔ first_named resources name item.
Proof.
  unfold first_named. induction resources as [|r rs IH]; simpl.
  - split; [done|]. intros (before & after & Heq & _). by destruct before.
  - destruct (String.eqb_spec (gr_name r) name) as [Hr|Hr].
    + split.
      * intros [= ->]. exists [], rs. split; [done|]. split; [done|]. constructor.
      * intros (before & after & Heq & Hname & Hbefore).
        destruct before as [|r' before]; simplify_eq/=; [done|].
        by inversion Hbefore.
    + rewrite IH. split.
      * intros (before & after & -> & Hname & Hbefore).
        exists (r :: before), after. split; [done|]. split; [done|]. by constructor.
      * intros (before & after & Heq & Hname & Hbefore).
        destruct before as [|r' before]; simplify_eq/=.
        exists before, after. split; [done|]. split; [done|]. by inversion Hbefore.
Qed.

Lemma find_by_name_loop_none resources name :
  find_by_name_loop resources name = None
  ↔ Forall (λ resource, gr_name resource ≠ name) resources.
Proof.
  induction resources as [|r rs IH]; simpl; [done|].
  destruct (String.eqb_spec (gr_name r) name) as [Hr|Hr].
  - split; [done|]. by inversion 1.
  - rewrite IH. split; [by constructor | by inversion 1].
Qed.

(** X9: [find_by_name] returns the first resource of the list that has the
    name asked for, and raises a [GophishError] that names the resource and
    lists what is available exactly when no resource has that name; it sends
    no request and writes nothing. *)
Theorem find_by_name_first (resources : list GophishResource) (name : string) (w : World) :
  (∀ item, find_by_name resources name w = (Next item, w)
           ↔ first_named resources name item)
  ∧ (find_by_name resources name w
     = (Raised (GophishError ("Resource '" +:+ name +:+ "' not found. Available: "
                              +:+ available_names resources)), w)
     ↔ Forall (λ resource, gr_name resource ≠ name) resources)
  ∧ (find_by_name resources name w).2 = w.
Proof.
  unfold find_by_name. split; [|split].
  - intros item. rewrite <- find_by_name_loop_first.
    destruct (find_by_name_loop resources name); unfold pure, raise;
      split; intros [=]; by subst.
  - rewrite <- find_by_name_loop_none.
    destruct (find_by_name_loop resources name); unfold pure, raise; split; done.
  - by destruct (find_by_name_loop resources name).
Qed.

Lemma rstrip_slashes n : rstrip_slash (slashes n) = "".
Proof. induction n as [|n IH]; [done|]. simpl. by rewrite IH. Qed.

Lemma rstrip_append_slashes s n : rstrip_slash (s +:+ slashes n) = rstrip_slash s.
Proof.
  induction s as [|c s IH].
  - apply rstrip_slashes.
  - change (String c s +:+ slashes n) with (String c (s +:+ slashes n)).
    simpl. by rewrite IH.
Qed.

Lemma rstrip_decompose s : ∃ n, s = rstrip_slash s +:+ slashes n.
Proof.
  induction s as [|c s [n IH]]; [by exists 0%nat|]. simpl.
  destruct (rstrip_slash s) as [|c' kept] eqn:Hs.
  - destruct (Ascii.eqb_spec c "/") as [->|Hc].
    + exists (S n). by rewrite IH.
    + exists n. by rewrite IH.
  - exists n. by rewrite IH at 1.
Qed.

Lemma rstrip_no_slash s : ends_with "/" (rstrip_slash s) = false.
Proof.
  induction s as [|c s IH]; [done|]. simpl.
  destruct (rstrip_slash s) as [|c' kept] eqn:Hs.
  - destruct (Ascii.eqb_spec c "/") as [->|Hc]; [done|].
    simpl. by apply Ascii.eqb_neq.
  - done.
Qed.

(** X10: the base URL of a client is the one given without its trailing
    slashes, however many there are, so that the request URL, the base then
    [/api] then the path, is the same with and without them and has no
    slash before [/api]. *)
Theorem request_url_without_trailing_slashes
    (base_url api_key : string) (timeout : Z) (verify_tls : bool) (path : string) :
  let client := new_client base_url api_key timeout verify_tls in
  (∃ n, base_url = client_base_url client +:+ slashes n)
  ∧ ends_with "/" (client_base_url client) = false
  ∧ (∀ n, request_url (new_client (base_url +:+ slashes n) api_key timeout verify_tls) path
          = request_url client path)
  ∧ client_base_url (new_client (client_base_url client) api_key timeout verify_tls)
    = client_base_url client.
Proof.
  cbv zeta. unfold request_url, new_client. cbn [client_base_url].
  split; [apply rstrip_decompose|]. split; [apply rstrip_no_slash|].
  split; [intros n; by rewrite rstrip_append_slashes|].
  destruct (rstrip_decompose base_url) as [n Hn].
  rewrite Hn at 2. by rewrite rstrip_append_slashes.
Qed.

End ClientFacts.

(** ** Metrics, rows and exports together *)

Section Reports.

Lemma metrics_ext (m m' : CampaignMetrics) :
  total_recipients m = total_recipients m' → opened m = opened m' →
  clicked m = clicked m' → open_rate m = open_rate m' → click_rate m = click_rate m' →
  m = m'.
Proof. destruct m, m'. simpl. by intros -> -> -> -> ->. Qed.

Lemma unique_ids_Permutation (events events' : list Event) event_type :
  events ≡ₚ events' → _unique_ids events event_type = _unique_ids events' event_type.
Proof.
  intros Hperm. unfold _unique_ids. apply list_to_set_perm_L.
  by rewrite Hperm.
Qed.

Lemma occurrences_Permutation c c' event_type :
  c_results c ≡ₚ c_results c' → occurrences c event_type = occurrences c' event_type.
Proof.
  unfold occurrences. generalize (c_results c) (c_results c'). intros rs rs' Hperm.
  induction Hperm as [|r rs1 rs2 _ IH|r r' rs1|rs1 rs2 rs3 _ IH1 _ IH2];
    rewrite ?fmap_cons; cbn [sum_list sum_list_with] in *; [done|lia|lia|congruence].
Qed.

(** X11: the metrics do not depend on the order in which the server lists
    the recipients: two payloads whose results are a permutation of each
    other get the same totals, counts and rates, in unique and in raw
    mode. *)
Theorem compute_metrics_order_independent (c c' : Campaign) (uo uc : bool) :
  c_results c ≡ₚ c_results c' →
  compute_metrics c uo uc = compute_metrics c' uo uc.
Proof.
  intros Hperm.
  destruct (compute_metrics_fields c uo uc) as (m & -> & Ht & Ho & Hc & Hor & Hcr).
  destruct (compute_metrics_fields c' uo uc) as (m' & -> & Ht' & Ho' & Hc' & Hor' & Hcr').
  assert (collect_events (c_results c) ≡ₚ collect_events (c_results c')) as Hev
    by (rewrite !collect_events_join; by rewrite Hperm).
  assert (total_recipients m = total_recipients m') as Htotal
    by (rewrite Ht, Ht'; by apply Permutation_length).
  assert (opened m = opened m') as Hopened.
  { rewrite Ho, Ho'. destruct uo.
    - by rewrite (unique_ids_Permutation _ _ _ Hev).
    - by apply occurrences_Permutation. }
  assert (clicked m = clicked m') as Hclicked.
  { rewrite Hc, Hc'. destruct uc.
    - by rewrite (unique_ids_Permutation _ _ _ Hev).
    - by apply occurrences_Permutation. }
  f_equal. apply metrics_ext; try done.
  - by rewrite Hor, Hor', Hopened, Htotal.
  - by rewrite Hcr, Hcr', Hclicked, Htotal.
Qed.

Lemma compute_metrics_order_independent_witness :
  compute_metrics
    (mkCampaign None None (c_results repeated_opening)) true false
  = compute_metrics
      (mkCampaign None None (reverse (c_results repeated_opening))) true false.
Proof.
  apply compute_metrics_order_independent. simpl. apply Permutation_swap.
Defined.

Lemma unique_ids_own c event_type :
  own_email c →
  _unique_ids (collect_events (c_results c)) event_type
  ⊆ list_to_set ((λ result, py_str (res_email result)) <$> c_results c).
Proof.
  intros Hown a. unfold _unique_ids.
  rewrite !elem_of_list_to_set, !list_elem_of_fmap.
  intros (event & -> & Hin). apply list_elem_of_filter in Hin as [Hp Hin].
  apply andb_prop_elim in Hp as [_ Hm]. apply Is_true_true in Hm.
  rewrite collect_events_join in Hin. apply event_of_join in Hin as (result & Hr & He).
  exists result. split; [|done]. by rewrite (Hown result event Hr He Hm).
Qed.

Lemma unique_count_le_total c event_type :
  own_email c →
  (size (_unique_ids (collect_events (c_results c)) event_type) ≤ length (c_results c))%nat.
Proof.
  intros Hown. etrans; [apply subseteq_size, unique_ids_own, Hown|].
  etrans; [apply size_list_to_set_le|]. by rewrite length_fmap.
Qed.

Lemma bounded_rate (count total : nat) :
  (count ≤ total)%nat →
  ((if bool_decide (total ≠ 0%nat) then percentage count total else 0) <= 100)%Q.
Proof.
  intros Hle. case_bool_decide as Hz; [|done].
  apply percentage_le_100; [lia | done].
Qed.

(** X12: when every event that carries an address carries the one of the
    result it is listed under, a count taken in unique mode is at most the
    number of recipients and its rate at most 100. *)
Theorem unique_counts_bounded (c : Campaign) (uo uc : bool) (m : CampaignMetrics) :
  own_email c →
  compute_metrics c uo uc = Ok m →
  (uo = true → (opened m ≤ total_recipients m)%nat ∧ (open_rate m <= 100)%Q)
  ∧ (uc = true → (clicked m ≤ total_recipients m)%nat ∧ (click_rate m <= 100)%Q).
Proof.
  intros Hown Hm.
  destruct (compute_metrics_fields c uo uc) as (m' & Hm' & Ht & Ho & Hc & Hor & Hcr).
  rewrite Hm in Hm'. injection Hm' as <-.
  split; intros ->.
  - assert (opened m ≤ total_recipients m)%nat as Hle
      by (rewrite Ho, Ht; by apply unique_count_le_total).
    split; [done|]. rewrite Hor. by apply bounded_rate.
  - assert (clicked m ≤ total_recipients m)%nat as Hle
      by (rewrite Hc, Ht; by apply unique_count_le_total).
    split; [done|]. rewrite Hcr. by apply bounded_rate.
Qed.

Lemma repeated_opening_own : own_email repeated_opening.
Proof.
  intros result event Hr He _. unfold repeated_opening in Hr. simpl in Hr.
  repeat (apply elem_of_cons in Hr as [->|Hr]); [| |by apply elem_of_nil in Hr]; simpl in *.
  - repeat (apply elem_of_cons in He as [->|He]); try done. by apply elem_of_nil in He.
  - by apply elem_of_nil in He.
Qed.

Lemma unique_counts_bounded_witness :
  ∃ m, compute_metrics repeated_opening true true = Ok m
       ∧ (opened m ≤ total_recipients m)%nat ∧ (open_rate m <= 100)%Q.
Proof.
  destruct (compute_metrics repeated_opening true true) as [m|e] eqn:Hm; [|by vm_compute in Hm].
  exists m. split; [done|].
  apply (unique_counts_bounded repeated_opening true true m repeated_opening_own Hm).
  done.
Defined.

Lemma timed_le_typed (events : list Event) event_type :
  (length (_extract_event_times events event_type)
   ≤ length (filter (λ event, ev_type event = Some event_type) events))%nat.
Proof.
  unfold _extract_event_times. rewrite length_fmap, <- type_is_filter.
  induction events as [|e l IH]; [done|].
  destruct (type_is event_type e) eqn:Ht.
  - rewrite (filter_cons_True (λ x, type_is event_type x)) by (by rewrite Ht).
    destruct (truthy (ev_time e)) eqn:Hm.
    + rewrite filter_cons_True by (by rewrite Ht, Hm). simpl. lia.
    + rewrite filter_cons_False by (by rewrite Ht, Hm; intros []). simpl. lia.
  - rewrite !filter_cons_False by (by rewrite Ht; intros []). done.
Qed.

Lemma timed_eq_typed (events : list Event) event_type :
  (∀ event, event ∈ events → ev_type event = Some event_type →
            truthy (ev_time event) = true) →
  length (_extract_event_times events event_type)
  = length (filter (λ event, ev_type event = Some event_type) events).
Proof.
  intros Hall. unfold _extract_event_times. rewrite length_fmap, <- type_is_filter.
  induction events as [|e l IH]; [done|].
  assert (∀ event, event ∈ l → ev_type event = Some event_type →
                   truthy (ev_time event) = true) as Hrest
    by (intros event He; apply Hall; by apply list_elem_of_further).
  destruct (type_is event_type e) eqn:Ht.
  - assert (truthy (ev_time e) = true) as Hm.
    { apply Hall; [apply list_elem_of_here|]. unfold type_is in Ht.
      by apply bool_decide_eq_true in Ht. }
    rewrite (filter_cons_True (λ x, type_is event_type x)) by (by rewrite Ht).
    rewrite filter_cons_True by (by rewrite Ht, Hm). simpl. by rewrite IH.
  - rewrite !filter_cons_False by (by rewrite Ht; intros []). by apply IH.
Qed.

Lemma rows_count_sum c (count : RecipientRow → nat) event_type :
  (∀ cn cs result,
     count (build_row cn cs result)
     = length (_extract_event_times (res_events result) event_type)) →
  (sum_list (count <$> build_recipient_rows c) ≤ occurrences c event_type)%nat
  ∧ (all_timed c event_type →
     sum_list (count <$> build_recipient_rows c) = occurrences c event_type).
Proof.
  intros Hcount. rewrite build_recipient_rows_fmap, <- list_fmap_compose.
  unfold occurrences, all_timed, event_of.
  induction (c_results c) as [|r rs IH]; [done|].
  rewrite !fmap_cons. cbn [sum_list sum_list_with]. unfold compose at 1 3.
  rewrite Hcount. destruct IH as [IHle IHeq]. split.
  - pose proof (timed_le_typed (res_events r) event_type). simpl in *. lia.
  - intros Hall. rewrite timed_eq_typed.
    + simpl in *. rewrite IHeq; [done|]. intros event (result & Hr & He).
      apply Hall. exists result. split; [by apply list_elem_of_further | done].
    + intros event He. apply Hall. exists r. split; [apply list_elem_of_here | done].
Qed.

Lemma truthy_lacks v : truthy v = negb (bool_decide (v = None ∨ v = Some "")).
Proof.
  unfold truthy. case_bool_decide as Hv.
  - by destruct Hv as [-> | ->].
  - destruct v as [s|]; [|by destruct Hv; left].
    destruct (String.eqb_spec s "") as [->|Hs]; [by destruct Hv; right | done].
Qed.

Lemma timed_plus_untimed (events : list Event) event_type :
  (length (_extract_event_times events event_type)
   + length (filter (λ event, lacks_time event_type event = true) events))%nat
  = length (filter (λ event, ev_type event = Some event_type) events).
Proof.
  unfold _extract_event_times. rewrite length_fmap, <- type_is_filter.
  induction events as [|e l IH]; [done|].
  assert (lacks_time event_type e = type_is event_type e && negb (truthy (ev_time e)))
    as Hlacks by (unfold lacks_time, type_is; by rewrite truthy_lacks, negb_involutive).
  destruct (type_is event_type e) eqn:Ht.
  - rewrite (filter_cons_True (λ x, type_is event_type x)) by (by rewrite Ht).
    destruct (truthy (ev_time e)) eqn:Hm.
    + rewrite (filter_cons_True (λ x, type_is event_type x && truthy (ev_time x)))
        by (by rewrite Ht, Hm).
      rewrite (filter_cons_False (λ x, lacks_time event_type x = true))
        by (by rewrite Hlacks).
      simpl. lia.
    + rewrite (filter_cons_False (λ x, type_is event_type x && truthy (ev_time x)))
        by (by rewrite Ht, Hm; intros []).
      rewrite (filter_cons_True (λ x, lacks_time event_type x = true))
        by (by rewrite Hlacks).
      simpl. lia.
  - rewrite (filter_cons_False (λ x, type_is event_type x)) by (by rewrite Ht; intros []).
    rewrite (filter_cons_False (λ x, type_is event_type x && truthy (ev_time x)))
      by (by rewrite Ht; intros []).
    rewrite (filter_cons_False (λ x, lacks_time event_type x = true))
      by (by rewrite Hlacks).
    done.
Qed.

Lemma rows_count_untimed c (count : RecipientRow → nat) event_type :
  (∀ cn cs result,
     count (build_row cn cs result)
     = length (_extract_event_times (res_events result) event_type)) →
  (sum_list (count <$> build_recipient_rows c) + untimed c event_type)%nat
  = occurrences c event_type.
Proof.
  intros Hcount. rewrite build_recipient_rows_fmap, <- list_fmap_compose.
  unfold occurrences, untimed.
  induction (c_results c) as [|r rs IH]; [done|].
  rewrite !fmap_cons. cbn [sum_list sum_list_with]. unfold compose at 1.
  rewrite Hcount. pose proof (timed_plus_untimed (res_events r) event_type).
  simpl in *. lia.
Qed.

(** X13: the exported rows count the events that have a time value, the
    report counts them all: the sum of [open_count] (resp. [click_count])
    over the rows, plus the number of "Opened Email" (resp. "Clicked Link")
    events that have no time value, is [opened] (resp. [clicked]) in raw
    mode.  So the rows never add up to more than the report, they add up to
    it when every such event has a time value, and an event without one is
    in the report and in no row: the recipient with three openings, one of
    them without time, has 3 in the report and 2 in the row. *)
Theorem row_counts_vs_raw_metrics (c : Campaign) :
  ∃ m, compute_metrics c false false = Ok m
       ∧ (sum_list (open_count <$> build_recipient_rows c)
          + untimed c "Opened Email")%nat = opened m
       ∧ (sum_list (click_count <$> build_recipient_rows c)
          + untimed c "Clicked Link")%nat = clicked m
       ∧ (sum_list (open_count <$> build_recipient_rows c) ≤ opened m)%nat
       ∧ (sum_list (click_count <$> build_recipient_rows c) ≤ clicked m)%nat
       ∧ (all_timed c "Opened Email" →
          sum_list (open_count <$> build_recipient_rows c) = opened m)
       ∧ (all_timed c "Clicked Link" →
          sum_list (click_count <$> build_recipient_rows c) = clicked m)
       ∧ ∃ busy, compute_metrics busy_recipient false false = Ok busy
                 ∧ opened busy = 3%nat
                 ∧ untimed busy_recipient "Opened Email" = 1%nat
                 ∧ open_count <$> build_recipient_rows busy_recipient = [2%nat].
Proof.
  destruct (compute_metrics_fields c false false) as (m & Hm & _ & Ho & Hc & _).
  exists m. split; [done|]. rewrite Ho, Hc.
  destruct (rows_count_sum c open_count "Opened Email") as [Hole Hoeq]; [done|].
  destruct (rows_count_sum c click_count "Clicked Link") as [Hcle Hceq]; [done|].
  pose proof (rows_count_untimed c open_count "Opened Email") as Hou.
  pose proof (rows_count_untimed c click_count "Clicked Link") as Hcu.
  split; [by apply Hou|]. split; [by apply Hcu|].
  do 4 (split; [done|]).
  eexists. split; [vm_compute; reflexivity|]. by vm_compute.
Qed.

Lemma export_csv_files rows path fs :
  writable fs path = true →
  export_csv rows path fs
  = Ok (mkFileSystem (<[path := csv_text rows]> (files fs)) (writable fs)).
Proof.
  intros Hw. unfold export_csv, open_w. rewrite Hw. simpl. f_equal.
  set (fs1 := writeheader _ _).
  assert (files fs1 !! path = Some (writerow fieldnames)) as Hheader.
  { unfold fs1, writeheader, write. cbn [files]. rewrite lookup_alter_eq.
    by rewrite lookup_insert_eq. }
  assert (∀ p, p ≠ path → files fs1 !! p = files fs !! p) as Hother.
  { intros p Hp. unfold fs1, writeheader, write. cbn [files].
    rewrite lookup_alter_ne by done. by rewrite lookup_insert_ne. }
  assert (writable (writerows path rows fs1) = writable fs) as Hwr
    by (by rewrite writerows_writable).
  destruct (writerows path rows fs1) as [content wr] eqn:Hrows. simpl in Hwr. subst wr.
  f_equal. apply map_eq. intros p.
  replace content with (files (writerows path rows fs1)) by (by rewrite Hrows).
  destruct (decide (p = path)) as [->|Hp].
  - rewrite lookup_insert_eq. by rewrite (writerows_content path rows fs1 _ Hheader).
  - rewrite lookup_insert_ne by done. rewrite writerows_other by done. by apply Hother.
Qed.

(** X14: an export replaces the file: exporting [rows'] after [rows] to
    the same writable path leaves exactly the files that exporting [rows']
    alone leaves, and exporting the same rows twice changes nothing the
    second time. *)
Theorem export_csv_overwrites (rows rows' : list RecipientRow) (path : string)
    (fs : FileSystem) :
  writable fs path = true →
  ∃ fs1 fs2,
    export_csv rows path fs = Ok fs1
    ∧ export_csv rows' path fs1 = Ok fs2
    ∧ export_csv rows' path fs = Ok fs2
    ∧ export_csv rows' path fs2 = Ok fs2.
Proof.
  intros Hw.
  exists (mkFileSystem (<[path := csv_text rows]> (files fs)) (writable fs)),
         (mkFileSystem (<[path := csv_text rows']> (files fs)) (writable fs)).
  rewrite !export_csv_files by done. cbn [files writable].
  rewrite !insert_insert_eq. done.
Qed.

Lemma export_csv_overwrites_witness :
  ∃ fs1 fs2,
    export_csv [tricky_row] "out.csv" sample_files = Ok fs1
    ∧ export_csv [] "out.csv" fs1 = Ok fs2
    ∧ export_csv [] "out.csv" sample_files = Ok fs2
    ∧ export_csv [] "out.csv" fs2 = Ok fs2.
Proof. apply (export_csv_overwrites [tricky_row] [] "out.csv" sample_files). reflexivity. Defined.

End Reports.

(** ** The paths of a run *)

Section Runs.

#[local] Arguments export_csv : simpl never.
#[local] Arguments compute_metrics : simpl never.
#[local] Arguments build_recipient_rows : simpl never.
#[local] Arguments truthy : simpl never.
#[local] Arguments py_str : simpl never.
#[local] Arguments orb : simpl never.
#[local] Arguments _build_campaign_payload : simpl never.

(** X15: when the configuration does not load, nothing else happens: a
    [ConfigError] is written to the standard error after [Config error: ]
    and the run returns 1; any other exception leaves [run] as it is, with
    nothing written.  No request is sent and no file touched. *)
Theorem run_config_error env fuel args files e :
  load_config env (args_config args) = Raise e →
  run env fuel args (start files)
  = match e with
    | ConfigError exc =>
        (Return 1%Z, mkWorld [PrintErr ("Config error: " +:+ exc)] files 0)
    | _ => (Raised e, start files)
    end.
Proof.
  intros Hload. unfold run, bind, try_except_ConfigError. rewrite Hload.
  by destruct e.
Qed.

Lemma run_config_error_witness :
  run (mkEnvironment (λ _, Raise (ConfigError "api_key is required"))
         (groups_reply sample_env) (templates_reply sample_env) (pages_reply sample_env)
         (sending_profiles_reply sample_env) (create_reply sample_env)
         (campaign_reply sample_env))
      3 launch_args (start sample_files)
  = (Return 1%Z, mkWorld [PrintErr "Config error: api_key is required"] sample_files 0).
Proof.
  exact (run_config_error
           (mkEnvironment (λ _, Raise (ConfigError "api_key is required"))
              (groups_reply sample_env) (templates_reply sample_env) (pages_reply sample_env)
              (sending_profiles_reply sample_env) (create_reply sample_env)
              (campaign_reply sample_env))
           3 launch_args sample_files (ConfigError "api_key is required") eq_refl).
Defined.

(** X16: in report-only mode a missing [--campaign-id], or the id 0, ends
    the run with exit code 1 and the one line that asks for it; no request
    is sent, whatever the configuration and the other arguments are. *)
Theorem report_only_requires_campaign_id env fuel args files config :
  load_config env (args_config args) = Ok config →
  args_report_only args = true →
  args_campaign_id args = None ∨ args_campaign_id args = Some 0%Z →
  run env fuel args (start files)
  = (Return 1%Z,
     mkWorld [PrintErr "--campaign-id is required in report-only mode"] files 0).
Proof.
  intros Hload Hro Hid. unfold run, bind, try_except_ConfigError, _enforce_safety.
  rewrite Hload, Hro. simpl. by destruct Hid as [-> | ->].
Qed.

Lemma report_only_requires_campaign_id_witness :
  run sample_env 3
      (mkArgs "config.yaml" false true (Some 0%Z) (Some "out.csv") 5 2 "")
      (start sample_files)
  = (Return 1%Z,
     mkWorld [PrintErr "--campaign-id is required in report-only mode"] sample_files 0).
Proof.
  apply (report_only_requires_campaign_id sample_env 3
           (mkArgs "config.yaml" false true (Some 0%Z) (Some "out.csv") 5 2 "")
           sample_files sample_config); [reflexivity | reflexivity | right; reflexivity].
Defined.

Lemma find_by_name_found resources name item w :
  first_named resources name item → find_by_name resources name w = (Next item, w).
Proof.
  intros Hfirst. apply find_by_name_loop_first in Hfirst.
  unfold find_by_name. by rewrite Hfirst.
Qed.

Lemma build_payload_resolved env config group template page sending_profile w :
  resolved env config group template page sending_profile →
  _build_campaign_payload env config w
  = (Next (launch_payload config group template page sending_profile),
     mkWorld (trace w ++ listings) (fs w) (fetches w)).
Proof.
  intros (gs & ts & ps & ss & Hgs & Hts & Hps & Hss & Hg & Ht & Hp & Hs).
  unfold _build_campaign_payload, list_groups, list_templates, list_pages,
    list_sending_profiles, bind, log.
  rewrite Hgs, Hts, Hps, Hss. simpl.
  rewrite (find_by_name_found _ _ _ _ Hg). simpl.
  rewrite (find_by_name_found _ _ _ _ Ht). simpl.
  rewrite (find_by_name_found _ _ _ _ Hp). simpl.
  rewrite (find_by_name_found _ _ _ _ Hs). simpl.
  unfold pure, launch_payload, listings. rewrite <- !app_assoc. simpl.
  do 3 f_equal. unfold truthy. by destruct (launch_date (campaign config)) as [[|]|].
Qed.

(** X17: a dry run (by [--dry-run] or by the configuration) on a server
    that has the four configured resources sends the four listing requests
    in the order groups, templates, pages, sending profiles, prints the plan
    and returns 0; nothing is created.  The plan names the first resource of
    each listing that has the configured name, passes their ids on, and has
    no launch date when the configured one is absent or empty.  Neither
    [allow_live_send] nor [--confirm] matters. *)
Theorem dry_run_plan env fuel args files config group template page sending_profile :
  load_config env (args_config args) = Ok config →
  args_report_only args = false →
  args_dry_run args || dry_run config = true →
  resolved env config group template page sending_profile →
  run env fuel args (start files)
  = (Return 0%Z,
     mkWorld (listings
              ++ [Print (DryRunPlan
                           (launch_payload config group template page sending_profile))])
             files 0).
Proof.
  intros Hload Hro Hdry Hres.
  unfold run, bind, try_except_ConfigError, try_except_GophishError, _enforce_safety.
  rewrite Hload. simpl. rewrite Hro, Hdry. simpl.
  rewrite (build_payload_resolved _ _ _ _ _ _ _ Hres). done.
Qed.

Lemma sample_resolved :
  resolved sample_env sample_config (mkResource 1 "staff") (mkResource 2 "invoice")
           (mkResource 3 "login") (mkResource 4 "smtp").
Proof.
  exists [mkResource 1 "staff"], [mkResource 2 "invoice"], [mkResource 3 "login"],
         [mkResource 4 "smtp"].
  repeat (split; [reflexivity|]).
  repeat split; exists [], []; (split; [reflexivity|]); (split; [reflexivity|]); constructor.
Qed.

Lemma dry_run_plan_witness :
  run sample_env 3 launch_args (start sample_files)
  = (Return 0%Z,
     mkWorld (listings
              ++ [Print (DryRunPlan
                           (launch_payload sample_config (mkResource 1 "staff")
                              (mkResource 2 "invoice") (mkResource 3 "login")
                              (mkResource 4 "smtp")))])
             sample_files 0).
Proof.
  apply (dry_run_plan sample_env 3 launch_args sample_files sample_config);
    [reflexivity | reflexivity | reflexivity | exact sample_resolved].
Defined.

(** X18: a confirmed live run (no dry run, [allow_live_send] set, the exact
    phrase) on a server that has the four resources sends the four listing
    requests and then exactly one creation request with the payload of the
    plan.  If the server accepts it the run prints the id and the hint and
    returns 0; a [GophishError] is written after [Failed to create
    campaign: ] and the run returns 1; another exception is not handled.
    The creation is never tried again. *)
Theorem live_launch env fuel args files config group template page sending_profile :
  load_config env (args_config args) = Ok config →
  args_report_only args = false →
  args_dry_run args || dry_run config = false →
  allow_live_send config = true →
  args_confirm args = CONFIRM_PHRASE →
  resolved env config group template page sending_profile →
  let payload := launch_payload config group template page sending_profile in
  run env fuel args (start files)
  = match create_reply env payload with
    | Ok created =>
        (Return 0%Z,
         mkWorld (listings ++ [CreateCampaign payload; Print (CampaignCreated created);
                               Print UseReportOnly]) files 0)
    | Raise (GophishError exc) =>
        (Return 1%Z,
         mkWorld (listings ++ [CreateCampaign payload;
                               PrintErr ("Failed to create campaign: " +:+ exc)]) files 0)
    | Raise e => (Raised e, mkWorld (listings ++ [CreateCampaign payload]) files 0)
    end.
Proof.
  intros Hload Hro Hdry Hlive Hconfirm Hres payload.
  unfold run, bind, try_except_ConfigError, try_except_GophishError, _enforce_safety.
  rewrite Hload. simpl. rewrite Hro, Hdry, Hlive, Hconfirm, String.eqb_refl. simpl.
  rewrite (build_payload_resolved _ _ _ _ _ _ _ Hres). fold payload.
  unfold create_campaign, bind, log. simpl.
  destruct (create_reply env payload) as [created|e]; simpl; [done|].
  by destruct e.
Qed.

Lemma live_resolved :
  resolved live_env live_config (mkResource 1 "staff") (mkResource 2 "invoice")
           (mkResource 3 "login") (mkResource 4 "smtp").
Proof.
  exists [mkResource 1 "staff"], [mkResource 2 "invoice"], [mkResource 3 "login"],
         [mkResource 4 "smtp"].
  repeat (split; [reflexivity|]).
  repeat split; exists [], []; (split; [reflexivity|]); (split; [reflexivity|]); constructor.
Qed.

Lemma live_launch_witness :
  let payload := launch_payload live_config (mkResource 1 "staff") (mkResource 2 "invoice")
                   (mkResource 3 "login") (mkResource 4 "smtp") in
  run live_env 3 live_args (start sample_files)
  = (Return 0%Z,
     mkWorld (listings ++ [CreateCampaign payload; Print (CampaignCreated (Some 7%Z));
                           Print UseReportOnly]) sample_files 0).
Proof.
  apply (live_launch live_env 3 live_args sample_files live_config);
    [reflexivity | reflexivity | reflexivity | reflexivity | reflexivity
    | exact live_resolved].
Defined.

Lemma lookup_error_found resources name :
  existsb (λ resource, String.eqb (gr_name resource) name) resources = true →
  ∃ item, find_by_name_loop resources name = Some item.
Proof.
  induction resources as [|r rs IH]; simpl; [done|].
  destruct (String.eqb (gr_name r) name); simpl; [by exists r | done].
Qed.

Lemma lookup_error_missing resources name :
  existsb (λ resource, String.eqb (gr_name resource) name) resources = false →
  find_by_name_loop resources name = None.
Proof.
  induction resources as [|r rs IH]; simpl; [done|].
  destruct (String.eqb (gr_name r) name); simpl; [done | done].
Qed.

Lemma lookup_passes {B} a reply name (k : GophishResource → Proc B) w :
  lookup_error reply name = None →
  ∃ item,
    bind (bind (log a) (λ _, lift reply)) (λ resources, bind (find_by_name resources name) k) w
    = k item (mkWorld (trace w ++ [a]) (fs w) (fetches w)).
Proof.
  unfold lookup_error. destruct reply as [resources|e]; [|done].
  destruct (existsb _ resources) eqn:Hfound; [|done]. intros _.
  apply lookup_error_found in Hfound as [item Hitem]. exists item.
  unfold bind, log, lift, find_by_name. simpl. by rewrite Hitem.
Qed.

Lemma lookup_fails {B} a reply name (k : GophishResource → Proc B) w e :
  lookup_error reply name = Some e →
  bind (bind (log a) (λ _, lift reply)) (λ resources, bind (find_by_name resources name) k) w
  = (Raised e, mkWorld (trace w ++ [a]) (fs w) (fetches w)).
Proof.
  unfold lookup_error. destruct reply as [resources|e'].
  - destruct (existsb _ resources) eqn:Hfound; [done|]. intros [= <-].
    apply lookup_error_missing in Hfound.
    unfold bind, log, lift, find_by_name. simpl. by rewrite Hfound.
  - intros [= <-]. done.
Qed.

Lemma build_payload_fails env config before a e after w :
  lookups env config = before ++ (a, Some e) :: after →
  Forall (λ lookup, lookup.2 = None) before →
  _build_campaign_payload env config w
  = (Raised e, mkWorld (trace w ++ before.*1 ++ [a]) (fs w) (fetches w)).
Proof.
  intros Hlookups Hbefore. unfold lookups in Hlookups.
  unfold _build_campaign_payload, list_groups, list_templates, list_pages,
    list_sending_profiles.
  destruct before as [|[a1 e1] before]; simplify_eq/=.
  { by rewrite (lookup_fails _ _ _ _ _ e). }
  apply list.Forall_cons in Hbefore as [Hpass Hbefore]. simpl in Hpass.
  edestruct (lookup_passes (B := Payload) ListGroups) as [group ->]; [done|].
  destruct before as [|[a2 e2] before]; simplify_eq/=.
  { rewrite (lookup_fails _ _ _ _ _ e) by done. simpl. by rewrite <- app_assoc. }
  apply list.Forall_cons in Hbefore as [Hpass2 Hbefore]. simpl in Hpass2.
  edestruct (lookup_passes (B := Payload) ListTemplates) as [template ->]; [done|].
  destruct before as [|[a3 e3] before]; simplify_eq/=.
  { rewrite (lookup_fails _ _ _ _ _ e) by done. simpl. by rewrite <- !app_assoc. }
  apply list.Forall_cons in Hbefore as [Hpass3 Hbefore]. simpl in Hpass3.
  edestruct (lookup_passes (B := Payload) ListPages) as [page ->]; [done|].
  destruct before as [|[a4 e4] before]; simplify_eq/=.
  { rewrite (lookup_fails _ _ _ _ _ e) by done. simpl. by rewrite <- !app_assoc. }
  by destruct before.
Qed.

(** X19: the resources are looked up in the order groups, templates, pages,
    sending profiles, and the first lookup that goes wrong (the listing
    fails, or has no resource of the configured name) ends the launch: the
    later listings are not requested, nothing is created, and a
    [GophishError] is written after [Failed to resolve campaign
    resources: ] with exit code 1, in a dry run as in a live one. *)
Theorem resolution_failure env fuel args files config before a e after :
  load_config env (args_config args) = Ok config →
  _enforce_safety config args = Ok () →
  args_report_only args = false →
  lookups env config = before ++ (a, Some e) :: after →
  Forall (λ lookup, lookup.2 = None) before →
  run env fuel args (start files)
  = match e with
    | GophishError exc =>
        (Return 1%Z,
         mkWorld (before.*1
                  ++ [a; PrintErr ("Failed to resolve campaign resources: " +:+ exc)])
                 files 0)
    | _ => (Raised e, mkWorld (before.*1 ++ [a]) files 0)
    end.
Proof.
  intros Hload Hsafe Hro Hlookups Hbefore.
  unfold run, bind, try_except_ConfigError, try_except_GophishError.
  rewrite Hload. simpl. rewrite Hsafe, Hro. simpl.
  rewrite (build_payload_fails _ _ _ _ _ _ _ Hlookups Hbefore). simpl.
  destruct e; try done. unfold bind, print_err, log. simpl.
  by rewrite <- app_assoc.
Qed.

Lemma resolution_failure_witness :
  run pageless_env 3 launch_args (start sample_files)
  = (Return 1%Z,
     mkWorld [ListGroups; ListTemplates; ListPages;
              PrintErr "Failed to resolve campaign resources: Resource 'login' not found. Available: other"]
             sample_files 0).
Proof.
  apply (resolution_failure pageless_env 3 launch_args sample_files sample_config
           [(ListGroups, None); (ListTemplates, None)] ListPages
           (GophishError "Resource 'login' not found. Available: other")
           [(ListSendingProfiles, None)]);
    [reflexivity | reflexivity | reflexivity | reflexivity|].
  repeat constructor.
Defined.

(** X20: with a positive [--poll-interval] a negative [--poll-count] is
    not read as 0: the run makes one cycle and returns 0 without sleeping,
    whatever the status of the campaign. *)
Theorem negative_poll_count_polls_once env args files config id c fuel :
  reporting_run env args files config id →
  (0 < args_poll_interval args)%Z →
  (args_poll_count args < 0)%Z →
  campaign_reply env 0 id = Ok c →
  ∃ w, run env (S fuel) args (start files) = (Return 0%Z, w)
       ∧ trace w = cycle config args id c
       ∧ fetches w = 1%nat.
Proof.
  intros Hrun Hiv Hcount Hc.
  rewrite (run_reporting env args files config id (S fuel) Hrun).
  destruct Hrun as (_ & _ & _ & _ & Hw).
  rewrite Z.max_l by lia.
  destruct (Z.eqb_spec (args_poll_interval args) 0) as [|_]; [lia|].
  destruct (poll_cycle_answered env config args id (args_poll_interval args)
              (args_poll_count args) (start files) c Hc Hw) as (files' & _ & Hcycle).
  unfold next_polls in Hcycle.
  destruct (Z.eqb_spec (args_poll_interval args) 0) as [|_]; [lia|].
  destruct (Z.eqb_spec (args_poll_count args) 0) as [|_]; [lia|].
  destruct (Z.leb_spec (args_poll_count args - 1) 0) as [_|]; [|lia].
  cbn [poll_loop]. unfold bind. rewrite Hcycle. cbv zeta. eexists. split; [reflexivity|]. done.
Qed.

Lemma negative_poll_count_polls_once_witness :
  ∃ w, run sample_env 3 (sample_args 5 (-2)) (start sample_files) = (Return 0%Z, w)
       ∧ trace w = cycle sample_config (sample_args 5 (-2)) 7 (sample_payload "In progress")
       ∧ fetches w = 1%nat.
Proof.
  apply (negative_poll_count_polls_once sample_env (sample_args 5 (-2)) sample_files
           sample_config 7 (sample_payload "In progress") 2);
    [apply sample_reporting_run | reflexivity | reflexivity | reflexivity].
Defined.

(** X21: [run] does not handle a failure to write the CSV file.  When the
    path cannot be opened for writing, the first cycle fetches and prints
    the report, the export raises [OSError], and the exception leaves [run]:
    no export notice, no sleep, no second fetch and no exit code, and the
    files are as they were. *)
Theorem unwritable_csv_raises env args files config id c path fuel :
  load_config env (args_config args) = Ok config →
  args_report_only args = true →
  args_campaign_id args = Some id → id ≠ 0%Z →
  args_csv_out args = Some path → path ≠ "" →
  writable files path = false →
  campaign_reply env 0 id = Ok c →
  ∃ m, compute_metrics c (unique_opens_only (reporting config))
                         (unique_clicks_only (reporting config)) = Ok m
       ∧ run env (S fuel) args (start files)
         = (Raised (OSError path),
            mkWorld [GetCampaign id true (Ok c); Print (Report c m);
                     ExportCsv path (build_recipient_rows c)] files 1).
Proof.
  intros Hload Hro Hid Hnz Hcsv Hpath Hw Hc.
  destruct (compute_metrics_fields c (unique_opens_only (reporting config))
              (unique_clicks_only (reporting config))) as (m & Hm & _).
  exists m. split; [done|].
  assert (run env (S fuel) args (start files)
          = poll_loop env (S fuel) config args id (Z.max (args_poll_interval args) 0)
              (if (Z.max (args_poll_interval args) 0 =? 0)%Z then 1%Z
               else args_poll_count args) (start files)) as ->.
  { unfold run, bind, try_except_ConfigError, _enforce_safety.
    rewrite Hload. simpl. rewrite Hro, Hid. simpl. by destruct id. }
  assert (truthy (args_csv_out args) = true) as Htruthy
    by (apply truthy_spec; by exists path).
  cbn [poll_loop]. unfold bind at 1, poll_cycle, bind at 1, try_except_GophishError,
    get_campaign. simpl. rewrite Hc. simpl.
  unfold bind at 1. rewrite Hm. simpl.
  unfold bind at 1, print, log. simpl.
  rewrite Htruthy. unfold bind at 1 2, export_csv_step. simpl.
  rewrite Hcsv. unfold py_str.
  unfold export_csv, open_w. rewrite Hw. done.
Qed.

Lemma unwritable_csv_raises_witness :
  ∃ m, compute_metrics (sample_payload "In progress") true true = Ok m
       ∧ run sample_env 3 (sample_args 5 2) (start read_only_files)
         = (Raised (OSError "out.csv"),
            mkWorld [GetCampaign 7 true (Ok (sample_payload "In progress"));
                     Print (Report (sample_payload "In progress") m);
                     ExportCsv "out.csv" (build_recipient_rows (sample_payload "In progress"))]
                    read_only_files 1).
Proof.
  apply (unwritable_csv_raises sample_env (sample_args 5 2) read_only_files sample_config 7
           (sample_payload "In progress") "out.csv" 2);
    [reflexivity | reflexivity | reflexivity | discriminate | reflexivity | discriminate
    | reflexivity | reflexivity].
Defined.

End Runs.

(** ** What every run does and leaves behind *)

Section Invariants.

#[local] Arguments export_csv : simpl never.
#[local] Arguments compute_metrics : simpl never.
#[local] Arguments build_recipient_rows : simpl never.
#[local] Arguments truthy : simpl never.
#[local] Arguments py_str : simpl never.
#[local] Arguments orb : simpl never.
#[local] Arguments _build_campaign_payload : simpl never.

Lemma emits_fail P {A} msg code :
  P (PrintErr msg) → emits P (bind (print_err msg) (λ _, @return_ A code)).
Proof.
  intros Herr. apply emits_bind; [by apply emits_log | intros _; apply emits_return].
Qed.

Lemma emits_poll_cycle P env config args id iv rem :
  (∀ reply, P (GetCampaign id true reply)) →
  (truthy (args_csv_out args) = true →
   (∀ rows, P (ExportCsv (py_str (args_csv_out args)) rows))
   ∧ P (Print (CsvExportUpdated (py_str (args_csv_out args))))) →
  (iv ≠ 0%Z → P (Sleep iv)) →
  (∀ c m, P (Print (Report c m))) →
  (∀ msg, P (PrintErr msg)) →
  emits P (poll_cycle env config args id iv rem).
Proof.
  intros Hfetch Hcsv Hsleep Hreport Herr. unfold poll_cycle.
  apply emits_bind.
  { apply emits_try_GophishError; [by apply emits_get_campaign|].
    intros exc. by apply emits_fail. }
  intros c. apply emits_bind; [apply emits_lift|]. intros m.
  apply emits_bind; [by apply emits_log|]. intros _.
  apply emits_bind.
  { destruct (truthy (args_csv_out args)); [|apply emits_pure].
    destruct (Hcsv eq_refl) as [Hexport Hnotice].
    apply emits_bind; [by apply emits_export | intros _; by apply emits_log]. }
  intros _.
  apply (emits_bind_when (λ _, iv ≠ 0%Z)).
  { intros w []. destruct (Z.eqb_spec iv 0); [done|]. done. }
  { destruct (iv =? 0)%Z; [apply emits_return | apply emits_pure]. }
  intros _ Hiv. apply emits_bind.
  { destruct (rem =? 0)%Z; [case_bool_decide|destruct (rem - 1 <=? 0)%Z];
      first [apply emits_return | apply emits_pure]. }
  intros rem'. apply emits_bind; [apply emits_sleep; by apply Hsleep|].
  intros _. apply emits_pure.
Qed.

Lemma emits_poll_loop_with P env config args id iv fuel :
  emits P (poll_cycle env config args id iv 0) →
  (∀ rem, emits P (poll_cycle env config args id iv rem)) →
  ∀ rem, emits P (poll_loop env fuel config args id iv rem).
Proof.
  intros _ Hcycle. induction fuel as [|fuel IH]; intros rem.
  - intros w. exists []. by rewrite app_nil_r.
  - cbn [poll_loop]. apply emits_bind; [apply Hcycle | done].
Qed.

Lemma run_action_err args msg : run_action args (PrintErr msg).
Proof. unfold run_action. by destruct (args_report_only args). Qed.

Lemma emits_run_action env fuel args : emits (run_action args) (run env fuel args).
Proof.
  pose proof (run_action_err args) as Herr.
  unfold run. apply emits_bind.
  { apply emits_try_ConfigError; [apply emits_lift|]. intros exc. by apply emits_fail. }
  intros config. apply emits_bind.
  { apply emits_try_ConfigError; [apply emits_lift|]. intros exc. by apply emits_fail. }
  intros _. destruct (args_report_only args) eqn:Hro.
  - assert (∀ a, report_action args a → run_action args a) as Hmode
      by (intros a; unfold run_action; by rewrite Hro).
    destruct (args_campaign_id args) as [id|] eqn:Hid; [|by apply emits_fail].
    destruct (decide (id = 0%Z)) as [->|Hnz]; [by apply emits_fail|].
    assert (∀ rem, emits (run_action args)
                     (poll_loop env fuel config args id (Z.max (args_poll_interval args) 0)
                                rem)) as Hloop.
    { apply emits_poll_loop_with; [|intros rem]; apply emits_poll_cycle; try done.
      all: try (intros; apply Hmode; done).
      all: try (intros Hcsv; apply truthy_spec in Hcsv as (path & Hpath & Hne);
                rewrite Hpath; unfold py_str;
                split; [intros rows|]; apply Hmode; done).
      all: intros Hiv; apply Hmode; simpl; lia. }
    destruct id; [done|apply Hloop|apply Hloop].
  - assert (∀ a, launch_action a → run_action args a) as Hmode
      by (intros a; unfold run_action; by rewrite Hro).
    apply emits_bind.
    { apply emits_try_GophishError; [apply emits_build_payload; by apply Hmode|].
      intros exc. by apply emits_fail. }
    intros payload. destruct (args_dry_run args || dry_run config).
    + unfold _print_plan, print.
      apply emits_bind; [apply emits_log; by apply Hmode | intros _; apply emits_return].
    + apply emits_bind.
      { apply emits_try_GophishError; [|intros exc; by apply emits_fail].
        unfold create_campaign.
        apply emits_bind; [apply emits_log; by apply Hmode | intros _; apply emits_lift]. }
      intros created. unfold print.
      apply emits_bind; [apply emits_log; by apply Hmode | intros _].
      apply emits_bind; [apply emits_log; by apply Hmode | intros _; apply emits_return].
Qed.

(** X22: the mode fixes what a run can do.  A report-only run only fetches
    the campaign of [--campaign-id], with its results, writes reports, exports
    to the path of [--csv-out] and sleeps for the positive [--poll-interval]:
    it sends no listing and no creation request.  Any other run only lists
    resources, creates a campaign and prints the plan or the result: it
    fetches no campaign, writes no CSV file and never sleeps. *)
Theorem run_actions_by_mode env fuel args files :
  Forall (run_action args) (trace (run env fuel args (start files)).2)
  ∧ (args_report_only args = true →
     Forall (λ a, is_listing a = false ∧ is_create a = false)
            (trace (run env fuel args (start files)).2))
  ∧ (args_report_only args = false →
     Forall (λ a, is_fetch a = false ∧ is_export a = false ∧ is_sleep a = false)
            (trace (run env fuel args (start files)).2)).
Proof.
  pose proof (emits_from_start _ _ files (emits_run_action env fuel args)) as Hall.
  split; [done|]. split; intros Hro; eapply Forall_impl; try exact Hall.
  - intros a. unfold run_action. rewrite Hro. by destruct a as [| | | | | | | | []|].
  - intros a. unfold run_action. rewrite Hro. by destruct a as [| | | | | | | | []|].
Qed.

Section FilesFollow.

Lemma replay_app t t' fs : replay (t ++ t') fs = replay t' (replay t fs).
Proof. unfold replay. by rewrite foldl_app. Qed.

Lemma files_follow_pure {A} (a : A) : files_follow (pure a).
Proof. intros w. exists []. by rewrite app_nil_r. Qed.

Lemma files_follow_return {A} code : files_follow (@return_ A code).
Proof. intros w. exists []. by rewrite app_nil_r. Qed.

Lemma files_follow_raise {A} e : files_follow (@raise A e).
Proof. intros w. exists []. by rewrite app_nil_r. Qed.

Lemma files_follow_lift {A} (r : Result A) : files_follow (lift r).
Proof. destruct r; [apply files_follow_pure | apply files_follow_raise]. Qed.

Lemma files_follow_log a : is_export a = false → files_follow (log a).
Proof. intros Ha w. exists [a]. split; [done|]. by destruct a. Qed.

Lemma files_follow_sleep seconds : files_follow (sleep seconds).
Proof.
  unfold sleep.
  destruct (Z.abs seconds <=? max_sleep)%Z; [|apply files_follow_raise].
  destruct (seconds <? 0)%Z; [apply files_follow_raise | by apply files_follow_log].
Qed.

Lemma files_follow_bind {A B} (p : Proc A) (k : A → Proc B) :
  files_follow p → (∀ a, files_follow (k a)) → files_follow (bind p k).
Proof.
  intros Hp Hk w. unfold bind. destruct (Hp w) as (t & Ht & Hfs).
  destruct (p w) as [[a|code|e|] w']; simpl in *; try by exists t.
  destruct (Hk a w') as (t' & Ht' & Hfs'). exists (t ++ t').
  by rewrite Ht', Ht, app_assoc, Hfs', Hfs, replay_app.
Qed.

Lemma files_follow_try_ConfigError {A} (body : Proc A) handler :
  files_follow body → (∀ exc, files_follow (handler exc)) →
  files_follow (try_except_ConfigError body handler).
Proof.
  intros Hp Hk w. unfold try_except_ConfigError. destruct (Hp w) as (t & Ht & Hfs).
  destruct (body w) as [[a|code|e|] w']; simpl in *; try by exists t.
  destruct e; try by exists t.
  destruct (Hk msg w') as (t' & Ht' & Hfs'). exists (t ++ t').
  by rewrite Ht', Ht, app_assoc, Hfs', Hfs, replay_app.
Qed.

Lemma files_follow_try_GophishError {A} (body : Proc A) handler :
  files_follow body → (∀ exc, files_follow (handler exc)) →
  files_follow (try_except_GophishError body handler).
Proof.
  intros Hp Hk w. unfold try_except_GophishError. destruct (Hp w) as (t & Ht & Hfs).
  destruct (body w) as [[a|code|e|] w']; simpl in *; try by exists t.
  destruct e; try by exists t.
  destruct (Hk msg w') as (t' & Ht' & Hfs'). exists (t ++ t').
  by rewrite Ht', Ht, app_assoc, Hfs', Hfs, replay_app.
Qed.

Lemma files_follow_find_by_name resources name : files_follow (find_by_name resources name).
Proof.
  unfold find_by_name. destruct (find_by_name_loop resources name);
    [apply files_follow_pure | apply files_follow_raise].
Qed.

Lemma files_follow_export rows path : files_follow (export_csv_step rows path).
Proof.
  intros w. exists [ExportCsv path rows]. unfold export_csv_step, replay. simpl.
  by destruct (export_csv rows path (fs w)).
Qed.

Lemma files_follow_get_campaign env id incl : files_follow (get_campaign env id incl).
Proof.
  intros w. exists [GetCampaign id incl (campaign_reply env (fetches w) id)].
  unfold get_campaign. by destruct (campaign_reply env (fetches w) id).
Qed.

End FilesFollow.

Ltac files_follow_step :=
  first
    [ apply files_follow_pure | apply files_follow_return | apply files_follow_raise
    | apply files_follow_lift | apply files_follow_find_by_name
    | apply files_follow_export | apply files_follow_get_campaign
    | apply files_follow_sleep
    | apply files_follow_log; done
    | apply files_follow_bind; [|intros ?]
    | apply files_follow_try_ConfigError; [|intros ?]
    | apply files_follow_try_GophishError; [|intros ?] ].

Ltac files_follow_steps := repeat files_follow_step.

Lemma files_follow_poll_loop env config args id iv fuel : ∀ rem,
  files_follow (poll_loop env fuel config args id iv rem).
Proof.
  induction fuel as [|fuel IH]; intros rem.
  - intros w. exists []. by rewrite app_nil_r.
  - cbn [poll_loop]. apply files_follow_bind; [|done].
    unfold poll_cycle, print, print_err. files_follow_steps.
    + destruct (truthy (args_csv_out args)); unfold print; files_follow_steps.
    + destruct (iv =? 0)%Z; files_follow_steps.
    + destruct (rem =? 0)%Z; [case_bool_decide|destruct (rem - 1 <=? 0)%Z];
        files_follow_steps.
Qed.

Lemma files_follow_run env fuel args : files_follow (run env fuel args).
Proof.
  unfold run, print_err.
  apply files_follow_bind; [files_follow_steps|]. intros config.
  apply files_follow_bind; [files_follow_steps|]. intros _.
  destruct (args_report_only args).
  - destruct (args_campaign_id args) as [[| |]|];
      try apply files_follow_poll_loop; files_follow_steps.
  - apply files_follow_bind.
    { apply files_follow_try_GophishError; [|intros exc; files_follow_steps].
      unfold _build_campaign_payload, list_groups, list_templates, list_pages,
        list_sending_profiles. files_follow_steps. }
    intros payload.
    destruct (args_dry_run args || dry_run config);
      unfold _print_plan, print, print_err, create_campaign; files_follow_steps.
Qed.

Lemma export_csv_refused rows path fs :
  writable fs path = false → export_csv rows path fs = Raise (OSError path).
Proof. intros Hw. unfold export_csv, open_w. by rewrite Hw. Qed.

Lemma last_export_in path t rows :
  last_export path t = Some rows → ExportCsv path rows ∈ t.
Proof.
  induction t as [|a t IH]; [done|]. simpl.
  destruct (last_export path t) as [rows'|].
  - intros [= ->]. by apply list_elem_of_further, IH.
  - destruct a; try done. destruct (String.eqb_spec path0 path) as [->|]; [|done].
    intros [= ->]. apply list_elem_of_here.
Qed.

Lemma replay_files t : ∀ fs,
  writable (replay t fs) = writable fs
  ∧ ∀ path,
      files (replay t fs) !! path
      = match last_export path t with
        | Some rows => if writable fs path then Some (csv_text rows) else files fs !! path
        | None => files fs !! path
        end.
Proof.
  induction t as [|a t IH]; intros fs; [done|].
  change (replay (a :: t) fs) with (replay t (replay [a] fs)).
  destruct (IH (replay [a] fs)) as [Hwr Hfiles].
  assert (writable (replay [a] fs) = writable fs
          ∧ ∀ path,
              files (replay [a] fs) !! path
              = match a with
                | ExportCsv p rows =>
                    if String.eqb p path && writable fs path
                    then Some (csv_text rows) else files fs !! path
                | _ => files fs !! path
                end) as [Hwr1 Hfiles1].
  { unfold replay. destruct a; try done. simpl.
    destruct (writable fs path) eqn:Hw.
    - rewrite export_csv_files by done. split; [done|]. intros p. cbn [files].
      destruct (String.eqb_spec path p) as [->|Hp]; simpl.
      + by rewrite Hw, lookup_insert_eq.
      + by rewrite lookup_insert_ne.
    - rewrite export_csv_refused by done. split; [done|]. intros p.
      destruct (String.eqb_spec path p) as [->|Hp]; simpl; [by rewrite Hw | done]. }
  split; [by rewrite Hwr, Hwr1|]. intros path. rewrite Hfiles, Hwr1, Hfiles1. simpl.
  destruct (last_export path t) as [rows|].
  - destruct (writable fs path) eqn:Hw; [done|]. destruct a; try done.
    by rewrite andb_false_r.
  - destruct a; try done. destruct (String.eqb path0 path); simpl; [|done].
    by destruct (writable fs path).
Qed.

(** X23: a run changes the files through its exports only.  What can be
    written stays the same; every file but the one of [--csv-out] is left as
    it was; and a writable path holds, after the run or at any point where
    the observation stops, the header and the rows of the last export to it,
    or what it held before when nothing was exported. *)
Theorem files_follow_exports env fuel args (disk : FileSystem) :
  let w := (run env fuel args (start disk)).2 in
  writable (fs w) = writable disk
  ∧ (∀ path, args_csv_out args ≠ Some path → files (fs w) !! path = files disk !! path)
  ∧ (∀ path, writable disk path = true →
       files (fs w) !! path
       = match last_export path (trace w) with
         | Some rows => Some (csv_text rows)
         | None => files disk !! path
         end).
Proof.
  intros w.
  destruct (files_follow_run env fuel args (start disk)) as (t & Ht & Hfs).
  fold w in Ht, Hfs. simpl in Ht, Hfs.
  destruct (replay_files t disk) as [Hwr Hfiles].
  rewrite Hfs, Ht. split; [done|]. split.
  - intros path Hpath. rewrite Hfiles.
    destruct (last_export path t) as [rows|] eqn:Hlast; [|done].
    apply last_export_in in Hlast.
    pose proof (emits_from_start _ _ disk (emits_run_action env fuel args)) as Hall.
    fold w in Hall. rewrite Ht in Hall.
    rewrite list.Forall_forall in Hall. apply Hall in Hlast.
    unfold run_action in Hlast. destruct (args_report_only args); [|done].
    by destruct Hlast as [Hcsv _].
  - intros path Hw. rewrite Hfiles, Hw. done.
Qed.

Section StderrLast.

Lemma stderr_last_pure {A} (a : A) : stderr_last (pure a).
Proof. intros w. left. exists []. by rewrite app_nil_r. Qed.

Lemma stderr_last_raise {A} e : stderr_last (@raise A e).
Proof. intros w. left. exists []. by rewrite app_nil_r. Qed.

Lemma stderr_last_lift {A} (r : Result A) : stderr_last (lift r).
Proof. destruct r; [apply stderr_last_pure | apply stderr_last_raise]. Qed.

Lemma stderr_last_return_0 {A} : stderr_last (@return_ A 0).
Proof.
  intros w. left. exists []. rewrite app_nil_r. split; [done|]. split; [done|].
  by intros code [= <-].
Qed.

Lemma stderr_last_log a : is_print_err a = false → stderr_last (log a).
Proof.
  intros Ha w. left. exists [a]. split; [done|]. split; [|done]. by constructor.
Qed.

Lemma stderr_last_sleep seconds : stderr_last (sleep seconds).
Proof.
  unfold sleep.
  destruct (Z.abs seconds <=? max_sleep)%Z; [|apply stderr_last_raise].
  destruct (seconds <? 0)%Z; [apply stderr_last_raise | by apply stderr_last_log].
Qed.

Lemma stderr_last_fail {A} msg :
  stderr_last (bind (print_err msg) (λ _, @return_ A 1)).
Proof. intros w. right. exists [], msg. done. Qed.

Lemma stderr_last_bind {A B} (p : Proc A) (k : A → Proc B) :
  stderr_last p → (∀ a, stderr_last (k a)) → stderr_last (bind p k).
Proof.
  intros Hp Hk w. unfold bind.
  destruct (Hp w) as [(t & Ht & Hq & Hcode) | (t & msg & Ht & Hq & Hctl)].
  - destruct (p w) as [[a|code|e|] w']; simpl in *;
      try (left; exists t; split; [done|]; split; [done|];
           first [done | intros c [= <-]; by apply Hcode]).
    destruct (Hk a w') as [(t' & Ht' & Hq' & Hcode') | (t' & msg & Ht' & Hq' & Hctl)].
    + left. exists (t ++ t'). rewrite Ht', Ht, app_assoc. split; [done|].
      split; [by apply Forall_app | done].
    + right. exists (t ++ t'), msg. rewrite Ht', Ht, <- !app_assoc.
      split; [done|]. split; [by apply Forall_app | done].
  - right. exists t, msg.
    destruct (p w) as [[a|code|e|] w']; simplify_eq/=; done.
Qed.

Lemma stderr_last_try_ConfigError {A} (body : Proc A) handler :
  stderr_last body → (∀ exc, stderr_last (handler exc)) →
  stderr_last (try_except_ConfigError body handler).
Proof.
  intros Hp Hk w. unfold try_except_ConfigError.
  destruct (Hp w) as [(t & Ht & Hq & Hcode) | (t & msg & Ht & Hq & Hctl)].
  - destruct (body w) as [[a|code|e|] w']; simpl in *;
      try (left; exists t; split; [done|]; split; [done|];
           first [done | intros c [= <-]; by apply Hcode]).
    destruct e; try (left; exists t; split; [done|]; split; [done|]; done).
    destruct (Hk msg w') as [(t' & Ht' & Hq' & Hcode') | (t' & msg' & Ht' & Hq' & Hctl)].
    + left. exists (t ++ t'). rewrite Ht', Ht, app_assoc. split; [done|].
      split; [by apply Forall_app | done].
    + right. exists (t ++ t'), msg'. rewrite Ht', Ht, <- !app_assoc.
      split; [done|]. split; [by apply Forall_app | done].
  - right. exists t, msg.
    destruct (body w) as [[a|code|e|] w']; simplify_eq/=; done.
Qed.

Lemma stderr_last_try_GophishError {A} (body : Proc A) handler :
  stderr_last body → (∀ exc, stderr_last (handler exc)) →
  stderr_last (try_except_GophishError body handler).
Proof.
  intros Hp Hk w. unfold try_except_GophishError.
  destruct (Hp w) as [(t & Ht & Hq & Hcode) | (t & msg & Ht & Hq & Hctl)].
  - destruct (body w) as [[a|code|e|] w']; simpl in *;
      try (left; exists t; split; [done|]; split; [done|];
           first [done | intros c [= <-]; by apply Hcode]).
    destruct e; try (left; exists t; split; [done|]; split; [done|]; done).
    destruct (Hk msg w') as [(t' & Ht' & Hq' & Hcode') | (t' & msg' & Ht' & Hq' & Hctl)].
    + left. exists (t ++ t'). rewrite Ht', Ht, app_assoc. split; [done|].
      split; [by apply Forall_app | done].
    + right. exists (t ++ t'), msg'. rewrite Ht', Ht, <- !app_assoc.
      split; [done|]. split; [by apply Forall_app | done].
  - right. exists t, msg.
    destruct (body w) as [[a|code|e|] w']; simplify_eq/=; done.
Qed.

Lemma stderr_last_find_by_name resources name : stderr_last (find_by_name resources name).
Proof.
  unfold find_by_name. destruct (find_by_name_loop resources name);
    [apply stderr_last_pure | apply stderr_last_raise].
Qed.

Lemma stderr_last_export rows path : stderr_last (export_csv_step rows path).
Proof.
  intros w. left. exists [ExportCsv path rows]. unfold export_csv_step. simpl.
  destruct (export_csv rows path (fs w)); (split; [done|]); (split; [|done]);
    by constructor.
Qed.

Lemma stderr_last_get_campaign env id incl : stderr_last (get_campaign env id incl).
Proof.
  intros w. left. exists [GetCampaign id incl (campaign_reply env (fetches w) id)].
  unfold get_campaign.
  destruct (campaign_reply env (fetches w) id); (split; [done|]); (split; [|done]);
    by constructor.
Qed.

Lemma leaves_return {A} code : leaves (@return_ A code).
Proof. intros w a. done. Qed.

Lemma leaves_bind {A B} (p : Proc A) (k : A → Proc B) :
  (∀ a, leaves (k a)) → leaves (bind p k).
Proof.
  intros Hk w b. unfold bind. destruct (p w) as [[a|code|e|] w']; try done. apply Hk.
Qed.

End StderrLast.

Ltac stderr_last_step :=
  first
    [ apply stderr_last_fail
    | apply stderr_last_pure | apply stderr_last_return_0 | apply stderr_last_raise
    | apply stderr_last_lift | apply stderr_last_find_by_name
    | apply stderr_last_export | apply stderr_last_get_campaign
    | apply stderr_last_sleep
    | apply stderr_last_log; done
    | apply stderr_last_bind; [|intros ?]
    | apply stderr_last_try_ConfigError; [|intros ?]
    | apply stderr_last_try_GophishError; [|intros ?] ].

Ltac stderr_last_steps := repeat stderr_last_step.

Lemma stderr_last_poll_loop env config args id iv fuel : ∀ rem,
  stderr_last (poll_loop env fuel config args id iv rem).
Proof.
  induction fuel as [|fuel IH]; intros rem.
  - intros w. left. exists []. by rewrite app_nil_r.
  - cbn [poll_loop]. apply stderr_last_bind; [|done].
    unfold poll_cycle, print. stderr_last_steps.
    + destruct (truthy (args_csv_out args)); unfold print; stderr_last_steps.
    + destruct (iv =? 0)%Z; stderr_last_steps.
    + destruct (rem =? 0)%Z; [case_bool_decide|destruct (rem - 1 <=? 0)%Z];
        stderr_last_steps.
Qed.

Lemma stderr_last_run env fuel args : stderr_last (run env fuel args).
Proof.
  unfold run.
  apply stderr_last_bind; [stderr_last_steps|]. intros config.
  apply stderr_last_bind; [stderr_last_steps|]. intros _.
  destruct (args_report_only args).
  - destruct (args_campaign_id args) as [[| |]|];
      try apply stderr_last_poll_loop; stderr_last_steps.
  - apply stderr_last_bind.
    { apply stderr_last_try_GophishError; [|intros exc; stderr_last_steps].
      unfold _build_campaign_payload, list_groups, list_templates, list_pages,
        list_sending_profiles. stderr_last_steps. }
    intros payload.
    destruct (args_dry_run args || dry_run config);
      unfold _print_plan, print, create_campaign; stderr_last_steps.
Qed.

Lemma leaves_poll_loop env config args id iv fuel : ∀ rem,
  leaves (poll_loop env fuel config args id iv rem).
Proof.
  induction fuel as [|fuel IH]; intros rem; [done|].
  cbn [poll_loop]. by apply leaves_bind.
Qed.

Lemma leaves_run env fuel args : leaves (run env fuel args).
Proof.
  unfold run. apply leaves_bind. intros config. apply leaves_bind. intros _.
  destruct (args_report_only args).
  - destruct (args_campaign_id args) as [[| |]|];
      try apply leaves_poll_loop; apply leaves_bind; intros _; apply leaves_return.
  - apply leaves_bind. intros payload. destruct (args_dry_run args || dry_run config).
    + apply leaves_bind. intros _. apply leaves_return.
    + apply leaves_bind. intros created. apply leaves_bind. intros _.
      apply leaves_bind. intros _. apply leaves_return.
Qed.

Lemma quiet_no_err (t t' after : list Action) msg :
  Forall no_print_err t → t = t' ++ PrintErr msg :: after → False.
Proof.
  intros Hq ->. apply Forall_app in Hq as [_ Hq]. by inversion Hq.
Qed.

Lemma last_err_unique (t t' after : list Action) msg msg' :
  Forall no_print_err t → t ++ [PrintErr msg] = t' ++ PrintErr msg' :: after →
  after = [].
Proof.
  intros Hq. revert t'. induction Hq as [|a t Ha Hq IH]; intros t' Heq.
  - destruct t' as [|a' t']; simplify_eq/=; [done|]. by destruct t'.
  - destruct t' as [|a' t']; simplify_eq/=. by apply (IH t').
Qed.

(** X24: a run never falls off the end of [run]: it returns 0 or 1, raises,
    or is still polling.  It returns 1 exactly when its last action is a
    line on the standard error, and it writes no other such line: an error
    message is never followed by anything, and exit code 0 means that
    nothing was written to the standard error. *)
Theorem exit_code_and_error_line env fuel args (disk : FileSystem) :
  let r := run env fuel args (start disk) in
  (∀ a, r.1 ≠ Next a)
  ∧ (∀ code, r.1 = Return code → code = 0%Z ∨ code = 1%Z)
  ∧ (r.1 = Return 1%Z ↔ ∃ t msg, trace r.2 = t ++ [PrintErr msg])
  ∧ (∀ t msg after, trace r.2 = t ++ PrintErr msg :: after → after = [])
  ∧ (r.1 = Return 0%Z → Forall no_print_err (trace r.2)).
Proof.
  intros r. split; [apply leaves_run|].
  destruct (stderr_last_run env fuel args (start disk))
    as [(t & Ht & Hq & Hcode) | (t & msg & Ht & Hq & Hctl)];
    fold r in Ht; simpl in Ht; rewrite Ht.
  - fold r in Hcode. split; [intros code Hc; left; by apply Hcode|]. split; [split|split].
    + intros Hc. by apply Hcode in Hc.
    + intros (t' & msg & Heq). by destruct (quiet_no_err t t' [] msg).
    + intros t' msg after Heq. by destruct (quiet_no_err t t' after msg).
    + done.
  - fold r in Hctl. rewrite Hctl. split; [intros code [= <-]; by right|].
    split; [split; [eauto | done]|]. split; [|done].
    intros t' msg' after Heq. by apply (last_err_unique t t' after msg msg').
Qed.

End Invariants.

(** ** The poller on any server *)

Section Pacing.

#[local] Arguments export_csv : simpl never.
#[local] Arguments compute_metrics : simpl never.
#[local] Arguments build_recipient_rows : simpl never.
#[local] Arguments truthy : simpl never.
#[local] Arguments py_str : simpl never.
#[local] Arguments cycle : simpl never.

Lemma answers_push env id first c cs :
  campaign_reply env first id = Ok c → answers env id (S first) cs →
  answers env id first (c :: cs).
Proof.
  intros Hc Hcs [|i] c' Hi; simpl in Hi.
  - injection Hi as <-. by rewrite Nat.add_0_r.
  - rewrite <- Nat.add_succ_comm. by apply Hcs.
Qed.

Lemma poll_cycle_fetch_failed env config args id iv rem w e :
  campaign_reply env (fetches w) id = Raise e →
  poll_cycle env config args id iv rem w
  = (abort_ctl e,
     mkWorld (trace w ++ GetCampaign id true (Raise e) :: abort_tail e) (fs w)
             (S (fetches w))).
Proof.
  intros Hreply. unfold poll_cycle, bind, try_except_GophishError, get_campaign.
  rewrite Hreply. destruct e; simpl; try done.
  unfold print_err, log. simpl. by rewrite <- app_assoc.
Qed.

Lemma poll_cycle_export_failed env config args id iv rem w c path :
  campaign_reply env (fetches w) id = Ok c →
  args_csv_out args = Some path → path ≠ "" →
  writable (fs w) path = false →
  poll_cycle env config args id iv rem w
  = (Raised (OSError path),
     mkWorld (trace w ++ take 3 (cycle config args id c)) (fs w) (S (fetches w))).
Proof.
  intros Hreply Hcsv Hpath Hw.
  destruct (compute_metrics_fields c (unique_opens_only (reporting config))
              (unique_clicks_only (reporting config))) as (m & Hm & _).
  assert (truthy (args_csv_out args) = true) as Htruthy
    by (apply truthy_spec; by exists path).
  unfold poll_cycle, cycle, bind, try_except_GophishError, get_campaign.
  rewrite Hreply, Hm. simpl. rewrite Hm. simpl. rewrite Htruthy.
  unfold export_csv_step, print, log. simpl.
  rewrite Hcsv. unfold py_str, export_csv, open_w. rewrite Hw. simpl.
  by rewrite <- !app_assoc.
Qed.

Lemma abort_ctl_bind {A B} e (w : World) (k : A → Proc B) :
  (let (c, w') := (@abort_ctl A e, w) in
   match c with
   | Next a => k a w'
   | Return code => (Return code, w')
   | Raised e => (Raised e, w')
   | Running => (Running, w')
   end) = (abort_ctl e, w).
Proof. by destruct e. Qed.

Lemma poll_loop_shape env config args id fuel : ∀ rem w,
  ∃ cs ending w',
    poll_loop env fuel config args id (Z.max (args_poll_interval args) 0) rem w
    = (end_control ending, w')
    ∧ trace w' = trace w
                 ++ slept_cycles config args id (Z.max (args_poll_interval args) 0) cs
                 ++ end_trace config args id ending
    ∧ answers env id (fetches w) cs
    ∧ (length cs + end_fetches ending ≤ fuel)%nat
    ∧ fetches w' = (fetches w + length cs + end_fetches ending)%nat
    ∧ end_reason env args (fs w) id (fetches w + fuel) (fetches w + length cs) ending.
Proof.
  set (iv := Z.max (args_poll_interval args) 0).
  induction fuel as [|fuel IH]; intros rem w.
  { exists [], StillPolling, w. simpl. rewrite app_nil_r.
    split; [done|]. split; [done|]. split; [by intros i c Hi|].
    split; [done|]. split; [lia | done]. }
  assert (∀ c files1 rem',
            writable files1 = writable (fs w) →
            campaign_reply env (fetches w) id = Ok c →
            ∃ cs ending w',
              bind (bind (sleep iv) (λ _, pure rem'))
                   (λ rem', poll_loop env fuel config args id iv rem')
                   (mkWorld (trace w ++ cycle config args id c) files1 (S (fetches w)))
              = (end_control ending, w')
              ∧ trace w' = trace w ++ slept_cycles config args id iv cs
                           ++ end_trace config args id ending
              ∧ answers env id (fetches w) cs
              ∧ (length cs + end_fetches ending ≤ S fuel)%nat
              ∧ fetches w' = (fetches w + length cs + end_fetches ending)%nat
              ∧ end_reason env args (fs w) id (fetches w + S fuel)
                           (fetches w + length cs) ending) as Hnext.
  { intros c files1 rem' Hwr Hreply.
    destruct (Z.leb_spec iv max_sleep) as [Hmax|Hmax].
    - unfold bind at 1 2. rewrite sleep_ok by (unfold iv in *; lia).
      cbv beta iota. unfold pure.
      destruct (IH rem' (mkWorld ((trace w ++ cycle config args id c) ++ [Sleep iv])
                                 files1 (S (fetches w))))
        as (cs & ending & w' & Hloop & Htrace & Hans & Hlen & Hfetches & Hend).
      exists (c :: cs), ending, w'. cbn [trace fs fetches] in *.
      split; [done|]. split.
      { rewrite Htrace. unfold slept_cycles. rewrite fmap_cons. simpl.
        by rewrite <- !app_assoc. }
      split; [by apply answers_push|]. split; [simpl; lia|].
      split; [simpl; lia|].
      cbn [length]. rewrite <- !Nat.add_succ_comm.
      destruct ending; try done. simpl in *. by rewrite <- Hwr.
    - unfold bind at 1 2. rewrite sleep_overflow by done.
      exists [], (SleepFailed c). eexists. split; [reflexivity|].
      simpl. rewrite Nat.add_0_r. split; [done|]. split; [by intros i c' Hi|].
      split; [lia|]. split; [lia|]. split; [done|].
      unfold iv, max_sleep in *. lia. }
  assert (∀ c w',
            campaign_reply env (fetches w) id = Ok c →
            trace w' = trace w ++ cycle config args id c →
            fetches w' = S (fetches w) →
            ∃ cs ending w'',
              (Return 0%Z, w') = (end_control ending, w'')
              ∧ trace w'' = trace w ++ slept_cycles config args id iv cs
                            ++ end_trace config args id ending
              ∧ answers env id (fetches w) cs
              ∧ (length cs + end_fetches ending ≤ S fuel)%nat
              ∧ fetches w'' = (fetches w + length cs + end_fetches ending)%nat
              ∧ end_reason env args (fs w) id (fetches w + S fuel)
                           (fetches w + length cs) ending) as Hlast.
  { intros c w' Hreply Htrace Hfetches. exists [], (Finished c), w'.
    simpl. rewrite Nat.add_0_r. split; [done|]. split; [done|].
    split; [by intros i c' Hi|]. split; [lia|]. split; [lia | done]. }
  assert (∀ c files1,
            writable files1 = writable (fs w) →
            campaign_reply env (fetches w) id = Ok c →
            ∃ cs ending w',
              (let (ctl, w1) :=
                 match next_polls iv rem c with
                 | Some r =>
                     bind (sleep iv) (λ _, pure r)
                          (mkWorld (trace w ++ cycle config args id c) files1
                                   (S (fetches w)))
                 | None =>
                     (Return 0%Z,
                      mkWorld (trace w ++ cycle config args id c) files1 (S (fetches w)))
                 end in
               match ctl with
               | Next rem' => poll_loop env fuel config args id iv rem' w1
               | Return code => (Return code, w1)
               | Raised e => (Raised e, w1)
               | Running => (Running, w1)
               end) = (end_control ending, w')
              ∧ trace w' = trace w ++ slept_cycles config args id iv cs
                           ++ end_trace config args id ending
              ∧ answers env id (fetches w) cs
              ∧ (length cs + end_fetches ending ≤ S fuel)%nat
              ∧ fetches w' = (fetches w + length cs + end_fetches ending)%nat
              ∧ end_reason env args (fs w) id (fetches w + S fuel)
                           (fetches w + length cs) ending) as Hstep.
  { intros c files1 Hwr Hreply. destruct (next_polls iv rem c) as [rem'|].
    - by apply (Hnext c files1 rem').
    - by apply (Hlast c). }
  cbn [poll_loop]. unfold bind at 1.
  destruct (campaign_reply env (fetches w) id) as [c|e] eqn:Hreply.
  2: { exists [], (FetchFailed e). eexists.
       rewrite (poll_cycle_fetch_failed _ _ _ _ _ _ _ e Hreply), abort_ctl_bind.
       split; [reflexivity|]. simpl. rewrite Nat.add_0_r.
       split; [done|]. split; [by intros i c Hi|]. split; [lia|]. split; [lia | done]. }
  destruct (truthy (args_csv_out args)) eqn:Htruthy.
  - pose proof Htruthy as Hcsv. apply truthy_spec in Hcsv as (path & Hcsv & Hpath).
    destruct (writable (fs w) path) eqn:Hw.
    + destruct (poll_cycle_answered env config args id iv rem w c Hreply)
        as (files1 & Hwr & Hcycle).
      { intros _. rewrite Hcsv. unfold py_str. done. }
      rewrite Hcycle. cbv zeta. destruct (Hstep c files1 Hwr eq_refl) as (cs & ending & w' & H).
      exists cs, ending, w'. destruct (next_polls iv rem c); exact H.
    + exists [], (ExportFailed c path). eexists.
      rewrite (poll_cycle_export_failed _ _ _ _ _ _ _ c path Hreply Hcsv Hpath Hw).
      split; [reflexivity|]. simpl. rewrite Nat.add_0_r.
      split; [done|]. split; [by intros i c' Hi|]. split; [lia|]. split; [lia | done].
  - destruct (poll_cycle_answered env config args id iv rem w c Hreply)
      as (files1 & Hwr & Hcycle).
    { intros Hcsv. by rewrite Htruthy in Hcsv. }
    rewrite Hcycle. cbv zeta. destruct (Hstep c files1 Hwr eq_refl) as (cs & ending & w' & H).
    exists cs, ending, w'. destruct (next_polls iv rem c); exact H.
Qed.

Lemma end_trace_counts config args id ending :
  fetch_count (end_trace config args id ending) = end_fetches ending
  ∧ sleep_count (end_trace config args id ending) = 0%nat.
Proof.
  destruct ending as [|c|e|c path|c]; simpl;
    [done|apply cycle_counts|by destruct e| |apply cycle_counts].
  unfold cycle.
  destruct (compute_metrics_fields c (unique_opens_only (reporting config))
              (unique_clicks_only (reporting config))) as (m & -> & _).
  by destruct (truthy (args_csv_out args)).
Qed.

Lemma run_polls env args disk config id fuel :
  load_config env (args_config args) = Ok config →
  args_report_only args = true →
  args_campaign_id args = Some id → id ≠ 0%Z →
  run env fuel args (start disk)
  = poll_loop env fuel config args id (Z.max (args_poll_interval args) 0)
      (if (Z.max (args_poll_interval args) 0 =? 0)%Z then 1%Z else args_poll_count args)
      (start disk).
Proof.
  intros Hload Hro Hid Hnz. unfold run, bind, try_except_ConfigError, _enforce_safety.
  rewrite Hload. simpl. rewrite Hro, Hid. simpl. by destruct id.
Qed.



(** X26: the poller is paced, whatever the server answers.  In a
    report-only run every fetch but the last is followed by exactly one
    sleep before the next one, and nothing is fetched twice in a row: a run
    that is still polling after [fuel] turns has made [fuel] fetches and
    [fuel] sleeps, and a run that has ended has made one fetch more than
    sleeps, so it fetched at once and did not sleep after its last fetch.
    The run made as many requests as there are fetches in its trace. *)
Theorem poller_pacing env args (disk : FileSystem) config id fuel :
  load_config env (args_config args) = Ok config →
  args_report_only args = true →
  args_campaign_id args = Some id → id ≠ 0%Z →
  let r := run env fuel args (start disk) in
  (r.1 = Running →
   fetch_count (trace r.2) = fuel ∧ sleep_count (trace r.2) = fuel)
  ∧ (r.1 ≠ Running →
     fetch_count (trace r.2) = S (sleep_count (trace r.2))
     ∧ (fetch_count (trace r.2) ≤ fuel)%nat)
  ∧ fetches r.2 = fetch_count (trace r.2).
Proof.
  intros Hload Hro Hid Hnz r. unfold r.
  rewrite (run_polls env args disk config id fuel Hload Hro Hid Hnz).
  destruct (poll_loop_shape env config args id fuel
              (if (Z.max (args_poll_interval args) 0 =? 0)%Z then 1%Z
               else args_poll_count args) (start disk))
    as (cs & ending & w & -> & Htrace & Hans & Hlen & Hfetches & Hend).
  cbn [fst snd]. simpl in Htrace. rewrite Htrace.
  unfold fetch_count, sleep_count. rewrite !count_app.
  destruct (slept_cycles_counts config args id (Z.max (args_poll_interval args) 0) cs)
    as [Hf Hs].
  destruct (end_trace_counts config args id ending) as [Hf' Hs'].
  unfold fetch_count, sleep_count in Hf, Hs, Hf', Hs'. rewrite Hf, Hs, Hf', Hs'.
  simpl in Hfetches. rewrite Hfetches.
  split; [|split; [|done]].
  - intros Hctl. destruct ending as [|c|e|c path|c]; simpl in *; try done; [lia|by destruct e].
  - intros Hctl. destruct ending as [|c|e|c path|c]; simpl in *; try done; lia.
Qed.

Lemma poller_pacing_witness :
  let r := run failing_env 3 (sample_args 5 0) (start sample_files) in
  (r.1 = Running → fetch_count (trace r.2) = 3%nat ∧ sleep_count (trace r.2) = 3%nat)
  ∧ (r.1 ≠ Running →
     fetch_count (trace r.2) = S (sleep_count (trace r.2))
     ∧ (fetch_count (trace r.2) ≤ 3)%nat)
  ∧ fetches r.2 = fetch_count (trace r.2).
Proof.
  apply (poller_pacing failing_env (sample_args 5 0) sample_files sample_config 7 3);
    [reflexivity | reflexivity | reflexivity | discriminate].
Defined.

End Pacing.

(** ** The exported file during a run *)

Section Snapshots.

#[local] Arguments export_csv : simpl never.
#[local] Arguments compute_metrics : simpl never.
#[local] Arguments build_recipient_rows : simpl never.
#[local] Arguments cycle : simpl never.

Lemma last_export_app path t t' :
  last_export path (t ++ t')
  = match last_export path t' with
    | Some rows => Some rows
    | None => last_export path t
    end.
Proof.
  induction t as [|a t IH]; simpl; [by destruct (last_export path t')|].
  rewrite IH. by destruct (last_export path t').
Qed.

Lemma fetched_app t t' : fetched (t ++ t') = fetched t ++ fetched t'.
Proof. unfold fetched. by rewrite omap_app. Qed.

Lemma cycle_snapshot config args id c path :
  args_csv_out args = Some path → path ≠ "" →
  fetched (cycle config args id c) = [c]
  ∧ last_export path (cycle config args id c) = Some (build_recipient_rows c).
Proof.
  intros Hcsv Hpath. unfold cycle.
  destruct (compute_metrics_fields c (unique_opens_only (reporting config))
              (unique_clicks_only (reporting config))) as (m & -> & _).
  assert (truthy (args_csv_out args) = true) as ->
    by (apply truthy_spec; by exists path).
  rewrite Hcsv. simpl. by rewrite String.eqb_refl.
Qed.

Lemma slept_cycles_push config args id iv c cs :
  slept_cycles config args id iv (c :: cs)
  = (cycle config args id c ++ [Sleep iv]) ++ slept_cycles config args id iv cs.
Proof. done. Qed.

Lemma slept_cycles_snapshot config args id iv path cs :
  args_csv_out args = Some path → path ≠ "" →
  fetched (slept_cycles config args id iv cs) = cs
  ∧ last_export path (slept_cycles config args id iv cs)
    = build_recipient_rows <$> list.last cs.
Proof.
  intros Hcsv Hpath.
  induction cs as [|c cs [IHf IHl]]; [done|].
  destruct (cycle_snapshot config args id c path Hcsv Hpath) as [Hf Hl].
  rewrite slept_cycles_push, !fetched_app, !last_export_app, IHf, IHl, Hf, Hl.
  split; [done|].
  destruct cs as [|c' cs]; [done|]. simpl.
  destruct (list.last (c' :: cs)) as [c''|] eqn:Hlast; [done|].
  by apply last_None in Hlast.
Qed.

Lemma reader_csv_text (rows : list RecipientRow) :
  reader None (csv_text rows) = Ok (fieldnames :: (_dict_to_list <$> rows)).
Proof.
  rewrite <- (reader_writer (fieldnames :: (_dict_to_list <$> rows)))
    by apply dict_to_list_nonempty.
  unfold csv_text. by rewrite fmap_cons, <- list_fmap_compose.
Qed.

(** X27: during a report-only run with a writable [--csv-out] path the
    file always holds the latest snapshot: wherever the run stands or
    however it ended, the file is the export of the payload that the server
    answered to the last successful fetch, which a reader gets back as the
    header and one record per recipient of that payload; a failed fetch
    leaves the snapshot before it in place, and before the first successful
    fetch the file is what it was. *)
Theorem csv_holds_last_snapshot env args (disk : FileSystem) config id path fuel :
  load_config env (args_config args) = Ok config →
  args_report_only args = true →
  args_campaign_id args = Some id → id ≠ 0%Z →
  args_csv_out args = Some path → path ≠ "" →
  writable disk path = true →
  let w := (run env fuel args (start disk)).2 in
  match list.last (fetched (trace w)) with
  | Some c =>
      files (fs w) !! path = Some (csv_text (build_recipient_rows c))
      ∧ read_csv path (fs w)
        = Ok (fieldnames :: (_dict_to_list <$> build_recipient_rows c))
  | None => files (fs w) !! path = files disk !! path
  end.
Proof.
  intros Hload Hro Hid Hnz Hcsv Hpath Hw w.
  destruct (files_follow_run env fuel args (start disk)) as (t & Ht & Hfs).
  fold w in Ht, Hfs. simpl in Ht, Hfs.
  destruct (replay_files t disk) as [_ Hfiles].
  specialize (Hfiles path). rewrite <- Hfs, Hw in Hfiles.
  assert (last_export path t = build_recipient_rows <$> list.last (fetched t)) as Hlast.
  { destruct (poll_loop_shape env config args id fuel
                (if (Z.max (args_poll_interval args) 0 =? 0)%Z then 1%Z
                 else args_poll_count args) (start disk))
      as (cs & ending & w' & Hloop & Htrace & _ & _ & _ & Hend).
    rewrite <- (run_polls env args disk config id fuel Hload Hro Hid Hnz) in Hloop.
    assert (w' = w) as -> by (unfold w; by rewrite Hloop).
    simpl in Htrace. rewrite Ht in Htrace. rewrite Htrace.
    destruct (slept_cycles_snapshot config args id (Z.max (args_poll_interval args) 0)
                path cs Hcsv Hpath) as [Hf Hl].
    rewrite fetched_app, last_export_app, Hf, Hl.
    destruct ending as [|c|e|c path'|c].
    - simpl. by rewrite app_nil_r.
    - destruct (cycle_snapshot config args id c path Hcsv Hpath) as [Hf' Hl'].
      simpl. rewrite Hf', Hl'. by rewrite last_snoc.
    - destruct e; simpl; by rewrite app_nil_r.
    - simpl in Hend. destruct Hend as (_ & Hcsv' & _ & Hw').
      rewrite Hcsv in Hcsv'. injection Hcsv' as <-. simpl in Hw'. congruence.
    - destruct (cycle_snapshot config args id c path Hcsv Hpath) as [Hf' Hl'].
      simpl. rewrite Hf', Hl'. by rewrite last_snoc. }
  rewrite Ht. rewrite Hlast in Hfiles.
  destruct (list.last (fetched t)) as [c|]; simpl in Hfiles; [|done].
  split; [done|]. unfold read_csv, read_csv_within. rewrite Hfiles. apply reader_csv_text.
Qed.

Lemma csv_holds_last_snapshot_witness :
  let w := (run failing_env 3 (sample_args 5 0) (start sample_files)).2 in
  match list.last (fetched (trace w)) with
  | Some c =>
      files (fs w) !! "out.csv" = Some (csv_text (build_recipient_rows c))
      ∧ read_csv "out.csv" (fs w)
        = Ok (fieldnames :: (_dict_to_list <$> build_recipient_rows c))
  | None => files (fs w) !! "out.csv" = files sample_files !! "out.csv"
  end.
Proof.
  apply (csv_holds_last_snapshot failing_env (sample_args 5 0) sample_files sample_config 7
           "out.csv" 3);
    [reflexivity | reflexivity | reflexivity | discriminate | reflexivity | discriminate
    | reflexivity].
Defined.

End Snapshots.
